(** * PaGraph: the GPU feature cache of [storage/storage.py]

    A shallow embedding of the class [GraphCacheServer] and the properties
    of its cache population and gather methods.

    Tensors are modelled by their contents: a 1-D index or mask tensor is a
    list, a 2-D feature tensor is a list of rows with its column count.
    Feature values are only ever copied, never computed on, so their type is
    a parameter.  Node ids are natural numbers (the index tensors of the
    source hold ids of local nodes; the wrap-around of torch for negative
    indices is left out).  Python dictionaries keep their insertion order
    and are association lists.  Exceptions are a result type; methods that
    mutate [self] (or the nodeflow) are functions from the state to a result
    and the state left behind, also when they raise.  Device placement
    ([.cuda]) copies values and is the identity here; printing is left out;
    what [torch.cuda] reports about the device, and what newly allocated
    memory holds, are fields of a device record. *)

From stdpp Require Import base list strings sorting.
From Stdlib Require Import ZArith Lia.

Local Open Scope Z_scope.
Local Open Scope nat_scope.

(** ** Exceptions and results *)

Inductive exn : Type :=
  | IndexError
  | KeyError
  | AssertionError
  | RuntimeError
  | ZeroDivisionError.

Inductive result (A : Type) : Type :=
  | Ok (a : A)
  | Raise (e : exn).
Arguments Ok {A} a.
Arguments Raise {A} e.

#[global] Instance exn_eq_dec : EqDecision exn.
Proof. solve_decision. Defined.

#[global] Instance result_ret : MRet result := λ A a, Ok a.
#[global] Instance result_bind : MBind result := λ A B f r,
  match r with
  | Ok a => f a
  | Raise e => Raise e
  end.

(** A method body: it runs on a state and leaves a result and a state. *)
Definition M (S A : Type) : Type := S → result A * S.

#[global] Instance M_ret {S} : MRet (M S) := λ A a s, (Ok a, s).
#[global] Instance M_bind {S} : MBind (M S) := λ A B f m s,
  match m s with
  | (Ok a, s') => f a s'
  | (Raise e, s') => (Raise e, s')
  end.

Definition get {S} : M S S := λ s, (Ok s, s).
Definition modify {S} (f : S → S) : M S unit := λ s, (Ok tt, f s).
(** A computation that reads but cannot write the state. *)
Definition lift {S A} (r : result A) : M S A := λ s, (r, s).

(** [for x in l: body x] *)
Fixpoint for_ {S A} (l : list A) (body : A → M S unit) : M S unit :=
  match l with
  | [] => mret tt
  | x :: l' => body x ≫= λ _, for_ l' body
  end.

(** [mapM] for results, left to right, stopping at the first exception. *)
Fixpoint traverse {A B} (f : A → result B) (l : list A) : result (list B) :=
  match l with
  | [] => Ok []
  | x :: l' => y ← f x; ys ← traverse f l'; Ok (y :: ys)
  end.

(** ** Dictionaries in insertion order *)

Definition dict (V : Type) : Type := list (string * V).

(** [d[k]], raising KeyError *)
Fixpoint dict_get {V} (d : dict V) (k : string) : result V :=
  match d with
  | [] => Raise KeyError
  | (k', v) :: d' => if decide (k' = k) then Ok v else dict_get d' k
  end.

(** [d[k] = v]: an existing key keeps its place, a new one goes last. *)
Fixpoint dict_set {V} (d : dict V) (k : string) (v : V) : dict V :=
  match d with
  | [] => [(k, v)]
  | (k', v') :: d' =>
      if decide (k' = k) then (k, v) :: d' else (k', v') :: dict_set d' k v
  end.

Definition keys {V} (d : dict V) : list string := d.*1.

(** ** Index and mask operations of torch on 1-D tensors *)

(** [l[idx]] with an index tensor: gathers, IndexError out of range. *)
Definition index {A} (l : list A) (idx : list nat) : result (list A) :=
  traverse (λ i, from_option Ok (Raise IndexError) (l !! i)) idx.

(** [l[idx] = vals] with an index tensor, every index within [l]: the
    values are written in the order of the indices (a later write to the
    same place wins here; torch leaves the winner open when an index
    repeats). *)
Fixpoint scatter {A} (l : list A) (idx : list nat) (vals : list A) : list A :=
  match idx, vals with
  | i :: idx', v :: vals' => scatter (<[i:=v]> l) idx' vals'
  | _, _ => l
  end.

(** The write itself, in place: it goes through the indices in order and
    stops with IndexError at the first one out of range; what it has
    written by then stays written. *)
Fixpoint index_put_loop {A} (idx : list nat) (vals : list A) (l : list A)
  : result unit * list A :=
  match idx, vals with
  | i :: idx', v :: vals' =>
      if decide (i < length l) then index_put_loop idx' vals' (<[i:=v]> l)
      else (Raise IndexError, l)
  | _, _ => (Ok tt, l)
  end.

(** [l[idx] = vals] with an index tensor, in place: the outcome and the
    tensor left behind.  The shapes are compared before anything is
    written. *)
Definition index_put {A} (idx : list nat) (vals : list A) (l : list A)
  : result unit * list A :=
  if decide (length vals = length idx) then index_put_loop idx vals l
  else (Raise RuntimeError, l).

(** [l[idx] = v] with a scalar [v] *)
Definition index_fill {A} (idx : list nat) (v : A) (l : list A)
  : result unit * list A :=
  index_put idx (replicate (length idx) v) l.

(** [l[mask]] with a boolean mask of the same length *)
Fixpoint select {A} (l : list A) (mask : list bool) : list A :=
  match l, mask with
  | x :: l', b :: mask' =>
      if b then x :: select l' mask' else select l' mask'
  | _, _ => []
  end.

Definition mask_select {A} (l : list A) (mask : list bool) : result (list A) :=
  if decide (length mask = length l) then Ok (select l mask)
  else Raise IndexError.

(** The places of [l] where [mask] holds take the values [vals] in order. *)
Fixpoint mask_scatter {A} (l : list A) (mask : list bool) (vals : list A)
  : list A :=
  match l, mask with
  | x :: l', true :: mask' =>
      match vals with
      | v :: vals' => v :: mask_scatter l' mask' vals'
      | [] => x :: mask_scatter l' mask' []
      end
  | x :: l', false :: mask' => x :: mask_scatter l' mask' vals
  | _, _ => l
  end.

(** Broadcasting along one dimension: the size agrees, or it is 1. *)
Definition expand {A} (n : nat) (l : list A) : result (list A) :=
  if decide (length l = n) then Ok l
  else match l with
       | [x] => Ok (replicate n x)
       | _ => Raise RuntimeError
       end.

(** [torch.arange(n)] *)
Definition arange (n : nat) : list nat := seq 0 n.

(** [l[:stop]] of Python: a negative stop counts from the end. *)
Definition slice_to {A} (stop : Z) (l : list A) : list A :=
  if decide (0 ≤ stop)%Z then take (Z.to_nat stop) l
  else take (length l - Z.to_nat (- stop)) l.

(** [int(a / b)] on Python integers: true division gives the float nearest
    to the quotient, [int] truncates it toward zero.  For [|a| < 2^53] (any
    [b]) the result is the integer quotient truncated toward zero, which is
    what the model takes; from 2^53 on the float quotient is rounded to 53
    bits and can differ from it in the low bits.  Byte counts of device
    memory are far below 2^53 (8 PiB); a property that depends on the exact
    value of the quotient is stated for that range. *)
Definition int_div (a b : Z) : result Z :=
  if decide (b = 0)%Z then Raise ZeroDivisionError else Ok (a ÷ b)%Z.

(** [functools.reduce] over a list, in the result monad *)
Fixpoint foldM {A B} (f : B → A → result B) (b : B) (l : list A) : result B :=
  match l with
  | [] => Ok b
  | x :: l' => b' ← f b x; foldM f b' l'
  end.

(** A stable descending argsort (equal keys by ascending index), one of the
    orders [torch.argsort] may return; used to run the model. *)
Fixpoint insert_desc (deg : nat → nat) (i : nat) (l : list nat) : list nat :=
  match l with
  | [] => [i]
  | j :: l' =>
      if decide (deg j ≤ deg i) then i :: j :: l'
      else j :: insert_desc deg i l'
  end.

Definition stable_argsort (keys : list nat) : list nat :=
  foldr (insert_desc (λ i, keys !!! i)) [] (seq 0 (length keys)).

Section Storage.

(** The type of one feature value (a float32 in the source). *)
Variable elem : Type.

(** [torch.argsort(_, descending=True)].  torch leaves the order of equal
    keys open; the development assumes a sorting permutation only. *)
Variable argsort_descending : list nat → list nat.

(** ** 2-D tensors *)

Record Tensor : Type := mkTensor {
  size1 : nat;                (* [t.size(1)] *)
  rows : list (list elem)
}.

(** [t.size(0)] *)
Definition size0 (t : Tensor) : nat := length (rows t).

(** [t[idx]] with an index tensor: a new tensor of the gathered rows *)
Definition tensor_index (t : Tensor) (idx : list nat) : result Tensor :=
  rs ← index (rows t) idx; Ok (mkTensor (size1 t) rs).

(** [t.cuda(gpuid)]: a copy on the device, the values are the same *)
Definition cuda (t : Tensor) : Tensor := t.

(** The value tensor [src] broadcast to the shape [k, d] *)
Definition broadcast_to (k d : nat) (src : Tensor) : result (list (list elem)) :=
  rs ← expand k (rows src);
  if decide (size1 src = d) then Ok rs
  else if decide (size1 src = 1) then traverse (expand d) rs
  else Raise RuntimeError.

(** [t[mask] = src] with a boolean mask over the rows, in place *)
Definition mask_put (t : Tensor) (mask : list bool) (src : Tensor)
  : result Tensor :=
  if decide (length mask = size0 t) then
    vals ← broadcast_to (length (select mask mask)) (size1 t) src;
    Ok (mkTensor (size1 t) (mask_scatter (rows t) mask vals))
  else Raise IndexError.

(** ** The device, the local graph and the server object *)

(** What the methods read from [torch.cuda] for the device [gpuid]. *)
Record Device : Type := mkDevice {
  total_memory : Z;           (* [get_device_properties(gpuid).total_memory] *)
  max_memory_allocated : Z;   (* [torch.cuda.max_memory_allocated(gpuid)] *)
  fresh : nat → nat → elem    (* what a newly allocated tensor holds *)
}.

(** [torch.cuda.FloatTensor(n, d)]: allocated, not initialised *)
Definition FloatTensor (dev : Device) (n d : nat) : Tensor :=
  mkTensor d (map (λ i, map (fresh dev i) (seq 0 d)) (seq 0 n)).

Record DGLGraph : Type := mkDGLGraph {
  out_degrees : list nat
}.

Record GraphCacheServer : Type := mkServer {
  graph : dict Tensor;        (* [graph._node_frame]: column per field,
                                 rows by node id of the full graph *)
  gpuid : Device;
  node_num : nat;
  nid_map : list nat;
  cpu_flag : list bool;
  gpu_flag : list bool;
  cached_num : nat;
  capability : Z;
  full_cached : bool;
  dims : dict nat;
  total_dim : nat;
  gpu_fix_cache : dict Tensor;
  localid2cacheid : list nat
}.

Definition set_graph (v : dict Tensor) (s : GraphCacheServer) :=
  mkServer v (gpuid s) (node_num s) (nid_map s) (cpu_flag s) (gpu_flag s)
    (cached_num s) (capability s) (full_cached s) (dims s) (total_dim s)
    (gpu_fix_cache s) (localid2cacheid s).
Definition set_cpu_flag (v : list bool) (s : GraphCacheServer) :=
  mkServer (graph s) (gpuid s) (node_num s) (nid_map s) v (gpu_flag s)
    (cached_num s) (capability s) (full_cached s) (dims s) (total_dim s)
    (gpu_fix_cache s) (localid2cacheid s).
Definition set_gpu_flag (v : list bool) (s : GraphCacheServer) :=
  mkServer (graph s) (gpuid s) (node_num s) (nid_map s) (cpu_flag s) v
    (cached_num s) (capability s) (full_cached s) (dims s) (total_dim s)
    (gpu_fix_cache s) (localid2cacheid s).
Definition set_cached_num (v : nat) (s : GraphCacheServer) :=
  mkServer (graph s) (gpuid s) (node_num s) (nid_map s) (cpu_flag s)
    (gpu_flag s) v (capability s) (full_cached s) (dims s) (total_dim s)
    (gpu_fix_cache s) (localid2cacheid s).
Definition set_capability (v : Z) (s : GraphCacheServer) :=
  mkServer (graph s) (gpuid s) (node_num s) (nid_map s) (cpu_flag s)
    (gpu_flag s) (cached_num s) v (full_cached s) (dims s) (total_dim s)
    (gpu_fix_cache s) (localid2cacheid s).
Definition set_full_cached (v : bool) (s : GraphCacheServer) :=
  mkServer (graph s) (gpuid s) (node_num s) (nid_map s) (cpu_flag s)
    (gpu_flag s) (cached_num s) (capability s) v (dims s) (total_dim s)
    (gpu_fix_cache s) (localid2cacheid s).
Definition set_dims (v : dict nat) (s : GraphCacheServer) :=
  mkServer (graph s) (gpuid s) (node_num s) (nid_map s) (cpu_flag s)
    (gpu_flag s) (cached_num s) (capability s) (full_cached s) v (total_dim s)
    (gpu_fix_cache s) (localid2cacheid s).
Definition set_total_dim (v : nat) (s : GraphCacheServer) :=
  mkServer (graph s) (gpuid s) (node_num s) (nid_map s) (cpu_flag s)
    (gpu_flag s) (cached_num s) (capability s) (full_cached s) (dims s) v
    (gpu_fix_cache s) (localid2cacheid s).
Definition set_gpu_fix_cache (v : dict Tensor) (s : GraphCacheServer) :=
  mkServer (graph s) (gpuid s) (node_num s) (nid_map s) (cpu_flag s)
    (gpu_flag s) (cached_num s) (capability s) (full_cached s) (dims s)
    (total_dim s) v (localid2cacheid s).
Definition set_localid2cacheid (v : list nat) (s : GraphCacheServer) :=
  mkServer (graph s) (gpuid s) (node_num s) (nid_map s) (cpu_flag s)
    (gpu_flag s) (cached_num s) (capability s) (full_cached s) (dims s)
    (total_dim s) (gpu_fix_cache s) v.

(** An in-place operation on an attribute of [self]: the attribute holds
    what the operation leaves, also when the operation raises. *)
Definition on_attr {A} (attr : GraphCacheServer → A)
    (set_attr : A → GraphCacheServer → GraphCacheServer)
    (op : A → result unit * A) : M GraphCacheServer unit :=
  λ self, let (r, a) := op (attr self) in (r, set_attr a self).

(** ** The methods of [GraphCacheServer] *)

Definition __init__ (graph : dict Tensor) (node_num : nat)
    (nid_map : list nat) (gpuid : Device) : GraphCacheServer :=
  {| graph := graph;
     gpuid := gpuid;
     node_num := node_num;
     nid_map := nid_map;
     cpu_flag := replicate node_num true;
     gpu_flag := replicate node_num false;
     cached_num := 0;
     capability := Z.of_nat node_num;
     full_cached := false;
     dims := [];
     total_dim := 0;
     gpu_fix_cache := [];
     localid2cacheid := replicate node_num 0 |}.

(** [get_feat_from_server]: reads [self] only.  The frame of the store
    selects the rows column by column, when the column is asked for. *)
Definition get_feat_from_server (self : GraphCacheServer) (nids : list nat)
    (embed_names : list string) (to_gpu : bool) : result (dict Tensor) :=
  nids_in_full ← index (nid_map self) nids;
  foldM (λ data_frame name,
           col ← dict_get (graph self) name;
           t ← tensor_index col nids_in_full;
           Ok (dict_set data_frame name (if to_gpu then cuda t else t)))
        [] embed_names.

Definition init_field (embed_names : list string) : M GraphCacheServer unit :=
  let nid := [0] in
  self ← get;
  feats ← lift (get_feat_from_server self nid embed_names false);
  modify (set_total_dim 0);;
  for_ embed_names (λ name,
    t ← lift (dict_get feats name);
    modify (λ self, set_dims (dict_set (dims self) name (size1 t)) self);;
    modify (λ self, set_total_dim (total_dim self + size1 t) self)).

Definition cache_fix_data (nids : list nat) (data : dict Tensor)
    (is_full : bool) : M GraphCacheServer unit :=
  let rows := length nids in
  on_attr localid2cacheid set_localid2cacheid
    (index_put nids (arange rows));;
  modify (set_cached_num rows);;
  for_ data (λ '(name, t),
    let data_rows := size0 t in
    (if decide (rows = data_rows) then mret tt else lift (Raise AssertionError));;
    modify (λ self, set_dims (dict_set (dims self) name (size1 t)) self);;
    modify (λ self,
      set_gpu_fix_cache (dict_set (gpu_fix_cache self) name (cuda t)) self));;
  (* setup flags *)
  on_attr cpu_flag set_cpu_flag (index_fill nids false);;
  on_attr gpu_flag set_gpu_flag (index_fill nids true);;
  modify (set_full_cached is_full).

Definition auto_cache (dgl_g : DGLGraph) (embed_names : list string)
  : M GraphCacheServer unit :=
  self ← get;
  (* Step1: get available GPU memory *)
  let peak_allocated_mem := max_memory_allocated (gpuid self) in
  let total_mem := total_memory (gpuid self) in
  let available := (total_mem - peak_allocated_mem - 512 * 1024 * 1024)%Z in
  (* Step2: get capability *)
  cap ← lift (int_div available (Z.of_nat (total_dim self) * 4));
  modify (set_capability cap);;
  (* Step3: cache *)
  self ← get;
  if decide (capability self > Z.of_nat (node_num self))%Z then
    let full_nids := arange (node_num self) in
    data_frame ← lift (get_feat_from_server self full_nids embed_names false);
    cache_fix_data full_nids data_frame true
  else
    let sort_nid := argsort_descending (out_degrees dgl_g) in
    let cache_nid := slice_to (capability self) sort_nid in
    data_frame ← lift (get_feat_from_server self cache_nid embed_names false);
    cache_fix_data cache_nid data_frame false.

(** ** The nodeflow and the gather *)

Record NodeFlow : Type := mkNodeFlow {
  layers : list (list nat);          (* [layer_parent_nid(i)] for each layer *)
  _node_frames : list (dict Tensor)
}.

Definition num_layers (nf : NodeFlow) : nat := length (layers nf).

Definition layer_parent_nid (nf : NodeFlow) (i : nat) : result (list nat) :=
  from_option Ok (Raise IndexError) (layers nf !! i).

(** The state of a gather: the server and the nodeflow it is given. *)
Record World : Type := mkWorld {
  self_ : GraphCacheServer;
  nodeflow : NodeFlow
}.

(** [nodeflow._node_frames[i] = FrameRef(Frame(frame))] *)
Definition set_node_frame (i : nat) (frame : dict Tensor) : M World unit :=
  λ w,
    if decide (i < length (_node_frames (nodeflow w))) then
      (Ok tt, mkWorld (self_ w)
                (mkNodeFlow (layers (nodeflow w))
                            (<[i:=frame]> (_node_frames (nodeflow w)))))
    else (Raise IndexError, w).

(** The body of the loop of [fetch_from_cache], up to the frame. *)
Definition fetch_from_cache_layer (self : GraphCacheServer) (tnid : list nat)
  : result (dict Tensor) :=
  foldM (λ frame '(name, col),
           t ← tensor_index col tnid;
           Ok (dict_set frame name t))
        [] (gpu_fix_cache self).

Definition fetch_from_cache : M World unit :=
  w ← get;
  for_ (seq 0 (num_layers (nodeflow w))) (λ i,
    w ← get;
    tnid ← lift (layer_parent_nid (nodeflow w) i);
    frame ← lift (fetch_from_cache_layer (self_ w) tnid);
    set_node_frame i frame).

(** The body of the loop of [fetch_data], up to the frame. *)
Definition fetch_data_layer (self : GraphCacheServer) (tnid : list nat)
  : result (dict Tensor) :=
  (* get nids *)
  gpu_mask ← index (gpu_flag self) tnid;
  nids_in_gpu ← mask_select tnid gpu_mask;
  cpu_mask ← index (cpu_flag self) tnid;
  nids_in_cpu ← mask_select tnid cpu_mask;
  (* create frame *)
  let frame :=
    map (λ '(name, d), (name, FloatTensor (gpuid self) (length tnid) d))
        (dims self) in
  (* for gpu cached tensors *)
  frame ←
    (if decide (length nids_in_gpu ≠ 0) then
       foldM (λ frame name,
                cacheid ← index (localid2cacheid self) nids_in_gpu;
                col ← dict_get (gpu_fix_cache self) name;
                src ← tensor_index col cacheid;
                t ← dict_get frame name;
                t' ← mask_put t gpu_mask src;
                Ok (dict_set frame name t'))
             frame (keys (dims self))
     else Ok frame);
  (* for cpu cached tensors *)
  if decide (length nids_in_cpu ≠ 0) then
    cpu_data_frame ←
      get_feat_from_server self nids_in_cpu (keys (dims self)) true;
    foldM (λ frame name,
             src ← dict_get cpu_data_frame name;
             t ← dict_get frame name;
             t' ← mask_put t cpu_mask src;
             Ok (dict_set frame name t'))
          frame (keys (dims self))
  else Ok frame.

(** The loop of [fetch_data] when the cache is not full. *)
Definition fetch_data_loop : M World unit :=
  w ← get;
  for_ (seq 0 (num_layers (nodeflow w))) (λ i,
    w ← get;
    tnid ← lift (layer_parent_nid (nodeflow w) i);
    frame ← lift (fetch_data_layer (self_ w) tnid);
    set_node_frame i frame).

Definition fetch_data : M World unit :=
  w ← get;
  if full_cached (self_ w) then fetch_from_cache
  else fetch_data_loop.

(** * Properties *)

(** ** Running the monads *)

Ltac munfold :=
  unfold mbind, mret, M_bind, M_ret, result_bind, result_ret,
    get, modify, lift, on_attr.

Lemma bind_Ok_inv {A B} (r : result A) (f : A → result B) (b : B) :
  r ≫= f = Ok b → ∃ a, r = Ok a ∧ f a = Ok b.
Proof. destruct r as [a|e]; simpl; [eauto | discriminate]. Qed.

Lemma for_invariant {S A} (P : S → Prop) (body : A → M S unit) (l : list A) :
  (∀ x s, P s → P (body x s).2) → ∀ s, P s → P (for_ l body s).2.
Proof.
  intros Hbody. induction l as [|x l IH]; intros s Hs; simpl; [done|].
  munfold. specialize (Hbody x s Hs).
  destruct (body x s) as [[[]|e] s1]; simpl in *; auto.
Qed.

(** ** Index tensors *)

Lemma traverse_Ok {A B} (f : A → result B) (g : A → B) (l : list A) :
  Forall (λ x, f x = Ok (g x)) l → traverse f l = Ok (map g l).
Proof.
  induction 1 as [|x l Hx _ IH]; simpl; [done|].
  rewrite Hx. simpl. rewrite IH. done.
Qed.

Lemma traverse_Ok_inv {A B} (f : A → result B) (l : list A) (l' : list B) :
  traverse f l = Ok l' → Forall2 (λ x y, f x = Ok y) l l'.
Proof.
  revert l'. induction l as [|x l IH]; intros l' H; simpl in H.
  - injection H as <-. constructor.
  - apply bind_Ok_inv in H as (y & Hy & H).
    apply bind_Ok_inv in H as (ys & Hys & H). injection H as <-.
    constructor; auto.
Qed.

Lemma index_Ok `{Inhabited A} (l : list A) (idx : list nat) :
  Forall (λ i, i < length l) idx → index l idx = Ok (map (λ i, l !!! i) idx).
Proof.
  intros Hidx. apply traverse_Ok. eapply Forall_impl; [exact Hidx|].
  intros i Hi. simpl. apply list_lookup_lookup_total_lt in Hi. by rewrite Hi.
Qed.

Lemma index_Ok_inv {A} (l : list A) (idx : list nat) (l' : list A) :
  index l idx = Ok l' → Forall2 (λ i y, l !! i = Some y) idx l'.
Proof.
  intros H. apply traverse_Ok_inv in H.
  eapply Forall2_impl; [exact H|]. intros i y. simpl.
  destruct (l !! i); simpl; congruence.
Qed.

Lemma index_Ok_bound {A} (l : list A) (idx : list nat) (l' : list A) :
  index l idx = Ok l' → Forall (λ i, i < length l) idx.
Proof.
  intros H%index_Ok_inv. induction H as [|i y idx l' Hi _ IH]; constructor; auto.
  by apply lookup_lt_Some in Hi.
Qed.

Lemma scatter_length {A} (l : list A) idx vals :
  length (scatter l idx vals) = length l.
Proof.
  revert l vals. induction idx as [|i idx IH]; intros l [|v vals]; simpl; auto.
  rewrite IH. apply length_insert.
Qed.

Lemma scatter_lookup_notin {A} (l : list A) idx vals (j : nat) :
  j ∉ idx → scatter l idx vals !! j = l !! j.
Proof.
  revert l vals. induction idx as [|i idx IH]; intros l [|v vals] Hj; simpl; auto.
  apply not_elem_of_cons in Hj as [Hne Hj].
  rewrite IH by done. by apply list_lookup_insert_ne.
Qed.

Lemma scatter_lookup {A} (l : list A) idx vals (i id : nat) :
  NoDup idx → Forall (λ j, j < length l) idx → length vals = length idx →
  idx !! i = Some id → scatter l idx vals !! id = vals !! i.
Proof.
  revert l vals i. induction idx as [|j idx IH]; intros l vals i Hnd Hb Hlen Hi.
  - done.
  - destruct vals as [|v vals]; [done|]. simpl in *.
    apply NoDup_cons in Hnd as [Hj Hnd]. apply Forall_cons in Hb as [Hjl Hb].
    destruct i as [|i]; simpl in *.
    + injection Hi as ->. rewrite scatter_lookup_notin by done.
      by apply list_lookup_insert_eq.
    + apply IH; auto.
      eapply Forall_impl; [exact Hb|]. intros k Hk. simpl. by rewrite length_insert.
Qed.

Lemma scatter_fmap {A B} (f : A → B) (l : list A) idx vals :
  f <$> scatter l idx vals = scatter (f <$> l) idx (f <$> vals).
Proof.
  revert l vals. induction idx as [|i idx IH]; intros l [|v vals]; simpl; auto.
  rewrite IH. by rewrite list_fmap_insert.
Qed.

(** The longest prefix of [idx] that is within [n]: the indices that a
    write gets through before it meets one out of range. *)
Fixpoint in_range (n : nat) (idx : list nat) : list nat :=
  match idx with
  | i :: idx' => if decide (i < n) then i :: in_range n idx' else []
  | [] => []
  end.

Lemma in_range_all n idx : Forall (λ i, i < n) idx → in_range n idx = idx.
Proof.
  induction 1 as [|i idx Hi _ IH]; simpl; [done|].
  rewrite decide_True by done. by rewrite IH.
Qed.

Lemma in_range_bound n idx : Forall (λ i, i < n) (in_range n idx).
Proof.
  induction idx as [|i idx IH]; simpl; [constructor|].
  case_decide; by constructor.
Qed.

Lemma index_put_loop_run {A} (idx : list nat) (vals l : list A) :
  length vals = length idx →
  index_put_loop idx vals l
  = (if decide (Forall (λ i, i < length l) idx) then Ok tt
     else Raise IndexError,
     scatter l (in_range (length l) idx) vals).
Proof.
  revert vals l. induction idx as [|i idx IH]; intros [|v vals] l Hlen;
    try done.
  simpl in *. destruct (decide (i < length l)) as [Hi|Hi].
  - rewrite IH by lia. rewrite length_insert. f_equal.
    destruct (decide (Forall (λ j, j < length l) idx)) as [Hb|Hb].
    + rewrite decide_True; [done|]. by constructor.
    + rewrite decide_False; [done|]. intros Hc. apply Hb.
      by apply Forall_cons in Hc as [_ ?].
  - rewrite decide_False; [done|]. intros Hc.
    by apply Forall_cons in Hc as [? _].
Qed.

Lemma index_put_Ok {A} (l : list A) idx vals :
  Forall (λ i, i < length l) idx → length vals = length idx →
  index_put idx vals l = (Ok tt, scatter l idx vals).
Proof.
  intros H1 H2. unfold index_put. rewrite decide_True by done.
  rewrite index_put_loop_run by done. rewrite decide_True by done.
  by rewrite in_range_all.
Qed.

Lemma index_put_IndexError {A} (l : list A) idx vals :
  ¬ Forall (λ i, i < length l) idx → length vals = length idx →
  index_put idx vals l
  = (Raise IndexError, scatter l (in_range (length l) idx) vals).
Proof.
  intros H1 H2. unfold index_put. rewrite decide_True by done.
  rewrite index_put_loop_run by done. by rewrite decide_False.
Qed.

Lemma index_put_Ok_inv {A} (l : list A) idx vals l' :
  index_put idx vals l = (Ok tt, l') →
  Forall (λ i, i < length l) idx ∧ length vals = length idx ∧
  l' = scatter l idx vals.
Proof.
  unfold index_put. case_decide; [|discriminate].
  rewrite index_put_loop_run by done. case_decide; [|discriminate].
  rewrite in_range_all by done. by intros [= <-].
Qed.

Lemma index_fill_Ok {A} (l : list A) idx (v : A) :
  Forall (λ i, i < length l) idx →
  index_fill idx v l = (Ok tt, scatter l idx (replicate (length idx) v)).
Proof. intros. apply index_put_Ok; [done|]. by rewrite length_replicate. Qed.

(** ** Population: [cache_fix_data] *)

(** The flags and the slot map have one entry per local node, and the two
    flags are complementary. *)
Definition partitioned (s : GraphCacheServer) : Prop :=
  length (gpu_flag s) = node_num s ∧
  length (localid2cacheid s) = node_num s ∧
  cpu_flag s = negb <$> gpu_flag s.

(** The fields that the loop over the fields of [data] leaves alone. *)
Definition untabled (s : GraphCacheServer) :=
  (graph s, gpuid s, node_num s, nid_map s, cpu_flag s, gpu_flag s,
   cached_num s, capability s, full_cached s, total_dim s, localid2cacheid s).

Definition rows_agree (n : nat) (data : dict Tensor) : Prop :=
  Forall (λ nt, n = size0 nt.2) data.

Definition dims_of (data : dict Tensor) (d : dict nat) : dict nat :=
  foldl (λ d nt, dict_set d nt.1 (size1 nt.2)) d data.

Definition cache_of (data : dict Tensor) (c : dict Tensor) : dict Tensor :=
  foldl (λ c nt, dict_set c nt.1 (cuda nt.2)) c data.

#[local] Instance rows_agree_dec n data : Decision (rows_agree n data).
Proof. unfold rows_agree. apply _. Defined.

Lemma cache_loop_run (n : nat) (data : dict Tensor) (s : GraphCacheServer) :
  ∃ s2,
    for_ data (λ '(name, t),
      let data_rows := size0 t in
      (if decide (n = data_rows) then mret tt
       else lift (Raise AssertionError));;
      modify (λ self, set_dims (dict_set (dims self) name (size1 t)) self);;
      modify (λ self,
        set_gpu_fix_cache (dict_set (gpu_fix_cache self) name (cuda t)) self)) s
    = (if decide (rows_agree n data) then Ok tt else Raise AssertionError, s2) ∧
    untabled s2 = untabled s ∧
    (rows_agree n data →
       dims s2 = dims_of data (dims s) ∧
       gpu_fix_cache s2 = cache_of data (gpu_fix_cache s)).
Proof.
  remember (λ '(name, t), _) as body eqn:Hbody.
  assert (Hstep : ∀ name t s, body (name, t) s =
    if decide (n = size0 t)
    then (Ok tt, set_gpu_fix_cache (dict_set (gpu_fix_cache s) name (cuda t))
                   (set_dims (dict_set (dims s) name (size1 t)) s))
    else (Raise AssertionError, s)).
  { intros name t s0. subst body. munfold. by case_decide. }
  clear Hbody. revert s. induction data as [|[name t] data IH]; intros s.
  - exists s. rewrite decide_True by constructor. done.
  - cbn [for_]. munfold. rewrite Hstep.
    destruct (decide (n = size0 t)) as [Hn|Hn].
    + destruct (IH (set_gpu_fix_cache
                      (dict_set (gpu_fix_cache s) name (cuda t))
                      (set_dims (dict_set (dims s) name (size1 t)) s)))
        as (s2 & Hrun & Hunt & Htab).
      exists s2. rewrite Hrun. split; [|split].
      * destruct (decide (rows_agree n data)) as [Hd|Hd].
        -- rewrite decide_True; [done|]. by constructor.
        -- rewrite decide_False; [done|]. intros Hc. apply Hd.
           by apply Forall_cons in Hc as [_ ?].
      * by rewrite Hunt.
      * intros Hc. apply Forall_cons in Hc as [_ Hc]. by apply Htab.
    + exists s. rewrite decide_False.
      * split; [done|]. split; [done|]. intros Hc.
        by apply Forall_cons in Hc as [? _].
      * intros Hc. by apply Forall_cons in Hc as [? _].
Qed.

Ltac run_cache_loop n s2 Hrun Hunt Htab :=
  match goal with
  | |- context [for_ ?data ?body ?s1] =>
      destruct (cache_loop_run n data s1)
        as (s2 & Hrun & Hunt & Htab);
      match type of Hrun with
      | _ = ?rhs => change (for_ data body s1 = rhs) in Hrun
      end
  end.

(** The state that a successful population leaves. *)
Definition populated (nids : list nat) (data : dict Tensor) (is_full : bool)
    (s : GraphCacheServer) : GraphCacheServer :=
  mkServer (graph s) (gpuid s) (node_num s) (nid_map s)
    (scatter (cpu_flag s) nids (replicate (length nids) false))
    (scatter (gpu_flag s) nids (replicate (length nids) true))
    (length nids) (capability s) is_full
    (dims_of data (dims s)) (total_dim s)
    (cache_of data (gpu_fix_cache s))
    (scatter (localid2cacheid s) nids (arange (length nids))).

Lemma length_arange n : length (arange n) = n.
Proof. apply length_seq. Qed.

(** The state that a population leaves when it meets an id out of range:
    the slots of the ids before that id are written, nothing else is. *)
Definition slots_begun (nids : list nat) (s : GraphCacheServer)
  : GraphCacheServer :=
  set_localid2cacheid
    (scatter (localid2cacheid s)
       (in_range (length (localid2cacheid s)) nids) (arange (length nids))) s.

Lemma cache_fix_data_IndexError nids data is_full s :
  ¬ Forall (λ i, i < length (localid2cacheid s)) nids →
  cache_fix_data nids data is_full s = (Raise IndexError, slots_begun nids s).
Proof.
  intros Hb. unfold cache_fix_data. munfold.
  by rewrite index_put_IndexError by (done || apply length_arange).
Qed.

Lemma cache_fix_data_AssertionError nids data is_full s :
  Forall (λ i, i < length (localid2cacheid s)) nids →
  ¬ rows_agree (length nids) data →
  ∃ s2, cache_fix_data nids data is_full s = (Raise AssertionError, s2) ∧
        node_num s2 = node_num s ∧ cpu_flag s2 = cpu_flag s ∧
        gpu_flag s2 = gpu_flag s ∧
        localid2cacheid s2 =
          scatter (localid2cacheid s) nids (arange (length nids)).
Proof.
  intros Hb Hd. unfold cache_fix_data. munfold.
  rewrite index_put_Ok by (done || apply length_arange).
  run_cache_loop (length nids) s2 Hrun Hunt Htab. clear Htab.
  rewrite Hrun. rewrite decide_False by done.
  exists s2. split; [done|]. unfold untabled in Hunt. simpl in Hunt.
  by simplify_eq.
Qed.

Lemma cache_fix_data_Ok nids data is_full s :
  Forall (λ i, i < length (localid2cacheid s)) nids →
  Forall (λ i, i < length (cpu_flag s)) nids →
  Forall (λ i, i < length (gpu_flag s)) nids →
  rows_agree (length nids) data →
  cache_fix_data nids data is_full s = (Ok tt, populated nids data is_full s).
Proof.
  intros Hb Hc Hg Hd. unfold cache_fix_data. munfold.
  rewrite index_put_Ok by (done || apply length_arange).
  run_cache_loop (length nids) s2 Hrun Hunt Htab.
  rewrite Hrun. rewrite decide_True by done.
  destruct (Htab Hd) as [Hdims Hcache]. clear Htab Hrun.
  unfold untabled in Hunt. simpl in Hunt.
  destruct s2; simpl in *. simplify_eq.
  rewrite index_fill_Ok by done. simpl.
  rewrite index_fill_Ok by done. simpl.
  done.
Qed.

(** Every way out of [cache_fix_data] under [partitioned]. *)
Lemma cache_fix_data_cases nids data is_full s :
  partitioned s →
  (¬ Forall (λ i, i < node_num s) nids ∧
     cache_fix_data nids data is_full s
     = (Raise IndexError, slots_begun nids s)) ∨
  (Forall (λ i, i < node_num s) nids ∧ ¬ rows_agree (length nids) data ∧
     ∃ s2, cache_fix_data nids data is_full s = (Raise AssertionError, s2) ∧
           node_num s2 = node_num s ∧ cpu_flag s2 = cpu_flag s ∧
           gpu_flag s2 = gpu_flag s ∧
           localid2cacheid s2 =
             scatter (localid2cacheid s) nids (arange (length nids))) ∨
  (Forall (λ i, i < node_num s) nids ∧ rows_agree (length nids) data ∧
     cache_fix_data nids data is_full s = (Ok tt, populated nids data is_full s)).
Proof.
  intros (Hg & Hl & Hc).
  destruct (decide (Forall (λ i, i < node_num s) nids)) as [Hb|Hb].
  - right. destruct (decide (rows_agree (length nids) data)) as [Hd|Hd].
    + right. split; [done|]. split; [done|].
      apply cache_fix_data_Ok; rewrite ?Hc, ?length_fmap, ?Hg, ?Hl; done.
    + left. split; [done|]. split; [done|].
      apply cache_fix_data_AssertionError; rewrite ?Hl; done.
  - left. split; [done|]. apply cache_fix_data_IndexError. by rewrite Hl.
Qed.

Lemma populated_partitioned nids data is_full s :
  partitioned s → partitioned (populated nids data is_full s).
Proof.
  intros (Hg & Hl & Hc). unfold partitioned. simpl.
  rewrite !scatter_length. split; [done|]. split; [done|].
  rewrite Hc, scatter_fmap. f_equal. by rewrite fmap_replicate.
Qed.

Lemma cache_fix_data_partitioned nids data is_full s :
  partitioned s → partitioned (cache_fix_data nids data is_full s).2.
Proof.
  intros Hp.
  destruct (cache_fix_data_cases nids data is_full s Hp)
    as [[_ ->]|[(_ & _ & s2 & -> & Hn & Hc & Hg & Hl)|(_ & _ & ->)]]; simpl.
  - destruct Hp as (Hg' & Hl' & Hc'). unfold partitioned. simpl.
    by rewrite scatter_length.
  - destruct Hp as (Hg' & Hl' & Hc'). unfold partitioned.
    rewrite Hn, Hc, Hg, Hl, scatter_length. done.
  - by apply populated_partitioned.
Qed.

(** ** What each method leaves alone *)

Definition flags_of (s : GraphCacheServer) :=
  (node_num s, cpu_flag s, gpu_flag s, localid2cacheid s).

Lemma partitioned_flags s s' :
  flags_of s' = flags_of s → partitioned s → partitioned s'.
Proof.
  unfold flags_of, partitioned. intros [= -> -> -> ->]. done.
Qed.

Lemma init_field_flags embed_names s :
  flags_of (init_field embed_names s).2 = flags_of s.
Proof.
  unfold init_field. munfold.
  destruct (get_feat_from_server s [0] embed_names false) as [feats|e]; [|done].
  apply (for_invariant (λ s', flags_of s' = flags_of s)); [|done].
  intros name s' Hs'. destruct (dict_get feats name); simpl; done.
Qed.

Lemma auto_cache_partitioned dgl_g embed_names s :
  partitioned s → partitioned (auto_cache dgl_g embed_names s).2.
Proof.
  intros Hp. unfold auto_cache. munfold.
  destruct (int_div _ _) as [cap|e]; [|done]. simpl.
  assert (Hp1 : partitioned (set_capability cap s)) by exact Hp.
  case_decide.
  - destruct (get_feat_from_server _ _ _ _); [|done].
    by apply cache_fix_data_partitioned.
  - destruct (get_feat_from_server _ _ _ _); [|done].
    by apply cache_fix_data_partitioned.
Qed.

Lemma set_node_frame_self i frame w :
  self_ (set_node_frame i frame w).2 = self_ w ∧
  layers (nodeflow (set_node_frame i frame w).2) = layers (nodeflow w) ∧
  length (_node_frames (nodeflow (set_node_frame i frame w).2)) =
    length (_node_frames (nodeflow w)).
Proof.
  unfold set_node_frame. case_decide; simpl; [|done].
  by rewrite length_insert.
Qed.

(** What a gather keeps: the server, the requested ids, the number of
    frames. *)
Definition kept (w : World) :=
  (self_ w, layers (nodeflow w), length (_node_frames (nodeflow w))).

Lemma gather_loop_kept (layer : GraphCacheServer → list nat → result (dict Tensor))
    (l : list nat) (w : World) :
  kept (for_ l (λ i,
          w ← get;
          tnid ← lift (layer_parent_nid (nodeflow w) i);
          frame ← lift (layer (self_ w) tnid);
          set_node_frame i frame) w).2 = kept w.
Proof.
  apply (for_invariant (λ w', kept w' = kept w)); [|done].
  intros i w' <-. munfold.
  destruct (layer_parent_nid _ _) as [tnid|]; [|done].
  destruct (layer _ _) as [frame|]; [|done].
  unfold kept.
  match goal with |- context [set_node_frame i ?fr w'] =>
    destruct (set_node_frame_self i fr w') as (-> & -> & ->)
  end. done.
Qed.

Lemma fetch_from_cache_kept w : kept (fetch_from_cache w).2 = kept w.
Proof. apply gather_loop_kept. Qed.

Lemma fetch_data_kept w : kept (fetch_data w).2 = kept w.
Proof.
  unfold fetch_data. munfold. destruct (full_cached (self_ w)).
  - apply fetch_from_cache_kept.
  - apply (gather_loop_kept fetch_data_layer).
Qed.

(** ** The states of a server *)

(** One call of a method, whatever its arguments and however it ends. *)
Inductive step : GraphCacheServer → GraphCacheServer → Prop :=
  | step_init_field embed_names s :
      step s (init_field embed_names s).2
  | step_cache_fix_data nids data is_full s :
      step s (cache_fix_data nids data is_full s).2
  | step_auto_cache dgl_g embed_names s :
      step s (auto_cache dgl_g embed_names s).2
  | step_fetch_data nf s :
      step s (self_ (fetch_data (mkWorld s nf)).2).

Inductive reachable : GraphCacheServer → Prop :=
  | reachable_init graph node_num nid_map gpuid :
      reachable (__init__ graph node_num nid_map gpuid)
  | reachable_step s s' :
      reachable s → step s s' → reachable s'.

Lemma init_partitioned graph node_num nid_map gpuid :
  partitioned (__init__ graph node_num nid_map gpuid).
Proof.
  unfold partitioned. simpl. rewrite !length_replicate.
  by rewrite fmap_replicate.
Qed.

Lemma step_partitioned s s' : step s s' → partitioned s → partitioned s'.
Proof.
  destruct 1; intros Hp.
  - eapply partitioned_flags; [apply init_field_flags | done].
  - by apply cache_fix_data_partitioned.
  - by apply auto_cache_partitioned.
  - pose proof (fetch_data_kept (mkWorld s nf)) as Hk.
    unfold kept in Hk. simpl in Hk. by injection Hk as -> _ _.
Qed.

Lemma reachable_partitioned s : reachable s → partitioned s.
Proof.
  induction 1 as [| s s' _ IH Hstep].
  - apply init_partitioned.
  - by eapply step_partitioned.
Qed.

Lemma partitioned_lookup s id :
  partitioned s → id < node_num s →
  (gpu_flag s !! id = Some true ∧ cpu_flag s !! id = Some false) ∨
  (gpu_flag s !! id = Some false ∧ cpu_flag s !! id = Some true).
Proof.
  intros (Hg & _ & Hc) Hid. rewrite Hc, list_lookup_fmap.
  rewrite <- Hg in Hid. apply lookup_lt_is_Some in Hid as [[] ->]; simpl; auto.
Qed.

(** ** Dictionaries *)

Lemma dict_get_set_eq {V} (d : dict V) k v : dict_get (dict_set d k v) k = Ok v.
Proof.
  induction d as [|[k' v'] d IH]; simpl.
  - by rewrite decide_True.
  - case_decide; simpl.
    + by rewrite decide_True.
    + by rewrite decide_False.
Qed.

Lemma dict_get_set_ne {V} (d : dict V) k k' v :
  k ≠ k' → dict_get (dict_set d k v) k' = dict_get d k'.
Proof.
  intros Hne. induction d as [|[k0 v0] d IH]; simpl.
  - by rewrite decide_False.
  - destruct (decide (k0 = k)) as [->|Hk0]; simpl.
    + by rewrite !decide_False.
    + case_decide; done.
Qed.

Lemma dict_get_Ok_keys {V} (d : dict V) k v : dict_get d k = Ok v → k ∈ keys d.
Proof.
  unfold keys. induction d as [|[k' v'] d IH]; simpl; [discriminate|].
  case_decide; [subst; left | right; auto].
Qed.

Lemma dict_get_keys {V} (d : dict V) k : k ∈ keys d → ∃ v, dict_get d k = Ok v.
Proof.
  unfold keys. induction d as [|[k' v'] d IH]; simpl; intros Hk.
  - by apply elem_of_nil in Hk.
  - case_decide; [eauto|]. apply IH.
    apply elem_of_cons in Hk as [->|Hk]; done.
Qed.

Lemma dict_get_elem_of {V} (d : dict V) k v : dict_get d k = Ok v → (k, v) ∈ d.
Proof.
  induction d as [|[k' v'] d IH]; simpl; [discriminate|].
  case_decide; [intros [= ->]; subst; left | right; auto].
Qed.

(** [for k, v in data: d[k] = f(v)] *)
Definition dict_update {V W} (f : V → W) (data : dict V) (d : dict W) : dict W :=
  foldl (λ d nt, dict_set d nt.1 (f nt.2)) d data.

Lemma dict_update_notin {V W} (f : V → W) data d k :
  k ∉ keys data → dict_get (dict_update f data d) k = dict_get d k.
Proof.
  unfold keys. revert d. induction data as [|[k' v'] data IH]; intros d Hk; [done|].
  simpl in *. apply not_elem_of_cons in Hk as [Hne Hk].
  unfold dict_update in *. simpl. rewrite IH by done.
  by apply dict_get_set_ne.
Qed.

Lemma dict_update_get {V W} (f : V → W) data d k v :
  NoDup (keys data) → dict_get data k = Ok v →
  dict_get (dict_update f data d) k = Ok (f v).
Proof.
  unfold keys. revert d. induction data as [|[k' v'] data IH]; intros d Hnd Hk.
  - discriminate.
  - simpl in *. apply NoDup_cons in Hnd as [Hk' Hnd].
    destruct (decide (k' = k)) as [->|Hne].
    + injection Hk as ->.
      change (dict_get (dict_update f data (dict_set d k (f v))) k = Ok (f v)).
      rewrite dict_update_notin by done. apply dict_get_set_eq.
    + by apply IH.
Qed.

Lemma dims_of_eq data d : dims_of data d = dict_update size1 data d.
Proof. done. Qed.

Lemma cache_of_eq data c : cache_of data c = dict_update cuda data c.
Proof. done. Qed.

(** ** Successful population *)

Lemma index_Ok_Forall2 {A} (l : list A) (idx : list nat) (l' : list A) :
  Forall2 (λ i y, l !! i = Some y) idx l' → index l idx = Ok l'.
Proof.
  unfold index. induction 1 as [|i y idx l' Hi _ IH]; simpl; [done|].
  rewrite Hi. simpl. by rewrite IH.
Qed.

Lemma cache_fix_data_Ok_inv nids data is_full s s' :
  cache_fix_data nids data is_full s = (Ok tt, s') →
  Forall (λ i, i < length (localid2cacheid s)) nids ∧
  rows_agree (length nids) data ∧
  s' = populated nids data is_full s.
Proof.
  intros Hrun.
  destruct (decide (Forall (λ i, i < length (localid2cacheid s)) nids)) as [Hb|Hb].
  2:{ rewrite cache_fix_data_IndexError in Hrun by done. discriminate. }
  destruct (decide (rows_agree (length nids) data)) as [Hd|Hd].
  2:{ destruct (cache_fix_data_AssertionError nids data is_full s Hb Hd)
        as (s2 & Hs2 & _). rewrite Hs2 in Hrun. discriminate. }
  split; [done|]. split; [done|].
  revert Hrun. unfold cache_fix_data. munfold.
  rewrite index_put_Ok by (done || apply length_arange).
  run_cache_loop (length nids) s2 Hrun Hunt Htab.
  rewrite Hrun. rewrite decide_True by done.
  destruct (Htab Hd) as [Hdims Hcache]. clear Htab Hrun.
  unfold untabled in Hunt. simpl in Hunt.
  destruct s2; simpl in *. simplify_eq.
  destruct (index_fill nids false _) as [[[]|e] cf] eqn:Hcf; [|discriminate].
  apply index_put_Ok_inv in Hcf as (_ & _ & ->). simpl.
  destruct (index_fill nids true _) as [[[]|e] gf] eqn:Hgf; [|discriminate].
  apply index_put_Ok_inv in Hgf as (_ & _ & ->). simpl.
  by intros [= <-].
Qed.

Lemma cache_fix_data_Ok_bounds nids data is_full s s' :
  cache_fix_data nids data is_full s = (Ok tt, s') →
  Forall (λ i, i < length (cpu_flag s)) nids ∧
  Forall (λ i, i < length (gpu_flag s)) nids.
Proof.
  intros Hrun.
  pose proof (cache_fix_data_Ok_inv _ _ _ _ _ Hrun) as (Hb & Hd & _).
  revert Hrun. unfold cache_fix_data. munfold.
  rewrite index_put_Ok by (done || apply length_arange).
  run_cache_loop (length nids) s2 Hrun Hunt Htab. clear Htab.
  rewrite Hrun. rewrite decide_True by done.
  unfold untabled in Hunt. simpl in Hunt.
  assert (Hcf : cpu_flag s2 = cpu_flag s) by congruence.
  assert (Hgf : gpu_flag s2 = gpu_flag s) by congruence.
  destruct (index_fill nids false (cpu_flag s2)) as [[[]|e] cf] eqn:Hcpu;
    [|discriminate].
  apply index_put_Ok_inv in Hcpu as (Hbc & _ & _). simpl.
  destruct (index_fill nids true _) as [[[]|e] gf] eqn:Hgpu; [|discriminate].
  apply index_put_Ok_inv in Hgpu as (Hbg & _ & _).
  intros _. by rewrite <- Hcf, <- Hgf.
Qed.

Lemma populated_slots nids data is_full s :
  NoDup nids → Forall (λ i, i < length (localid2cacheid s)) nids →
  index (localid2cacheid (populated nids data is_full s)) nids
  = Ok (arange (length nids)).
Proof.
  intros Hnd Hb. apply index_Ok_Forall2. simpl.
  apply Forall2_same_length_lookup. split; [by rewrite length_arange|].
  intros i id c Hid Hc.
  rewrite (scatter_lookup _ _ _ i) by (done || apply length_arange). done.
Qed.

(** ** The location flags, the slot map and the errors of population *)

(** C5. In every state that the methods can reach from construction
    ([init_field], [cache_fix_data], [auto_cache] and [fetch_data] with any
    arguments, also when they raise), every local id below [node_num] has
    exactly one of [gpu_flag] and [cpu_flag] set. *)
Theorem partition_invariant (s : GraphCacheServer) (id : nat) :
  reachable s → id < node_num s →
  (gpu_flag s !! id = Some true ∧ cpu_flag s !! id = Some false) ∨
  (gpu_flag s !! id = Some false ∧ cpu_flag s !! id = Some true).
Proof.
  intros Hr Hid. apply partitioned_lookup; [|done].
  by apply reachable_partitioned.
Qed.


(** C7. On a reachable state and ids of local nodes, [cache_fix_data] stops
    on its assertion exactly when some field of [data] has a row count
    other than [|ids|], and returns normally when every field has [|ids|]
    rows. *)
Theorem cache_fix_data_row_check (nids : list nat) (data : dict Tensor)
    (is_full : bool) (s : GraphCacheServer) :
  reachable s → Forall (λ i, i < node_num s) nids →
  ((cache_fix_data nids data is_full s).1 = Raise AssertionError ↔
     Exists (λ nt, size0 nt.2 ≠ length nids) data) ∧
  (Forall (λ nt, size0 nt.2 = length nids) data →
     (cache_fix_data nids data is_full s).1 = Ok tt).
Proof.
  intros Hr Hb. apply reachable_partitioned in Hr.
  assert (Hagree : rows_agree (length nids) data ↔
                   Forall (λ nt, size0 nt.2 = length nids) data).
  { unfold rows_agree. split; intros H; (eapply Forall_impl; [exact H|]);
    intros nt Hnt; simpl in *; done. }
  destruct (cache_fix_data_cases nids data is_full s Hr)
    as [[Hnb _]|[(_ & Hd & s2 & -> & _)|(_ & Hd & ->)]]; [done| |]; simpl.
  - split.
    + split; [|done]. intros _.
      apply not_Forall_Exists in Hd; [|apply _].
      eapply Exists_impl; [exact Hd|]. intros nt Hnt. simpl in *. congruence.
    + intros Hall. by apply Hagree in Hall.
  - split; [|done]. split; [discriminate|].
    intros (nt & Hin & Hne)%Exists_exists. unfold rows_agree in Hd.
    rewrite Forall_forall in Hd. specialize (Hd nt Hin). congruence.
Qed.

(** The outcome of [cache_fix_data]: of [data] it reads the row counts. *)
Lemma cache_fix_data_outcome nids is_full s :
  ∃ done_ : result unit,
    (∀ data',
       (cache_fix_data nids data' is_full s).1
       = match (index_put nids (arange (length nids)) (localid2cacheid s)).1 with
         | Ok _ =>
             if decide (rows_agree (length nids) data') then done_
             else Raise AssertionError
         | Raise e => Raise e
         end).
Proof.
  exists (match (index_fill nids false (cpu_flag s)).1 with
          | Ok _ => match (index_fill nids true (gpu_flag s)).1 with
                    | Ok _ => Ok tt
                    | Raise e => Raise e
                    end
          | Raise e => Raise e
          end).
  intros data'. unfold cache_fix_data. munfold.
  destruct (index_put nids _ (localid2cacheid s)) as [[[]|e] l2c]; [|done].
  run_cache_loop (length nids) s2 Hrun Hunt Htab. clear Htab.
  rewrite Hrun. unfold untabled in Hunt. simpl in Hunt.
  assert (Hcf : cpu_flag s2 = cpu_flag s) by congruence.
  assert (Hgf : gpu_flag s2 = gpu_flag s) by congruence.
  cbn [fst]. case_decide; [|done]. rewrite Hcf.
  destruct (index_fill nids false (cpu_flag s)) as [[[]|e] cf]; [|done].
  simpl. rewrite Hgf.
  destruct (index_fill nids true (gpu_flag s)) as [[[]|e] gf]; done.
Qed.

Lemma rows_agree_counts n data data' :
  map (λ nt : string * Tensor, size0 nt.2) data'
  = map (λ nt : string * Tensor, size0 nt.2) data →
  rows_agree n data' → rows_agree n data.
Proof.
  unfold rows_agree. intros Hmap Hd'.
  apply (Forall_fmap (λ nt : string * Tensor, size0 nt.2) (λ r, n = r)).
  change (Forall (λ r, n = r) (map (λ nt : string * Tensor, size0 nt.2) data)).
  rewrite <- Hmap.
  by apply (Forall_fmap (λ nt : string * Tensor, size0 nt.2) (λ r, n = r)).
Qed.

(** C8, as the code has it.  [cache_fix_data] does not compare the column
    counts of [data] with [dims].  How the call ends depends on the row
    counts of [data] alone: a population with other widths and the same row
    counts ends in the same way; on a reachable state and ids of local
    nodes it returns normally exactly when every field has [|ids|] rows.
    When it returns normally, [dims] holds the column count of the
    population data for every field of [data], in place of what it
    recorded, and what it held before for the other fields. *)
Theorem cache_fix_data_overwrites_dims (nids : list nat) (data : dict Tensor)
    (is_full : bool) (s : GraphCacheServer) :
  (∀ data' : dict Tensor,
     map (λ nt, size0 nt.2) data' = map (λ nt, size0 nt.2) data →
     (cache_fix_data nids data' is_full s).1
     = (cache_fix_data nids data is_full s).1) ∧
  (reachable s → Forall (λ i, i < node_num s) nids →
     ((cache_fix_data nids data is_full s).1 = Ok tt ↔
        Forall (λ nt, size0 nt.2 = length nids) data)) ∧
  (NoDup (keys data) → ∀ s',
     cache_fix_data nids data is_full s = (Ok tt, s') →
     (∀ name t, dict_get data name = Ok t →
        dict_get (dims s') name = Ok (size1 t)) ∧
     (∀ name, name ∉ keys data →
        dict_get (dims s') name = dict_get (dims s) name)).
Proof.
  split; [|split].
  - intros data' Hmap.
    destruct (cache_fix_data_outcome nids is_full s) as [done_ Hout].
    rewrite !Hout.
    destruct (index_put _ _ _).1; [|done].
    destruct (decide (rows_agree (length nids) data')) as [Hd'|Hd'].
    + rewrite decide_True; [done|]. by apply (rows_agree_counts _ _ data').
    + rewrite decide_False; [done|]. intros Hd. apply Hd'.
      by apply (rows_agree_counts _ _ data).
  - intros Hr%reachable_partitioned Hb.
    assert (Hagree : rows_agree (length nids) data ↔
                     Forall (λ nt, size0 nt.2 = length nids) data).
    { unfold rows_agree. split; intros H; (eapply Forall_impl; [exact H|]);
      intros nt Hnt; simpl in *; done. }
    rewrite <- Hagree.
    destruct (cache_fix_data_cases nids data is_full s Hr)
      as [[Hnb _]|[(_ & Hd & s2 & -> & _)|(_ & Hd & ->)]]; [done| |]; simpl.
    + split; [discriminate|done].
    + done.
  - intros Hnd s' Hrun. apply cache_fix_data_Ok_inv in Hrun as (_ & _ & ->).
    simpl. rewrite dims_of_eq. split.
    + intros name t Ht. by apply dict_update_get.
    + intros name Hname. by apply dict_update_notin.
Qed.

(** C9. A gather changes nothing of the server: the state of [self] after
    [fetch_data] (and after [fetch_from_cache]) is the state before, whether
    the call returns or raises; of the nodeflow only the frames change. *)
Theorem fetch_data_read_only (w : World) :
  self_ (fetch_data w).2 = self_ w ∧
  self_ (fetch_from_cache w).2 = self_ w ∧
  layers (nodeflow (fetch_data w).2) = layers (nodeflow w) ∧
  layers (nodeflow (fetch_from_cache w).2) = layers (nodeflow w).
Proof.
  pose proof (fetch_data_kept w) as H1.
  pose proof (fetch_from_cache_kept w) as H2.
  unfold kept in *. by simplify_eq.
Qed.

(** ** The host store: [get_feat_from_server] *)

Lemma dict_set_notin {V} (d : dict V) k v : k ∉ keys d → dict_set d k v = d ++ [(k, v)].
Proof.
  unfold keys. induction d as [|[k' v'] d IH]; simpl; intros Hk; [done|].
  apply not_elem_of_cons in Hk as [Hne Hk].
  rewrite decide_False by done. f_equal. by apply IH.
Qed.

Lemma foldM_ext {A B} (f g : B → A → result B) (b : B) (l : list A) :
  (∀ b x, f b x = g b x) → foldM f b l = foldM g b l.
Proof.
  intros Hfg. revert b. induction l as [|x l IH]; intros b; simpl; [done|].
  rewrite Hfg. destruct (g b x); simpl; auto.
Qed.

Lemma foldM_build {V} (F : string → result V) (G : string → V)
    (names : list string) (acc : dict V) :
  NoDup names → (∀ name, name ∈ names → name ∉ keys acc) →
  (∀ name, name ∈ names → F name = Ok (G name)) →
  foldM (λ df name, v ← F name; Ok (dict_set df name v)) acc names
  = Ok (acc ++ map (λ name, (name, G name)) names).
Proof.
  revert acc. induction names as [|name names IH]; intros acc Hnd Hacc HF.
  - simpl. by rewrite app_nil_r.
  - apply NoDup_cons in Hnd as [Hname Hnd]. simpl.
    rewrite HF by left. simpl.
    rewrite dict_set_notin by (apply Hacc; left).
    rewrite IH; [by rewrite <- app_assoc | done | | ].
    + intros name' Hin. unfold keys. rewrite fmap_app. simpl.
      rewrite elem_of_app, list_elem_of_singleton.
      intros [Hk | ->]; [|done]. eapply Hacc; [right; exact Hin | exact Hk].
    + intros name' Hin. apply HF. by right.
Qed.

Lemma foldM_build_inv {V} (F : string → result V)
    (names : list string) (acc r : dict V) :
  foldM (λ df name, v ← F name; Ok (dict_set df name v)) acc names = Ok r →
  Forall (λ name, ∃ v, F name = Ok v) names.
Proof.
  revert acc. induction names as [|name names IH]; intros acc Hrun; [constructor|].
  simpl in Hrun. apply bind_Ok_inv in Hrun as (acc' & Hstep & Hrun).
  apply bind_Ok_inv in Hstep as (v & Hv & _).
  constructor; [eauto | eauto].
Qed.

(** The column of a field, and the rows of a column at given indices. *)
Definition column (d : dict Tensor) (name : string) : Tensor :=
  match dict_get d name with
  | Ok t => t
  | Raise _ => mkTensor 0 []
  end.

Definition gathered (col : Tensor) (idx : list nat) : Tensor :=
  mkTensor (size1 col) (map (λ i, rows col !!! i) idx).

Lemma tensor_index_Ok col idx :
  Forall (λ i, i < size0 col) idx → tensor_index col idx = Ok (gathered col idx).
Proof. intros Hb. unfold tensor_index. by rewrite index_Ok. Qed.

Lemma tensor_index_Ok_inv col idx t :
  tensor_index col idx = Ok t →
  Forall (λ i, i < size0 col) idx ∧ t = gathered col idx.
Proof.
  intros Ht. unfold tensor_index in Ht.
  apply bind_Ok_inv in Ht as (rs & Hrs & [= <-]).
  pose proof (index_Ok_bound _ _ _ Hrs) as Hb. split; [done|].
  rewrite index_Ok in Hrs by done. by injection Hrs as <-.
Qed.

(** What the store holds for the local ids [nids]: for each field the rows
    of its column at the ids of the full graph. *)
Definition ground_truth (s : GraphCacheServer) (names : list string)
    (nids : list nat) : dict Tensor :=
  map (λ name, (name, gathered (column (graph s) name)
                        (map (λ id, nid_map s !!! id) nids))) names.

(** The store can serve the local ids [nids] for the fields [names]. *)
Definition store_serves (s : GraphCacheServer) (names : list string)
    (nids : list nat) : Prop :=
  Forall (λ id, id < length (nid_map s)) nids ∧
  Forall (λ name,
    name ∈ keys (graph s) ∧
    Forall (λ id, nid_map s !!! id < size0 (column (graph s) name)) nids) names.

Lemma column_get d name : name ∈ keys d → dict_get d name = Ok (column d name).
Proof. intros (v & Hv)%dict_get_keys. unfold column. by rewrite Hv. Qed.

Lemma get_feat_from_server_Ok s nids names to_gpu :
  NoDup names → store_serves s names nids →
  get_feat_from_server s nids names to_gpu = Ok (ground_truth s names nids).
Proof.
  intros Hnd [Hids Hnames]. unfold get_feat_from_server.
  rewrite index_Ok by done. simpl.
  etrans; [|apply (foldM_build
    (λ name, col ← dict_get (graph s) name;
             t ← tensor_index col (map (λ i, nid_map s !!! i) nids);
             Ok (if to_gpu then cuda t else t))
    (λ name, gathered (column (graph s) name)
               (map (λ id, nid_map s !!! id) nids)) names [])]; try done.
  - apply foldM_ext. intros df name.
    destruct (dict_get (graph s) name) as [col|]; simpl; [|done].
    by destruct (tensor_index col _).
  - intros name _. apply not_elem_of_nil.
  - intros name Hin. rewrite Forall_forall in Hnames.
    destruct (Hnames name Hin) as [Hkey Hb].
    rewrite column_get by done. simpl.
    rewrite tensor_index_Ok by (by rewrite Forall_fmap). simpl.
    by destruct to_gpu.
Qed.

Lemma get_feat_from_server_Ok_inv s nids names to_gpu frame :
  get_feat_from_server s nids names to_gpu = Ok frame →
  store_serves s names nids.
Proof.
  unfold get_feat_from_server. intros Hrun.
  apply bind_Ok_inv in Hrun as (gids & Hgids & Hrun).
  pose proof (index_Ok_bound _ _ _ Hgids) as Hb. split; [done|].
  rewrite index_Ok in Hgids by done. injection Hgids as <-.
  pose proof (foldM_build_inv
    (λ name, col ← dict_get (graph s) name;
             t ← tensor_index col (map (λ i, nid_map s !!! i) nids);
             Ok (if to_gpu then cuda t else t)) names [] frame) as Hinv.
  eapply Forall_impl; [apply Hinv|].
  - rewrite <- Hrun. apply foldM_ext. intros df name.
    destruct (dict_get (graph s) name) as [col|]; simpl; [|done].
    by destruct (tensor_index col _).
  - intros name (v & Hv). simpl in Hv.
    apply bind_Ok_inv in Hv as (col & Hcol & Hv).
    apply bind_Ok_inv in Hv as (t & Ht & _).
    apply tensor_index_Ok_inv in Ht as [Hbt _].
    split; [by eapply dict_get_Ok_keys|].
    unfold column. rewrite Hcol. by rewrite Forall_fmap in Hbt.
Qed.

(** ** Masks *)

Lemma select_length_mask {A} (l : list A) (mask : list bool) :
  length l = length mask → length (select l mask) = length (select mask mask).
Proof.
  revert mask. induction l as [|x l IH]; intros [|b mask] Hlen; try done.
  simpl in *. destruct b; simpl; auto.
Qed.

Lemma select_all_false {A} (l : list A) (mask : list bool) :
  Forall (λ b, b = false) mask → select l mask = [].
Proof.
  intros Hm. revert l. induction Hm as [|b mask -> _ IH]; intros [|x l]; simpl; auto.
Qed.

Lemma select_elem_of {A} (f : A → bool) (l : list A) (x : A) :
  x ∈ select l (map f l) → x ∈ l ∧ f x = true.
Proof.
  induction l as [|y l IH]; simpl; [by intros ?%elem_of_nil|].
  destruct (f y) eqn:Hy.
  - intros [->|Hx]%elem_of_cons; [split; [left|done]|].
    destruct (IH Hx). split; [by right | done].
  - intros Hx. destruct (IH Hx). split; [by right | done].
Qed.

Lemma mask_scatter_nil {A} (l : list A) (mask : list bool) :
  mask_scatter l mask [] = l.
Proof.
  revert mask. induction l as [|x l IH]; intros [|[] mask]; simpl; try done.
  - by rewrite IH.
  - by rewrite IH.
Qed.

Lemma mask_scatter_length {A} (l : list A) (mask : list bool) vals :
  length (mask_scatter l mask vals) = length l.
Proof.
  revert mask vals. induction l as [|x l IH]; intros [|[] mask] vals; simpl; try done.
  - destruct vals; simpl; by rewrite IH.
  - by rewrite IH.
Qed.

(** Filling the places of the mask from one source and then the other
    places from a second one gives each place its own source. *)
Lemma mask_scatter_merge {A B} (g : A → bool) (f1 f2 : A → B)
    (tnid : list A) (l : list B) :
  length l = length tnid →
  mask_scatter
    (mask_scatter l (map g tnid) (map f1 (select tnid (map g tnid))))
    (map (λ x, negb (g x)) tnid)
    (map f2 (select tnid (map (λ x, negb (g x)) tnid)))
  = map (λ x, if g x then f1 x else f2 x) tnid.
Proof.
  revert l. induction tnid as [|x tnid IH]; intros [|y l] Hlen; try done.
  simpl in *. destruct (g x); simpl; f_equal; apply IH; lia.
Qed.

(** ** Updating every entry of a frame in turn *)

Lemma dict_get_app_notin {V} (d1 d2 : dict V) k :
  k ∉ keys d1 → dict_get (d1 ++ d2) k = dict_get d2 k.
Proof.
  unfold keys. induction d1 as [|[k' v'] d1 IH]; simpl; intros Hk; [done|].
  apply not_elem_of_cons in Hk as [Hne Hk]. rewrite decide_False by done. auto.
Qed.

Lemma dict_set_app_notin {V} (d1 d2 : dict V) k v :
  k ∉ keys d1 → dict_set (d1 ++ d2) k v = d1 ++ dict_set d2 k v.
Proof.
  unfold keys. induction d1 as [|[k' v'] d1 IH]; simpl; intros Hk; [done|].
  apply not_elem_of_cons in Hk as [Hne Hk]. rewrite decide_False by done.
  f_equal. auto.
Qed.

Lemma foldM_dict_map {V} (step : dict V → string → result (dict V))
    (G : string → V → V) (P : string → V → Prop) :
  (∀ frame name t, P name t → dict_get frame name = Ok t →
     step frame name = Ok (dict_set frame name (G name t))) →
  ∀ todo done, NoDup (keys (done ++ todo)) →
    Forall (λ kv, P kv.1 kv.2) todo →
    foldM step (done ++ todo) (keys todo)
    = Ok (done ++ map (λ kv, (kv.1, G kv.1 kv.2)) todo).
Proof.
  intros Hstep. induction todo as [|[k v] todo IH]; intros done Hnd HP.
  - done.
  - apply Forall_cons in HP as [Hkv HP]. simpl in Hkv.
    assert (Hk : k ∉ keys done).
    { unfold keys in *. rewrite fmap_app in Hnd. simpl in Hnd.
      apply NoDup_app in Hnd as (_ & Hdis & _). intros Hin.
      apply (Hdis k Hin). left. }
    simpl. rewrite (Hstep _ k v Hkv).
    2:{ rewrite dict_get_app_notin by done. simpl. by rewrite decide_True. }
    simpl. rewrite dict_set_app_notin by done. simpl.
    rewrite decide_True by done.
    replace (done ++ (k, G k v) :: todo) with ((done ++ [(k, G k v)]) ++ todo)
      by by rewrite <- app_assoc.
    rewrite IH; [by rewrite <- app_assoc | | done].
    unfold keys in *. rewrite !fmap_app in *. simpl in *.
    by rewrite <- app_assoc.
Qed.

Lemma foldM_dict_map_all {V} (step : dict V → string → result (dict V))
    (G : string → V → V) (P : string → V → Prop) (frame : dict V) :
  (∀ frame name t, P name t → dict_get frame name = Ok t →
     step frame name = Ok (dict_set frame name (G name t))) →
  NoDup (keys frame) → Forall (λ kv, P kv.1 kv.2) frame →
  foldM step frame (keys frame) = Ok (map (λ kv, (kv.1, G kv.1 kv.2)) frame).
Proof. intros. by apply (foldM_dict_map step G P) with (done := []). Qed.

(** ** One layer of the gather *)

Lemma bind_Ok {A B} (a : A) (f : A → result B) : Ok a ≫= f = f a.
Proof. done. Qed.

Lemma mask_put_Ok t mask src :
  length mask = size0 t → size0 src = length (select mask mask) →
  size1 src = size1 t →
  mask_put t mask src
  = Ok (mkTensor (size1 t) (mask_scatter (rows t) mask (rows src))).
Proof.
  intros Hm Hk Hd. unfold mask_put, broadcast_to, expand.
  rewrite decide_True by done. rewrite (decide_True _ _ Hk).
  rewrite bind_Ok. by rewrite decide_True.
Qed.

(** The row that the gather serves for a local id: from the cache at the
    slot of the id when the id is flagged on the device, from the store at
    the id of the full graph otherwise. *)
Definition served (s : GraphCacheServer) (name : string) (id : nat) : list elem :=
  match gpu_flag s !!! id with
  | true => rows (column (gpu_fix_cache s) name) !!! (localid2cacheid s !!! id)
  | false => rows (column (graph s) name) !!! (nid_map s !!! id)
  end.

Definition merged (s : GraphCacheServer) (tnid : list nat) : dict Tensor :=
  map (λ nd, (nd.1, mkTensor nd.2 (map (served s nd.1) tnid))) (dims s).

Definition nids_in_gpu (s : GraphCacheServer) (tnid : list nat) : list nat :=
  select tnid (map (λ id, gpu_flag s !!! id) tnid).

Definition nids_in_cpu (s : GraphCacheServer) (tnid : list nat) : list nat :=
  select tnid (map (λ id, negb (gpu_flag s !!! id)) tnid).

(** The cache can serve the ids of the layer that are on the device. *)
Definition gpu_ready (s : GraphCacheServer) (tnid : list nat) : Prop :=
  nids_in_gpu s tnid ≠ [] →
  Forall (λ nd,
    nd.1 ∈ keys (gpu_fix_cache s) ∧
    size1 (column (gpu_fix_cache s) nd.1) = nd.2 ∧
    Forall (λ id, localid2cacheid s !!! id
                  < size0 (column (gpu_fix_cache s) nd.1))
           (nids_in_gpu s tnid)) (dims s).

(** The store can serve the other ids of the layer. *)
Definition cpu_ready (s : GraphCacheServer) (tnid : list nat) : Prop :=
  nids_in_cpu s tnid ≠ [] →
  store_serves s (keys (dims s)) (nids_in_cpu s tnid) ∧
  Forall (λ nd, size1 (column (graph s) nd.1) = nd.2) (dims s).

Lemma gpu_fill_Ok s tnid (frame : dict Tensor) :
  length (localid2cacheid s) = node_num s →
  Forall (λ id, id < node_num s) tnid →
  NoDup (keys frame) →
  Forall (λ kv,
    size0 kv.2 = length tnid ∧
    kv.1 ∈ keys (gpu_fix_cache s) ∧
    size1 (column (gpu_fix_cache s) kv.1) = size1 kv.2 ∧
    Forall (λ id, localid2cacheid s !!! id
                  < size0 (column (gpu_fix_cache s) kv.1))
           (nids_in_gpu s tnid)) frame →
  foldM (λ frame name,
           cacheid ← index (localid2cacheid s) (nids_in_gpu s tnid);
           col ← dict_get (gpu_fix_cache s) name;
           src ← tensor_index col cacheid;
           t ← dict_get frame name;
           t' ← mask_put t (map (λ id, gpu_flag s !!! id) tnid) src;
           Ok (dict_set frame name t'))
        frame (keys frame)
  = Ok (map (λ kv, (kv.1,
          mkTensor (size1 kv.2)
            (mask_scatter (rows kv.2) (map (λ id, gpu_flag s !!! id) tnid)
               (map (λ id, rows (column (gpu_fix_cache s) kv.1)
                             !!! (localid2cacheid s !!! id))
                    (nids_in_gpu s tnid))))) frame).
Proof.
  intros Hl Hb Hnd Hframe.
  apply (foldM_dict_map_all _
    (λ name t, mkTensor (size1 t)
       (mask_scatter (rows t) (map (λ id, gpu_flag s !!! id) tnid)
          (map (λ id, rows (column (gpu_fix_cache s) name)
                        !!! (localid2cacheid s !!! id))
               (nids_in_gpu s tnid))))
    (λ name t,
       size0 t = length tnid ∧
       name ∈ keys (gpu_fix_cache s) ∧
       size1 (column (gpu_fix_cache s) name) = size1 t ∧
       Forall (λ id, localid2cacheid s !!! id
                     < size0 (column (gpu_fix_cache s) name))
              (nids_in_gpu s tnid)) frame); [|done|exact Hframe].
  intros fr name t (Hrows & Hkey & Hd & Hslots) Ht.
  rewrite index_Ok, bind_Ok.
  2:{ apply Forall_forall. intros id [Hin _]%select_elem_of.
      rewrite Forall_forall in Hb. rewrite Hl. auto. }
  rewrite (column_get (gpu_fix_cache s)), bind_Ok by done.
  rewrite tensor_index_Ok, bind_Ok by (by rewrite Forall_fmap).
  rewrite Ht, bind_Ok.
  rewrite mask_put_Ok, bind_Ok; [| |  |done].
  - unfold gathered. simpl. by rewrite map_map.
  - by rewrite length_map.
  - unfold gathered, size0. simpl. rewrite !length_map.
    apply select_length_mask. by rewrite length_map.
Qed.

Lemma ground_truth_get s names nids name :
  name ∈ names →
  dict_get (ground_truth s names nids) name
  = Ok (gathered (column (graph s) name) (map (λ id, nid_map s !!! id) nids)).
Proof.
  unfold ground_truth. induction names as [|name' names IH]; simpl.
  - by intros ?%elem_of_nil.
  - intros Hin. case_decide; [by subst|].
    apply IH. apply elem_of_cons in Hin as [->|]; done.
Qed.

Lemma cpu_fill_Ok s tnid (frame : dict Tensor) :
  NoDup (keys frame) →
  Forall (λ kv,
    size0 kv.2 = length tnid ∧
    size1 (column (graph s) kv.1) = size1 kv.2) frame →
  foldM (λ fr name,
           src ← dict_get (ground_truth s (keys frame) (nids_in_cpu s tnid)) name;
           t ← dict_get fr name;
           t' ← mask_put t (map (λ id, negb (gpu_flag s !!! id)) tnid) src;
           Ok (dict_set fr name t'))
        frame (keys frame)
  = Ok (map (λ kv, (kv.1,
          mkTensor (size1 kv.2)
            (mask_scatter (rows kv.2)
               (map (λ id, negb (gpu_flag s !!! id)) tnid)
               (map (λ id, rows (column (graph s) kv.1) !!! (nid_map s !!! id))
                    (nids_in_cpu s tnid))))) frame).
Proof.
  intros Hnd Hframe.
  set (names := keys frame).
  apply (foldM_dict_map_all _
    (λ name t, mkTensor (size1 t)
       (mask_scatter (rows t) (map (λ id, negb (gpu_flag s !!! id)) tnid)
          (map (λ id, rows (column (graph s) name) !!! (nid_map s !!! id))
               (nids_in_cpu s tnid))))
    (λ name t, name ∈ names ∧ size0 t = length tnid ∧
               size1 (column (graph s) name) = size1 t) frame);
    [|done|].
  - intros fr name t (Hin & Hrows & Hd) Ht.
    rewrite ground_truth_get, bind_Ok by done.
    rewrite Ht, bind_Ok.
    rewrite mask_put_Ok, bind_Ok; [| |  |done].
    + unfold gathered. simpl. by rewrite map_map.
    + by rewrite length_map.
    + unfold gathered, size0. simpl. rewrite !length_map.
      apply select_length_mask. by rewrite length_map.
  - apply Forall_forall. intros [k v] Hkv.
    rewrite Forall_forall in Hframe. destruct (Hframe _ Hkv) as [? ?].
    split; [|done]. unfold names, keys. simpl.
    apply list_elem_of_fmap. by exists (k, v).
Qed.

Lemma frame_refill_nil (mask : list bool) (frame : dict Tensor) :
  map (λ kv, (kv.1, mkTensor (size1 kv.2) (mask_scatter (rows kv.2) mask [])))
      frame = frame.
Proof.
  induction frame as [|[k [d r]] frame IH]; simpl; [done|].
  by rewrite mask_scatter_nil, IH.
Qed.

Lemma keys_map_snd {V W} (f : string * V → W) (d : dict V) :
  keys (map (λ kv, (kv.1, f kv)) d) = keys d.
Proof.
  unfold keys. induction d as [|[k v] d IH]; [done|].
  simpl. f_equal. exact IH.
Qed.

Lemma cpu_mask_negb s tnid :
  partitioned s → Forall (λ id, id < node_num s) tnid →
  map (λ i, cpu_flag s !!! i) tnid = map (λ id, negb (gpu_flag s !!! id)) tnid.
Proof.
  intros (Hg & _ & Hc) Hb. apply map_ext_Forall.
  eapply Forall_impl; [exact Hb|]. intros id Hid. simpl.
  rewrite Hc. apply list_lookup_total_fmap. by rewrite Hg.
Qed.

Lemma mask_select_Ok {A} (l : list A) (mask : list bool) :
  length mask = length l → mask_select l mask = Ok (select l mask).
Proof. intros Hlen. unfold mask_select. by rewrite decide_True. Qed.

Lemma fetch_data_layer_Ok s tnid :
  partitioned s → Forall (λ id, id < node_num s) tnid →
  NoDup (keys (dims s)) →
  gpu_ready s tnid → cpu_ready s tnid →
  fetch_data_layer s tnid = Ok (merged s tnid).
Proof.
  intros Hp Hb Hnd Hgpu Hcpu.
  pose proof (cpu_mask_negb s tnid Hp Hb) as Hcm.
  destruct Hp as (Hg & Hl & Hc).
  unfold fetch_data_layer.
  rewrite (index_Ok (gpu_flag s)), bind_Ok by (by rewrite Hg).
  rewrite mask_select_Ok, bind_Ok by (by rewrite length_map).
  rewrite (index_Ok (cpu_flag s)), bind_Ok by (by rewrite Hc, length_fmap, Hg).
  rewrite Hcm. rewrite mask_select_Ok, bind_Ok by (by rewrite length_map).
  fold (nids_in_gpu s tnid). fold (nids_in_cpu s tnid).
  set (frame0 := map (λ '(name, d),
                        (name, FloatTensor (gpuid s) (length tnid) d)) (dims s)).
  assert (Hframe0 : frame0 = map (λ nd,
            (nd.1, FloatTensor (gpuid s) (length tnid) nd.2)) (dims s)).
  { unfold frame0. apply map_ext. by intros [name d]. }
  assert (Hkeys0 : keys frame0 = keys (dims s)).
  { rewrite Hframe0. apply (keys_map_snd (λ nd, FloatTensor _ _ nd.2)). }
  set (frame1 := map (λ kv, (kv.1,
          mkTensor (size1 kv.2)
            (mask_scatter (rows kv.2) (map (λ id, gpu_flag s !!! id) tnid)
               (map (λ id, rows (column (gpu_fix_cache s) kv.1)
                             !!! (localid2cacheid s !!! id))
                    (nids_in_gpu s tnid))))) frame0).
  assert (Hkeys1 : keys frame1 = keys (dims s)).
  { rewrite <- Hkeys0. unfold frame1.
    apply (keys_map_snd (λ kv, mkTensor (size1 kv.2) _)). }
  (* the rows that the cache holds *)
  match goal with |- ?gpu_part ≫= _ = _ =>
    assert (Hgpu_part : gpu_part = Ok frame1)
  end.
  { case_decide as Hne.
    - rewrite <- Hkeys0. apply gpu_fill_Ok; try done; [by rewrite Hkeys0|].
      assert (Hne' : nids_in_gpu s tnid ≠ []) by (by intros Heq; rewrite Heq in Hne).
      specialize (Hgpu Hne'). rewrite Hframe0. apply Forall_fmap.
      eapply Forall_impl; [exact Hgpu|]. intros [name d] (Hk & Hd & Hs). simpl in *.
      split; [|done]. unfold size0. simpl. by rewrite length_map, length_seq.
    - assert (Heq : nids_in_gpu s tnid = []).
      { apply nil_length_inv. lia. }
      unfold frame1. rewrite Heq. simpl. by rewrite frame_refill_nil. }
  rewrite Hgpu_part, bind_Ok. clear Hgpu_part.
  (* the rows that the store holds *)
  set (frame2 := map (λ kv, (kv.1,
          mkTensor (size1 kv.2)
            (mask_scatter (rows kv.2)
               (map (λ id, negb (gpu_flag s !!! id)) tnid)
               (map (λ id, rows (column (graph s) kv.1) !!! (nid_map s !!! id))
                    (nids_in_cpu s tnid))))) frame1).
  match goal with |- ?cpu_part = _ =>
    assert (Hcpu_part : cpu_part = Ok frame2)
  end.
  { case_decide as Hne.
    - assert (Hne' : nids_in_cpu s tnid ≠ []) by (by intros Heq; rewrite Heq in Hne).
      destruct (Hcpu Hne') as [Hserve Hwidth].
      rewrite get_feat_from_server_Ok, bind_Ok by done.
      rewrite <- Hkeys1. apply cpu_fill_Ok; [by rewrite Hkeys1|].
      unfold frame1. apply Forall_fmap. rewrite Hframe0. apply Forall_fmap.
      eapply Forall_impl; [exact Hwidth|]. intros [name d] Hd. simpl in *.
      split; [|done]. unfold size0. simpl.
      by rewrite mask_scatter_length, length_map, length_seq.
    - assert (Heq : nids_in_cpu s tnid = []).
      { apply nil_length_inv. lia. }
      unfold frame2. rewrite Heq. simpl. by rewrite frame_refill_nil. }
  rewrite Hcpu_part. f_equal. clear Hcpu_part.
  unfold frame2, frame1, merged. rewrite Hframe0, !map_map.
  apply map_ext. intros [name d]. simpl. f_equal. f_equal.
  unfold nids_in_gpu, nids_in_cpu.
  rewrite (mask_scatter_merge (λ id, gpu_flag s !!! id)
             (λ id, rows (column (gpu_fix_cache s) name)
                      !!! (localid2cacheid s !!! id))
             (λ id, rows (column (graph s) name) !!! (nid_map s !!! id)));
    [done|].
  by rewrite length_map, length_seq.
Qed.

Lemma foldM_build_items {V W} (F : V → result W) (G : V → W)
    (items : dict V) (acc : dict W) :
  NoDup (keys items) → (∀ k, k ∈ keys items → k ∉ keys acc) →
  Forall (λ kv, F kv.2 = Ok (G kv.2)) items →
  foldM (λ fr '(name, col), t ← F col; Ok (dict_set fr name t)) acc items
  = Ok (acc ++ map (λ kv, (kv.1, G kv.2)) items).
Proof.
  unfold keys. revert acc.
  induction items as [|[k v] items IH]; intros acc Hnd Hacc HF.
  - simpl. by rewrite app_nil_r.
  - simpl in Hnd. apply NoDup_cons in Hnd as [Hk Hnd].
    apply Forall_cons in HF as [Hv HF]. simpl in Hv. cbn [foldM].
    rewrite Hv, !bind_Ok. rewrite dict_set_notin by (apply Hacc; left).
    rewrite IH; [by rewrite <- app_assoc | done | | done].
    intros k' Hin. unfold keys. rewrite fmap_app. simpl.
    rewrite elem_of_app, list_elem_of_singleton.
    intros [Hk' | ->]; [|done]. eapply Hacc; [right; exact Hin | exact Hk'].
Qed.

(** The frame of the fast path: the rows of the cache at the ids. *)
Definition direct (s : GraphCacheServer) (tnid : list nat) : dict Tensor :=
  map (λ kv, (kv.1, gathered kv.2 tnid)) (gpu_fix_cache s).

Lemma fetch_from_cache_layer_Ok s tnid :
  NoDup (keys (gpu_fix_cache s)) →
  Forall (λ kv, Forall (λ id, id < size0 kv.2) tnid) (gpu_fix_cache s) →
  fetch_from_cache_layer s tnid = Ok (direct s tnid).
Proof.
  intros Hnd Hb. unfold fetch_from_cache_layer.
  apply (foldM_build_items (λ col, tensor_index col tnid)
           (λ col, gathered col tnid) (gpu_fix_cache s) []); [done| |].
  - intros k _. apply not_elem_of_nil.
  - eapply Forall_impl; [exact Hb|]. intros [k col] Hcol. simpl in *.
    by apply tensor_index_Ok.
Qed.

(** ** The loop over the layers *)

(** The body of both loops, for a given way to make the frame of a layer. *)
Definition gather_layer
    (layer : GraphCacheServer → list nat → result (dict Tensor)) (i : nat)
  : M World unit :=
  w ← get;
  tnid ← lift (layer_parent_nid (nodeflow w) i);
  frame ← lift (layer (self_ w) tnid);
  set_node_frame i frame.

Lemma gather_layer_run layer i w :
  gather_layer layer i w =
  match layers (nodeflow w) !! i with
  | Some tnid =>
      match layer (self_ w) tnid with
      | Ok frame => set_node_frame i frame w
      | Raise e => (Raise e, w)
      end
  | None => (Raise IndexError, w)
  end.
Proof.
  unfold gather_layer, layer_parent_nid. munfold.
  by destruct (layers (nodeflow w) !! i).
Qed.

Lemma fetch_from_cache_loop w :
  fetch_from_cache w
  = for_ (seq 0 (num_layers (nodeflow w))) (gather_layer fetch_from_cache_layer) w.
Proof. done. Qed.

Lemma fetch_data_loop_loop w :
  fetch_data_loop w
  = for_ (seq 0 (num_layers (nodeflow w))) (gather_layer fetch_data_layer) w.
Proof. done. Qed.

(** Two gathers on the same nodeflow whose layer bodies agree on every
    requested id list end alike and leave the same nodeflow. *)
Lemma gather_loop_rel
    (layer1 layer2 : GraphCacheServer → list nat → result (dict Tensor))
    (l : list nat) (w1 w2 : World) :
  nodeflow w1 = nodeflow w2 →
  (∀ i tnid, layers (nodeflow w1) !! i = Some tnid →
     layer1 (self_ w1) tnid = layer2 (self_ w2) tnid) →
  (for_ l (gather_layer layer1) w1).1 = (for_ l (gather_layer layer2) w2).1 ∧
  nodeflow (for_ l (gather_layer layer1) w1).2
  = nodeflow (for_ l (gather_layer layer2) w2).2.
Proof.
  revert w1 w2. induction l as [|i l IH]; intros w1 w2 Hnf Hlayers.
  - done.
  - cbn [for_]. munfold. rewrite !gather_layer_run. rewrite <- Hnf.
    destruct (layers (nodeflow w1) !! i) as [tnid|] eqn:Hi; [|done].
    rewrite <- (Hlayers i tnid Hi).
    destruct (layer1 (self_ w1) tnid) as [frame|e]; [|done].
    unfold set_node_frame. rewrite <- Hnf.
    case_decide; [|done]. apply IH; simpl; [by rewrite Hnf|].
    intros j tnid' Hj. by apply (Hlayers j).
Qed.

Lemma world_eq (w1 w2 : World) :
  self_ w1 = self_ w2 → nodeflow w1 = nodeflow w2 → w1 = w2.
Proof. destruct w1, w2. simpl. by intros -> ->. Qed.

Lemma gather_loop_self layer l w : self_ (for_ l (gather_layer layer) w).2 = self_ w.
Proof.
  pose proof (gather_loop_kept layer l w) as Hk. unfold kept in Hk.
  by injection Hk.
Qed.

(** Equal layer bodies on the requested ids: equal gathers. *)
Lemma gather_loop_ext
    (layer1 layer2 : GraphCacheServer → list nat → result (dict Tensor))
    (l : list nat) (w : World) :
  (∀ i tnid, layers (nodeflow w) !! i = Some tnid →
     layer1 (self_ w) tnid = layer2 (self_ w) tnid) →
  for_ l (gather_layer layer1) w = for_ l (gather_layer layer2) w.
Proof.
  intros Hlayers.
  destruct (gather_loop_rel layer1 layer2 l w w eq_refl Hlayers) as [Hr Hnf].
  pose proof (gather_loop_self layer1 l w) as Hs1.
  pose proof (gather_loop_self layer2 l w) as Hs2.
  destruct (for_ l (gather_layer layer1) w) as [r1 w1].
  destruct (for_ l (gather_layer layer2) w) as [r2 w2]. simpl in *.
  f_equal; [done|]. apply world_eq; congruence.
Qed.

(** ** A layer whose ids are all on the device *)

Lemma all_gpu_bound s tnid :
  partitioned s → Forall (λ id, gpu_flag s !! id = Some true) tnid →
  Forall (λ id, id < node_num s) tnid.
Proof.
  intros (Hg & _ & _) Hall. eapply Forall_impl; [exact Hall|].
  intros id Hid. simpl in Hid. apply lookup_lt_Some in Hid. by rewrite <- Hg.
Qed.

Lemma all_gpu_nids_in_cpu s tnid :
  Forall (λ id, gpu_flag s !! id = Some true) tnid → nids_in_cpu s tnid = [].
Proof.
  intros Hall. apply select_all_false. apply Forall_fmap.
  eapply Forall_impl; [exact Hall|]. intros id Hid. simpl in *.
  by rewrite (list_lookup_total_correct _ _ _ Hid).
Qed.

Lemma fetch_data_layer_all_gpu s tnid g2 :
  partitioned s → Forall (λ id, gpu_flag s !! id = Some true) tnid →
  fetch_data_layer (set_graph g2 s) tnid = fetch_data_layer s tnid.
Proof.
  intros Hp Hall.
  pose proof (all_gpu_bound s tnid Hp Hall) as Hb.
  pose proof (cpu_mask_negb s tnid Hp Hb) as Hcm.
  pose proof (all_gpu_nids_in_cpu s tnid Hall) as Hcpu.
  destruct Hp as (Hg & Hl & Hc).
  unfold fetch_data_layer, set_graph.
  cbn [gpu_flag cpu_flag dims gpuid localid2cacheid gpu_fix_cache].
  rewrite (index_Ok (gpu_flag s)), !bind_Ok by (by rewrite Hg).
  rewrite mask_select_Ok, !bind_Ok by (by rewrite length_map).
  rewrite (index_Ok (cpu_flag s)), !bind_Ok by (by rewrite Hc, length_fmap, Hg).
  rewrite Hcm. rewrite mask_select_Ok, !bind_Ok by (by rewrite length_map).
  fold (nids_in_cpu s tnid). rewrite Hcpu.
  match goal with |- ?gpu_part ≫= _ = _ =>
    destruct gpu_part as [frame|e]; [|done]
  end.
  rewrite !bind_Ok.
  by rewrite !(decide_False (P := length (@nil nat) ≠ 0))
    by (intros H; by apply H).
Qed.

(** C10. On a reachable state whose cache is not full, a layer whose ids
    are all flagged on the device gets its frame without the store: with
    any other store content [g2] the layer body returns the same, and a
    nodeflow all of whose layers are such gets the same result and the
    same frames from [fetch_data]. *)
Theorem device_layer_ignores_store (s : GraphCacheServer) (g2 : dict Tensor)
    (nf : NodeFlow) :
  reachable s → full_cached s = false →
  (∀ tnid, Forall (λ id, gpu_flag s !! id = Some true) tnid →
     fetch_data_layer (set_graph g2 s) tnid = fetch_data_layer s tnid) ∧
  (Forall (Forall (λ id, gpu_flag s !! id = Some true)) (layers nf) →
     (fetch_data (mkWorld (set_graph g2 s) nf)).1
       = (fetch_data (mkWorld s nf)).1 ∧
     nodeflow (fetch_data (mkWorld (set_graph g2 s) nf)).2
       = nodeflow (fetch_data (mkWorld s nf)).2).
Proof.
  intros Hr Hfull. apply reachable_partitioned in Hr. split.
  - intros tnid Hall. by apply fetch_data_layer_all_gpu.
  - intros Hall. unfold fetch_data. munfold. simpl. rewrite Hfull.
    rewrite !fetch_data_loop_loop. simpl.
    apply gather_loop_rel; [done|]. simpl. intros i tnid Hi.
    apply fetch_data_layer_all_gpu; [done|].
    rewrite Forall_forall in Hall. apply Hall.
    apply list_elem_of_lookup. eauto.
Qed.

(** ** The fast path against the general path *)

Lemma dict_get_elem_of_NoDup {V} (d : dict V) k v :
  NoDup (keys d) → (k, v) ∈ d → dict_get d k = Ok v.
Proof.
  unfold keys. induction d as [|[k' v'] d IH]; simpl; intros Hnd Hin.
  - by apply elem_of_nil in Hin.
  - apply NoDup_cons in Hnd as [Hk' Hnd].
    apply elem_of_cons in Hin as [[= -> ->]|Hin].
    + by rewrite decide_True.
    + rewrite decide_False; [by apply IH|].
      intros ->. apply Hk'. apply list_elem_of_fmap. by exists (k, v).
Qed.

Lemma column_elem_of d k v : NoDup (keys d) → (k, v) ∈ d → column d k = v.
Proof.
  intros Hnd Hin. unfold column. by rewrite (dict_get_elem_of_NoDup d k v).
Qed.

Lemma arange_lookup_total n i : i < n → arange n !!! i = i.
Proof.
  intros Hi. apply list_lookup_total_correct. unfold arange.
  by rewrite lookup_seq_lt.
Qed.

(** The state of a full cache filled in id order: every node is flagged on
    the device, the slot of an id is the id, the cache has a row per node,
    and [dims] lists the cached fields with their widths. *)
Definition full_in_order (s : GraphCacheServer) : Prop :=
  partitioned s ∧
  NoDup (keys (gpu_fix_cache s)) ∧
  Forall (λ b, b = true) (gpu_flag s) ∧
  localid2cacheid s = arange (node_num s) ∧
  Forall (λ kv, size0 kv.2 = node_num s) (gpu_fix_cache s) ∧
  dims s = map (λ kv, (kv.1, size1 kv.2)) (gpu_fix_cache s).

Lemma full_in_order_gpu s id :
  full_in_order s → id < node_num s → gpu_flag s !! id = Some true.
Proof.
  intros ((Hg & _) & _ & Hall & _) Hid. rewrite <- Hg in Hid.
  apply lookup_lt_is_Some in Hid as [b Hb]. rewrite Hb. f_equal.
  rewrite Forall_forall in Hall. apply Hall. by eapply list_elem_of_lookup_2.
Qed.

Lemma full_in_order_layers s tnid :
  full_in_order s → Forall (λ id, id < node_num s) tnid →
  fetch_from_cache_layer s tnid = fetch_data_layer s tnid.
Proof.
  intros Hfull Hb.
  assert (Hgpu : Forall (λ id, gpu_flag s !! id = Some true) tnid).
  { eapply Forall_impl; [exact Hb|]. intros id Hid. by apply full_in_order_gpu. }
  destruct Hfull as (Hp & Hnd & Hall & Hslot & Hrows & Hdims).
  assert (Hkeys : keys (dims s) = keys (gpu_fix_cache s)).
  { rewrite Hdims. apply (keys_map_snd (λ kv, size1 kv.2)). }
  rewrite fetch_from_cache_layer_Ok; [|done|].
  2:{ eapply Forall_impl; [exact Hrows|]. intros [k col] Hcol. simpl in *.
      by rewrite Hcol. }
  rewrite fetch_data_layer_Ok; [|done|done|by rewrite Hkeys| |].
  - f_equal. unfold direct, merged. rewrite Hdims, map_map.
    apply map_ext_Forall. apply Forall_forall. intros [k col] Hin. simpl.
    f_equal. unfold gathered. f_equal. apply map_ext_Forall.
    rewrite Forall_forall in Hgpu. apply Forall_forall. intros id Hid.
    unfold served. rewrite (list_lookup_total_correct _ _ _ (Hgpu id Hid)).
    rewrite (column_elem_of _ k col) by done. rewrite Hslot.
    rewrite arange_lookup_total; [done|].
    rewrite Forall_forall in Hb. auto.
  - intros _. rewrite Hdims. apply Forall_fmap. apply Forall_forall.
    intros [k col] Hin. simpl.
    rewrite (column_elem_of _ k col) by done.
    split; [|split; [done|]].
    + unfold keys. apply list_elem_of_fmap. by exists (k, col).
    + apply Forall_forall. intros id [Hid _]%select_elem_of.
      rewrite Hslot. rewrite Forall_forall in Hb.
      rewrite arange_lookup_total by auto.
      rewrite Forall_forall in Hrows.
      specialize (Hrows _ Hin). simpl in Hrows. rewrite Hrows. auto.
  - intros Hne. by rewrite all_gpu_nids_in_cpu in Hne.
Qed.

(** C2, as the code has it.  The fast path reads the cache at the requested
    id itself, not at the slot of the id.  On a full cache filled in id
    order (what the full branch of [auto_cache] leaves) and requested ids
    below [node_num], [fetch_from_cache] ends as the general loop of
    [fetch_data] does and leaves the same frames. *)
Theorem fast_path_equivalence (s : GraphCacheServer) (nf : NodeFlow) :
  full_cached s = true → full_in_order s →
  Forall (Forall (λ id, id < node_num s)) (layers nf) →
  fetch_data (mkWorld s nf) = fetch_from_cache (mkWorld s nf) ∧
  fetch_from_cache (mkWorld s nf) = fetch_data_loop (mkWorld s nf).
Proof.
  intros Hfc Hfull Hb. split.
  - unfold fetch_data. munfold. simpl. by rewrite Hfc.
  - rewrite fetch_from_cache_loop, fetch_data_loop_loop.
    apply gather_loop_ext. simpl. intros i tnid Hi.
    apply full_in_order_layers; [done|].
    rewrite Forall_forall in Hb. apply Hb. by eapply list_elem_of_lookup_2.
Qed.

(** ** Setup: [init_field] and [auto_cache] *)

(** The fields [names] with the widths of their columns in the store. *)
Definition widths (s : GraphCacheServer) (names : list string) : dict nat :=
  map (λ name, (name, size1 (column (graph s) name))) names.

Lemma foldl_dict_set_fresh {V} (f : string → V) (names : list string) (d : dict V) :
  NoDup names → (∀ name, name ∈ names → name ∉ keys d) →
  foldl (λ d name, dict_set d name (f name)) d names
  = d ++ map (λ name, (name, f name)) names.
Proof.
  revert d. induction names as [|name names IH]; intros d Hnd Hd; simpl.
  - by rewrite app_nil_r.
  - apply NoDup_cons in Hnd as [Hname Hnd].
    rewrite dict_set_notin by (apply Hd; left).
    rewrite IH; [by rewrite <- app_assoc | done |].
    intros name' Hin. unfold keys. rewrite fmap_app. simpl.
    rewrite elem_of_app, list_elem_of_singleton.
    intros [Hk | ->]; [|done]. eapply Hd; [right; exact Hin | exact Hk].
Qed.

Lemma init_loop_run (feats : dict Tensor) (f : string → nat)
    (names : list string) (s : GraphCacheServer) :
  Forall (λ name, ∃ t, dict_get feats name = Ok t ∧ size1 t = f name) names →
  ∃ td,
    for_ names (λ name,
      t ← lift (dict_get feats name);
      modify (λ self, set_dims (dict_set (dims self) name (size1 t)) self);;
      modify (λ self, set_total_dim (total_dim self + size1 t) self)) s
    = (Ok tt,
       set_total_dim td
         (set_dims (foldl (λ d name, dict_set d name (f name)) (dims s) names) s)).
Proof.
  intros Hnames.
  match goal with |- context [for_ names ?b _] =>
    remember b as body eqn:Hbody
  end.
  assert (Hstep : ∀ name t s, dict_get feats name = Ok t → body name s =
    (Ok tt, set_total_dim (total_dim s + size1 t)
              (set_dims (dict_set (dims s) name (size1 t)) s))).
  { intros name t s0 Ht. subst body. munfold. by rewrite Ht. }
  clear Hbody. revert s.
  induction Hnames as [|name names (t & Ht & Hf) _ IH]; intros s.
  - exists (total_dim s). by destruct s.
  - cbn [for_]. munfold. rewrite (Hstep name t s Ht).
    destruct (IH (set_total_dim (total_dim s + size1 t)
                    (set_dims (dict_set (dims s) name (size1 t)) s)))
      as (td & ->).
    exists td. simpl. by rewrite Hf.
Qed.

Lemma ground_truth_size1 s names nids name :
  name ∈ names →
  ∃ t, dict_get (ground_truth s names nids) name = Ok t ∧
       size1 t = size1 (column (graph s) name).
Proof.
  intros Hin. eexists. split; [by apply ground_truth_get|done].
Qed.

Lemma init_field_Ok_inv names s s1 :
  NoDup names → init_field names s = (Ok tt, s1) →
  store_serves s names [0] ∧
  ∃ td, s1 = set_total_dim td
               (set_dims (foldl (λ d name,
                            dict_set d name (size1 (column (graph s) name)))
                          (dims s) names) s).
Proof.
  intros Hnd. unfold init_field. munfold.
  destruct (get_feat_from_server s [0] names false) as [feats|e] eqn:Hfeats;
    [|discriminate].
  pose proof (get_feat_from_server_Ok_inv _ _ _ _ _ Hfeats) as Hserve.
  rewrite get_feat_from_server_Ok in Hfeats by done. injection Hfeats as <-.
  match goal with |- context [for_ names ?body ?s0] =>
    destruct (init_loop_run (ground_truth s names [0])
                (λ name, size1 (column (graph s) name)) names s0)
      as (td & Hrun);
    [| change (for_ names body s0 = (Ok tt,
         set_total_dim td
           (set_dims (foldl (λ d name,
                        dict_set d name (size1 (column (graph s) name)))
                      (dims s0) names) s0))) in Hrun; rewrite Hrun]
  end.
  - apply Forall_forall. intros name Hin. by apply ground_truth_size1.
  - intros [= <-]. split; [done|]. by exists td.
Qed.

(** The ids that [auto_cache] picks for a capability. *)
Definition cache_nid (s : GraphCacheServer) (dgl_g : DGLGraph) (cap : Z)
  : list nat :=
  if decide (cap > Z.of_nat (node_num s))%Z then arange (node_num s)
  else slice_to cap (argsort_descending (out_degrees dgl_g)).

Definition available (s : GraphCacheServer) : Z :=
  (total_memory (gpuid s) - max_memory_allocated (gpuid s)
   - 512 * 1024 * 1024)%Z.

Lemma auto_cache_Ok_inv dgl_g names s s2 :
  NoDup names → auto_cache dgl_g names s = (Ok tt, s2) →
  ∃ cap,
    int_div (available s) (Z.of_nat (total_dim s) * 4) = Ok cap ∧
    let s1 := set_capability cap s in
    let nids := cache_nid s dgl_g cap in
    store_serves s1 names nids ∧
    Forall (λ i, i < length (localid2cacheid s)) nids ∧
    s2 = populated nids (ground_truth s1 names nids)
           (bool_decide (cap > Z.of_nat (node_num s))%Z) s1.
Proof.
  intros Hnd. unfold auto_cache. munfold. fold (available s).
  destruct (int_div _ _) as [cap|e]; [|discriminate].
  intros Hrun. exists cap. split; [done|]. revert Hrun. simpl.
  unfold cache_nid.
  destruct (decide (cap > Z.of_nat (node_num s))%Z) as [Hcap|Hcap].
  - rewrite bool_decide_eq_true_2 by done.
    destruct (get_feat_from_server _ _ _ _) as [data|e] eqn:Hdata;
      [|discriminate].
    pose proof (get_feat_from_server_Ok_inv _ _ _ _ _ Hdata) as Hserve.
    rewrite get_feat_from_server_Ok in Hdata by done. injection Hdata as <-.
    intros (Hb & _ & Hs2)%cache_fix_data_Ok_inv. done.
  - rewrite bool_decide_eq_false_2 by done.
    destruct (get_feat_from_server _ _ _ _) as [data|e] eqn:Hdata;
      [|discriminate].
    pose proof (get_feat_from_server_Ok_inv _ _ _ _ _ Hdata) as Hserve.
    rewrite get_feat_from_server_Ok in Hdata by done. injection Hdata as <-.
    intros (Hb & _ & Hs2)%cache_fix_data_Ok_inv. done.
Qed.

(** ** The state that a first population from the store leaves *)

(** A server before any population, with its fields initialised. *)
Definition cold (s : GraphCacheServer) (names : list string) : Prop :=
  gpu_flag s = replicate (node_num s) false ∧
  cpu_flag s = replicate (node_num s) true ∧
  length (localid2cacheid s) = node_num s ∧
  gpu_fix_cache s = [] ∧
  dims s = widths s names.

Lemma cold_partitioned s names : cold s names → partitioned s.
Proof.
  intros (Hg & Hc & Hl & _). unfold partitioned.
  rewrite Hg, Hc, length_replicate, fmap_replicate. done.
Qed.

Lemma init_field_cold g n m dev names s1 :
  NoDup names →
  init_field names (__init__ g n m dev) = (Ok tt, s1) →
  cold s1 names ∧ graph s1 = g ∧ node_num s1 = n ∧ nid_map s1 = m ∧
  gpuid s1 = dev.
Proof.
  intros Hnd (_ & td & ->)%init_field_Ok_inv; [|done]. simpl.
  split; [|done]. unfold cold. simpl. rewrite length_replicate.
  repeat (split; [done|]).
  rewrite foldl_dict_set_fresh; [done|done|].
  intros name _. apply not_elem_of_nil.
Qed.

Lemma dict_set_same {V} (d : dict V) k v : dict_get d k = Ok v → dict_set d k v = d.
Proof.
  induction d as [|[k' v'] d IH]; simpl; [discriminate|].
  case_decide; [by intros [= ->]; subst | intros Hd; f_equal; auto].
Qed.

Lemma widths_get s names name :
  name ∈ names →
  dict_get (widths s names) name = Ok (size1 (column (graph s) name)).
Proof.
  unfold widths. induction names as [|name' names IH]; simpl.
  - by intros ?%elem_of_nil.
  - intros Hin. case_decide; [by subst|].
    apply IH. apply elem_of_cons in Hin as [->|]; done.
Qed.

Lemma keys_ground_truth s names nids : keys (ground_truth s names nids) = names.
Proof.
  unfold keys, ground_truth. induction names as [|name names IH]; [done|].
  simpl. f_equal. exact IH.
Qed.

Lemma keys_widths s names : keys (widths s names) = names.
Proof.
  unfold keys, widths. induction names as [|name names IH]; [done|].
  simpl. f_equal. exact IH.
Qed.

Lemma dims_of_ground_truth s names names' nids :
  names' ⊆ names →
  dims_of (ground_truth s names' nids) (widths s names) = widths s names.
Proof.
  unfold dims_of, ground_truth. induction names' as [|name names' IH]; [done|].
  intros Hsub. simpl. rewrite dict_set_same.
  - apply IH. intros x Hx. apply Hsub. by right.
  - apply widths_get. apply Hsub. left.
Qed.

Lemma dict_update_fresh {V W} (f : V → W) (data : dict V) (d : dict W) :
  NoDup (keys data) → (∀ k, k ∈ keys data → k ∉ keys d) →
  dict_update f data d = d ++ map (λ kv, (kv.1, f kv.2)) data.
Proof.
  unfold dict_update, keys. revert d.
  induction data as [|[k v] data IH]; intros d Hnd Hd; simpl.
  - by rewrite app_nil_r.
  - simpl in Hnd. apply NoDup_cons in Hnd as [Hk Hnd].
    rewrite dict_set_notin by (apply Hd; left).
    rewrite IH; [by rewrite <- app_assoc | done |].
    intros k' Hin. unfold keys. rewrite fmap_app. simpl.
    rewrite elem_of_app, list_elem_of_singleton.
    intros [Hk' | ->]; [|done]. eapply Hd; [right; exact Hin | exact Hk'].
Qed.

Lemma cache_of_fresh (data : dict Tensor) : NoDup (keys data) → cache_of data [] = data.
Proof.
  intros Hnd. rewrite cache_of_eq, dict_update_fresh; [|done|].
  - simpl. unfold cuda. clear. induction data as [|[k v] data IH]; [done|].
    simpl. by rewrite IH.
  - intros k _. apply not_elem_of_nil.
Qed.

Lemma scatter_fill_lookup {A} (l : list A) (idx : list nat) (v : A) (id : nat) :
  id < length l →
  scatter l idx (replicate (length idx) v) !! id
  = if decide (id ∈ idx) then Some v else l !! id.
Proof.
  revert l. induction idx as [|i idx IH]; intros l Hid.
  - rewrite decide_False; [done|]. apply not_elem_of_nil.
  - cbn [length replicate scatter]. rewrite IH by (by rewrite length_insert).
    destruct (decide (id ∈ idx)) as [Hin|Hnin].
    + rewrite decide_True; [done|]. by right.
    + destruct (decide (id = i)) as [->|Hne].
      * rewrite decide_True by left. by apply list_lookup_insert_eq.
      * rewrite decide_False.
        -- by apply list_lookup_insert_ne.
        -- intros [?|?]%elem_of_cons; done.
Qed.

(** What a first population with rows of the store leaves. *)
Lemma populated_state s names nids is_full :
  cold s names → NoDup names → NoDup nids →
  Forall (λ id, id < node_num s) nids →
  let s2 := populated nids (ground_truth s names nids) is_full s in
  partitioned s2 ∧
  dims s2 = widths s names ∧
  gpu_fix_cache s2 = ground_truth s names nids ∧
  (∀ id, id < node_num s →
     gpu_flag s2 !! id = Some (bool_decide (id ∈ nids))) ∧
  (∀ i id, nids !! i = Some id → localid2cacheid s2 !! id = Some i).
Proof.
  intros Hcold Hnames Hnids Hb s2.
  pose proof (cold_partitioned s names Hcold) as Hp.
  destruct Hcold as (Hg & Hc & Hl & Hcache & Hdims).
  split; [by apply populated_partitioned|].
  split. { simpl. rewrite Hdims. by apply dims_of_ground_truth. }
  split. { simpl. rewrite Hcache. apply cache_of_fresh.
           by rewrite keys_ground_truth. }
  split.
  - intros id Hid. simpl. rewrite scatter_fill_lookup
      by (by rewrite Hg, length_replicate).
    case_decide.
    + by rewrite bool_decide_eq_true_2.
    + rewrite bool_decide_eq_false_2 by done.
      rewrite Hg. by apply lookup_replicate_2.
  - intros i id Hi. simpl.
    rewrite (scatter_lookup _ _ _ i); [| done | by rewrite Hl | apply length_arange | done].
    unfold arange. apply lookup_seq_lt. by apply lookup_lt_Some in Hi.
Qed.



Lemma store_serves_sub s names nids nids' :
  nids' ⊆ nids → store_serves s names nids → store_serves s names nids'.
Proof.
  intros Hsub [Hids Hnames]. split.
  - apply Forall_forall. intros id Hid. rewrite Forall_forall in Hids. auto.
  - eapply Forall_impl; [exact Hnames|]. intros name [Hk Hb]. split; [done|].
    apply Forall_forall. intros id Hid. rewrite Forall_forall in Hb. auto.
Qed.

Lemma select_subseteq {A} (l : list A) (mask : list bool) : select l mask ⊆ l.
Proof.
  revert mask. induction l as [|x l IH]; intros [|b mask]; simpl; try done.
  - intros y Hy. by apply elem_of_nil in Hy.
  - destruct b.
    + intros y [->|Hy]%elem_of_cons; [left | right; by eapply IH].
    + intros y Hy. right. by eapply IH.
Qed.


Lemma scatter_arange (l : list nat) :
  scatter l (arange (length l)) (arange (length l)) = arange (length l).
Proof.
  apply list_eq_same_length with (length l).
  - apply length_arange.
  - by rewrite scatter_length.
  - intros i x y Hi Hx Hy.
    rewrite (scatter_lookup _ _ _ i) in Hx.
    + congruence.
    + apply NoDup_seq.
    + apply Forall_seq. intros j Hj. lia.
    + done.
    + unfold arange. by apply lookup_seq_lt.
Qed.

(** The full branch: the population with all ids in order leaves a full
    cache in id order. *)
Lemma populated_full_in_order s names :
  cold s names → NoDup names →
  full_in_order
    (populated (arange (node_num s))
       (ground_truth s names (arange (node_num s))) true s).
Proof.
  intros Hcold Hnames.
  assert (Hb : Forall (λ id, id < node_num s) (arange (node_num s))).
  { apply Forall_seq. intros j Hj. lia. }
  destruct (populated_state s names (arange (node_num s)) true Hcold Hnames
              (NoDup_seq _ _) Hb) as (Hp & Hdims & Hcache & Hflag & Hslot).
  set (s2 := populated _ _ _ s) in *.
  destruct Hcold as (Hg & Hc & Hl & _).
  split; [done|]. split; [by rewrite Hcache, keys_ground_truth|].
  split; [|split; [|split]].
  - apply Forall_forall. intros b Hin.
    apply list_elem_of_lookup_1 in Hin as [id Hid].
    pose proof (lookup_lt_Some _ _ _ Hid) as Hlt.
    destruct Hp as (Hlen & _). rewrite Hlen in Hlt. simpl in Hlt.
    rewrite (Hflag id Hlt) in Hid. injection Hid as <-.
    apply bool_decide_eq_true_2. unfold arange. apply elem_of_seq. lia.
  - simpl. rewrite length_arange, <- Hl. apply scatter_arange.
  - rewrite Hcache. unfold ground_truth. apply Forall_fmap.
    apply Forall_forall. intros name _. unfold size0, gathered. simpl.
    rewrite !length_map. apply length_arange.
  - rewrite Hdims, Hcache. unfold widths, ground_truth. rewrite map_map. done.
Qed.

(** ** A gather whose layers all succeed *)

Lemma gather_loop_Ok
    (layer : GraphCacheServer → list nat → result (dict Tensor))
    (F : list nat → dict Tensor) (s : GraphCacheServer) (L : list (list nat)) :
  (∀ tnid, tnid ∈ L → layer s tnid = Ok (F tnid)) →
  ∀ m k frames, k + m = length L → length frames = length L →
    for_ (seq k m) (gather_layer layer) (mkWorld s (mkNodeFlow L frames))
    = (Ok tt, mkWorld s (mkNodeFlow L
         (take k frames ++ map F (take m (drop k L)) ++ drop (k + m) frames))).
Proof.
  intros Hlayer. induction m as [|m IH]; intros k frames Hk Hlen.
  - simpl. rewrite Nat.add_0_r, take_drop. done.
  - cbn [seq for_]. munfold. rewrite gather_layer_run. simpl.
    assert (Hlt : k < length L) by lia.
    apply lookup_lt_is_Some in Hlt as [tnid Htnid]. rewrite Htnid.
    rewrite Hlayer by (by eapply list_elem_of_lookup_2).
    unfold set_node_frame. simpl. rewrite decide_True by lia.
    rewrite IH by (rewrite ?length_insert; lia).
    f_equal. f_equal. f_equal.
    assert (Hk' : k < length frames) by lia.
    rewrite (take_S_r _ _ (F tnid)) by (by apply list_lookup_insert_eq).
    rewrite take_insert_ge by lia.
    rewrite drop_insert_lt by lia.
    rewrite (drop_S L tnid k Htnid). simpl.
    rewrite <- app_assoc. simpl. by rewrite Nat.add_succ_r.
Qed.

Lemma gather_Ok
    (layer : GraphCacheServer → list nat → result (dict Tensor))
    (F : list nat → dict Tensor) (s : GraphCacheServer) (nf : NodeFlow) :
  (∀ tnid, tnid ∈ layers nf → layer s tnid = Ok (F tnid)) →
  length (_node_frames nf) = length (layers nf) →
  for_ (seq 0 (num_layers nf)) (gather_layer layer) (mkWorld s nf)
  = (Ok tt, mkWorld s (mkNodeFlow (layers nf) (map F (layers nf)))).
Proof.
  intros Hlayer Hlen. destruct nf as [L frames]. simpl in *.
  unfold num_layers. simpl.
  rewrite (gather_loop_Ok layer F s L Hlayer (length L) 0 frames eq_refl Hlen).
  rewrite drop_0, firstn_all, (drop_ge frames) by lia.
  by rewrite app_nil_r.
Qed.

Lemma NoDup_slice_to {A} (stop : Z) (l : list A) : NoDup l → NoDup (slice_to stop l).
Proof.
  intros Hnd. unfold slice_to.
  case_decide; (eapply sublist_NoDup; [exact Hnd | apply sublist_take]).
Qed.

(** ** The gather after setup *)

(** [torch.argsort] returns a permutation of the positions of its argument,
    by descending key. *)
Hypothesis argsort_permutation :
  ∀ l, argsort_descending l ≡ₚ seq 0 (length l).
Hypothesis argsort_sorted :
  ∀ l i j a b, i ≤ j →
    argsort_descending l !! i = Some a → argsort_descending l !! j = Some b →
    l !!! b ≤ l !!! a.

Lemma cache_nid_NoDup s dgl_g cap : NoDup (cache_nid s dgl_g cap).
Proof.
  unfold cache_nid. case_decide; [apply NoDup_seq|].
  apply NoDup_slice_to. rewrite argsort_permutation. apply NoDup_seq.
Qed.


(** The store has a row in every column for every id that [nid_map] gives,
    and [nid_map] covers the local ids. *)
Definition store_covers (g : dict Tensor) (m : list nat) (n : nat) : Prop :=
  n ≤ length m ∧ Forall (λ kv, Forall (λ gid, gid < size0 kv.2) m) g.

Lemma store_covers_serves s names tnid :
  store_covers (graph s) (nid_map s) (node_num s) →
  Forall (λ name, name ∈ keys (graph s)) names →
  Forall (λ id, id < node_num s) tnid →
  store_serves s names tnid.
Proof.
  intros [Hn Hcols] Hnames Hb. split.
  - eapply Forall_impl; [exact Hb|]. intros id Hid. simpl in *. lia.
  - eapply Forall_impl; [exact Hnames|]. intros name Hname. simpl in *.
    split; [done|]. eapply Forall_impl; [exact Hb|]. intros id Hid. simpl in *.
    pose proof (column_get _ _ Hname) as Hcol.
    apply dict_get_elem_of in Hcol.
    rewrite Forall_forall in Hcols. specialize (Hcols _ Hcol). simpl in Hcols.
    rewrite Forall_forall in Hcols. apply Hcols.
    apply list_elem_of_lookup_total_2. lia.
Qed.





(** ** Placement *)

Lemma length_argsort l : length (argsort_descending l) = length l.
Proof. rewrite argsort_permutation. apply length_seq. Qed.

Lemma elem_of_argsort l id : id < length l → id ∈ argsort_descending l.
Proof. intros Hid. rewrite argsort_permutation. apply elem_of_seq. lia. Qed.

(** A successful [auto_cache] is a successful [cache_fix_data] on the ids
    picked for the capability it has stored. *)
Lemma auto_cache_Ok_call dgl_g names s s2 :
  auto_cache dgl_g names s = (Ok tt, s2) →
  ∃ cap data,
    cache_fix_data (cache_nid s dgl_g cap) data
      (bool_decide (cap > Z.of_nat (node_num s))%Z) (set_capability cap s)
    = (Ok tt, s2).
Proof.
  unfold auto_cache. munfold.
  destruct (int_div _ _) as [cap|e]; [|discriminate]. simpl.
  intros Hrun. exists cap. revert Hrun. unfold cache_nid.
  destruct (decide (cap > Z.of_nat (node_num s))%Z) as [Hcap|Hcap].
  - rewrite bool_decide_eq_true_2 by done.
    destruct (get_feat_from_server _ _ _ _) as [data|e]; [|discriminate].
    intros Hrun. by exists data.
  - rewrite bool_decide_eq_false_2 by done.
    destruct (get_feat_from_server _ _ _ _) as [data|e]; [|discriminate].
    intros Hrun. by exists data.
Qed.

(** What a successful [auto_cache] places, from any state. *)
Lemma auto_cache_placement
    (names : list string) (dgl_g : DGLGraph) (s s2 : GraphCacheServer) :
  length (out_degrees dgl_g) = node_num s →
  auto_cache dgl_g names s = (Ok tt, s2) →
  let n := node_num s in
  let cap := capability s2 in
  let ids := take (Z.to_nat cap) (argsort_descending (out_degrees dgl_g)) in
  (full_cached s2 = true ↔ (cap > Z.of_nat n)%Z) ∧
  ((cap > Z.of_nat n)%Z →
     cached_num s2 = n ∧
     (∀ id, id < n → gpu_flag s2 !! id = Some true) ∧
     index (localid2cacheid s2) (arange n) = Ok (arange n)) ∧
  ((0 ≤ cap ≤ Z.of_nat n)%Z →
     cached_num s2 = Z.to_nat cap ∧
     length ids = Z.to_nat cap ∧
     NoDup ids ∧
     (∀ id, id ∈ ids → gpu_flag s2 !! id = Some true) ∧
     (∀ id, id ∉ ids → gpu_flag s2 !! id = gpu_flag s !! id) ∧
     index (localid2cacheid s2) ids = Ok (arange (Z.to_nat cap)) ∧
     (∀ a b, a ∈ ids → b < n → b ∉ ids →
        out_degrees dgl_g !!! b ≤ out_degrees dgl_g !!! a)).
Proof.
  intros Hdeg (cap & data & Hrun)%auto_cache_Ok_call.
  pose proof (cache_fix_data_Ok_bounds _ _ _ _ _ Hrun) as [_ Hbg].
  pose proof (cache_fix_data_Ok_inv _ _ _ _ _ Hrun) as (Hb & _ & ->).
  assert (Hnd : NoDup (cache_nid s dgl_g cap)) by apply cache_nid_NoDup.
  pose proof (populated_slots (cache_nid s dgl_g cap) data
                (bool_decide (cap > Z.of_nat (node_num s))%Z)
                (set_capability cap s) Hnd Hb) as Hslots.
  assert (Hflag : ∀ id, id ∈ cache_nid s dgl_g cap →
            scatter (gpu_flag s) (cache_nid s dgl_g cap)
              (replicate (length (cache_nid s dgl_g cap)) true) !! id
            = Some true).
  { intros id Hin. rewrite scatter_fill_lookup.
    - by rewrite decide_True.
    - rewrite Forall_forall in Hbg. by apply Hbg. }
  cbn [capability populated full_cached cached_num set_capability
       gpu_flag node_num] in *.
  split; [apply bool_decide_eq_true|]. split.
  - intros Hcap. unfold cache_nid in *.
    rewrite decide_True in * by done. rewrite length_arange in *.
    split; [done|]. split; [|done].
    intros id Hid. apply Hflag. unfold arange. apply elem_of_seq. lia.
  - intros [Hlo Hhi]. unfold cache_nid in *.
    rewrite decide_False in * by lia.
    unfold slice_to in *. rewrite decide_True in * by done.
    set (ids := take (Z.to_nat cap) (argsort_descending (out_degrees dgl_g))) in *.
    assert (Hlen : length ids = Z.to_nat cap).
    { unfold ids. apply length_take_le. rewrite length_argsort. lia. }
    rewrite Hlen in *.
    split; [done|]. split; [done|]. split; [done|]. split; [done|].
    split; [|split; [done|]].
    + intros id Hid. by apply scatter_lookup_notin.
    + intros a b Ha Hlt Hb'.
      apply elem_of_take in Ha as (i & Hi & Hicap).
      assert (Hbin : b ∈ argsort_descending (out_degrees dgl_g)).
      { apply elem_of_argsort. lia. }
      apply list_elem_of_lookup_1 in Hbin as [j Hj].
      apply (argsort_sorted _ i j a b); [|done|done].
      destruct (decide (i ≤ j)) as [|Hji]; [done|]. exfalso. apply Hb'.
      apply elem_of_take. exists j. split; [done|lia].
Qed.

(** C4, as the code has it.  After a successful [auto_cache], from any
    state, for a local graph of [node_num] nodes: the cache is marked full
    exactly when the capability is above [node_num] (strictly), and then
    every node is flagged on the device, at the slot of its own id.  With a
    capability between 0 and [node_num] the ids placed are the first
    [capability] ids of the descending argsort of the out-degrees: they are
    [capability] ids without repeats, placed at the slots 0, 1, ... in this
    order and flagged on the device, while the flag of every other id is as
    before, and no id placed has a smaller out-degree than one that is not.
    The capability and the out-degrees alone determine these ids, ties
    included: a second run on any server of as many nodes that stores the
    same capability places the same ids at the same slots. *)
Theorem auto_cache_selection
    (names : list string) (dgl_g : DGLGraph) (s s2 : GraphCacheServer) :
  length (out_degrees dgl_g) = node_num s →
  auto_cache dgl_g names s = (Ok tt, s2) →
  let n := node_num s in
  let cap := capability s2 in
  let ids := take (Z.to_nat cap) (argsort_descending (out_degrees dgl_g)) in
  (full_cached s2 = true ↔ (cap > Z.of_nat n)%Z) ∧
  ((cap > Z.of_nat n)%Z →
     cached_num s2 = n ∧
     (∀ id, id < n → gpu_flag s2 !! id = Some true) ∧
     index (localid2cacheid s2) (arange n) = Ok (arange n)) ∧
  ((0 ≤ cap ≤ Z.of_nat n)%Z →
     cached_num s2 = Z.to_nat cap ∧
     length ids = Z.to_nat cap ∧
     NoDup ids ∧
     (∀ id, id ∈ ids → gpu_flag s2 !! id = Some true) ∧
     (∀ id, id ∉ ids → gpu_flag s2 !! id = gpu_flag s !! id) ∧
     index (localid2cacheid s2) ids = Ok (arange (Z.to_nat cap)) ∧
     (∀ a b, a ∈ ids → b < n → b ∉ ids →
        out_degrees dgl_g !!! b ≤ out_degrees dgl_g !!! a) ∧
     (∀ names' s' s2',
        node_num s' = n →
        auto_cache dgl_g names' s' = (Ok tt, s2') →
        capability s2' = cap →
        (∀ id, id ∈ ids → gpu_flag s2' !! id = Some true) ∧
        (∀ id, id ∉ ids → gpu_flag s2' !! id = gpu_flag s' !! id) ∧
        index (localid2cacheid s2') ids = Ok (arange (Z.to_nat cap)))).
Proof.
  intros Hdeg Hrun n cap ids.
  destruct (auto_cache_placement names dgl_g s s2 Hdeg Hrun)
    as (Hfull & Hall & Hpart).
  split; [done|]. split; [done|]. intros Hcap.
  destruct (Hpart Hcap) as (Hnum & Hlen & Hnd & Hin & Hout & Hslots & Hdegs).
  repeat (split; [done|]).
  intros names' s' s2' Hn' Hrun' Hcap'.
  subst n cap ids.
  assert (Hdeg' : length (out_degrees dgl_g) = node_num s') by congruence.
  destruct (auto_cache_placement names' dgl_g s' s2' Hdeg' Hrun')
    as (_ & _ & Hpart').
  cbv zeta in Hpart'. rewrite Hcap', Hn' in Hpart'.
  destruct (Hpart' Hcap) as (_ & _ & _ & Hin' & Hout' & Hslots' & _).
  done.
Qed.

(** ** Capability *)

Lemma cache_fix_data_capability nids data is_full s :
  capability (cache_fix_data nids data is_full s).2 = capability s.
Proof.
  unfold cache_fix_data. munfold.
  destruct (index_put nids _ (localid2cacheid s)) as [[[]|e] l2c]; [|done].
  run_cache_loop (length nids) s2 Hrun Hunt Htab. clear Htab.
  rewrite Hrun. unfold untabled in Hunt. simpl in Hunt.
  assert (Hcap : capability s2 = capability s) by congruence.
  case_decide; [|done].
  destruct (index_fill nids false (cpu_flag s2)) as [[[]|e] cf]; [|done].
  simpl. destruct (index_fill nids true _) as [[[]|e] gf]; done.
Qed.

(** With memory to spare and fields of positive width, the capability that
    [auto_cache] stores is the floor of the quotient, however the call
    ends. *)
Lemma auto_cache_capability dgl_g names s :
  (0 ≤ available s)%Z → 0 < total_dim s →
  capability (auto_cache dgl_g names s).2
  = (available s / (Z.of_nat (total_dim s) * 4))%Z.
Proof.
  intros Hav Hdim. unfold auto_cache. munfold. fold (available s).
  unfold int_div. rewrite decide_False by lia. simpl.
  rewrite Z.quot_div_nonneg by lia.
  case_decide.
  - destruct (get_feat_from_server _ _ _ _); [|done].
    by rewrite cache_fix_data_capability.
  - destruct (get_feat_from_server _ _ _ _); [|done].
    by rewrite cache_fix_data_capability.
Qed.

(** A capability of exactly 0 places nothing. *)
Lemma auto_cache_zero_capability dgl_g names s s2 :
  NoDup names → auto_cache dgl_g names s = (Ok tt, s2) →
  capability s2 = 0%Z →
  gpu_flag s2 = gpu_flag s ∧ cpu_flag s2 = cpu_flag s ∧ cached_num s2 = 0 ∧
  full_cached s2 = false.
Proof.
  intros Hnames (cap & _ & _ & _ & ->)%auto_cache_Ok_inv Hcap; [|done].
  simpl in Hcap. subst cap. unfold cache_nid.
  rewrite decide_False by lia. rewrite bool_decide_eq_false_2 by lia. done.
Qed.

(** * Further properties of the methods *)

(** ** [get_feat_from_server] *)

Lemma foldM_build_get {V} (F : string → result V) (G : string → V)
    (names : list string) (acc r : dict V) :
  (∀ name, name ∈ names → F name = Ok (G name)) →
  foldM (λ df name, v ← F name; Ok (dict_set df name v)) acc names = Ok r →
  ∀ name, dict_get r name
          = if decide (name ∈ names) then Ok (G name) else dict_get acc name.
Proof.
  revert acc. induction names as [|name0 names IH]; intros acc HF Hrun name.
  - injection Hrun as <-. rewrite decide_False; [done|apply not_elem_of_nil].
  - cbn [foldM] in Hrun. rewrite HF, !bind_Ok in Hrun by left.
    rewrite (IH _ (λ x Hx, HF x (list_elem_of_further _ _ _ Hx)) Hrun name).
    destruct (decide (name ∈ names)) as [Hin|Hnin].
    + rewrite decide_True; [done|by right].
    + destruct (decide (name = name0)) as [->|Hne].
      * rewrite decide_True by left. apply dict_get_set_eq.
      * rewrite decide_False.
        -- by apply dict_get_set_ne.
        -- intros [?|?]%elem_of_cons; done.
Qed.

Lemma foldM_build_total {V} (F : string → result V) (G : string → V)
    (names : list string) (acc : dict V) :
  (∀ name, name ∈ names → F name = Ok (G name)) →
  ∃ r, foldM (λ df name, v ← F name; Ok (dict_set df name v)) acc names = Ok r.
Proof.
  revert acc. induction names as [|name0 names IH]; intros acc HF.
  - by exists acc.
  - cbn [foldM]. rewrite HF, !bind_Ok by left.
    apply IH. intros x Hx. apply HF. by right.
Qed.

Lemma foldM_Raise_inv {A B} (f : B → A → result B) (b : B) (l : list A) e :
  foldM f b l = Raise e → ∃ b' x, x ∈ l ∧ f b' x = Raise e.
Proof.
  revert b. induction l as [|x l IH]; intros b Hrun; [discriminate|].
  cbn [foldM] in Hrun. destruct (f b x) as [b'|e'] eqn:Hstep.
  - rewrite bind_Ok in Hrun. destruct (IH _ Hrun) as (b2 & y & Hy & Hf).
    exists b2, y. split; [by right|done].
  - injection Hrun as ->. exists b, x. split; [left|done].
Qed.

Lemma index_Raise {A} (l : list A) (idx : list nat) e :
  index l idx = Raise e → e = IndexError ∧ ¬ Forall (λ i, i < length l) idx.
Proof.
  unfold index. induction idx as [|i idx IH]; simpl; [discriminate|].
  destruct (l !! i) as [x|] eqn:Hi; simpl.
  - destruct (traverse _ idx) as [ys|e'] eqn:Hys; simpl; [discriminate|].
    intros [= ->]. destruct (IH eq_refl) as [-> Hnot]. split; [done|].
    intros Hall. apply Hnot. by apply Forall_cons in Hall as [_ ?].
  - intros [= <-]. split; [done|]. intros Hall.
    apply Forall_cons in Hall as [Hlt _]. apply lookup_ge_None in Hi. lia.
Qed.

Lemma index_not_bound {A} (l : list A) (idx : list nat) :
  ¬ Forall (λ i, i < length l) idx → index l idx = Raise IndexError.
Proof.
  intros Hnot. destruct (index l idx) as [l'|e] eqn:Hrun.
  - destruct Hnot. by eapply index_Ok_bound.
  - by apply index_Raise in Hrun as [-> _].
Qed.

Lemma dict_get_Raise {V} (d : dict V) k e : dict_get d k = Raise e → e = KeyError.
Proof.
  induction d as [|[k' v] d IH]; simpl; [by intros [= <-]|].
  case_decide; [discriminate|auto].
Qed.

Lemma tensor_index_Raise col idx e : tensor_index col idx = Raise e → e = IndexError.
Proof.
  unfold tensor_index. destruct (index (rows col) idx) as [rs|e'] eqn:Hrs; simpl.
  - discriminate.
  - intros [= <-]. by apply index_Raise in Hrs as [-> _].
Qed.

Lemma get_feat_from_server_total s nids names to_gpu :
  store_serves s names nids →
  ∃ frame, get_feat_from_server s nids names to_gpu = Ok frame.
Proof.
  intros [Hids Hnames]. unfold get_feat_from_server.
  rewrite index_Ok, bind_Ok by done.
  destruct (foldM_build_total
    (λ name, col ← dict_get (graph s) name;
             t ← tensor_index col (map (λ i, nid_map s !!! i) nids);
             Ok (if to_gpu then cuda t else t))
    (λ name, gathered (column (graph s) name)
               (map (λ id, nid_map s !!! id) nids)) names []) as [r Hr].
  - intros name Hin. rewrite Forall_forall in Hnames.
    destruct (Hnames name Hin) as [Hkey Hb].
    rewrite column_get, bind_Ok by done.
    rewrite tensor_index_Ok, bind_Ok by (by rewrite Forall_fmap).
    by destruct to_gpu.
  - exists r. rewrite <- Hr. apply foldM_ext. intros df name.
    destruct (dict_get (graph s) name) as [col|]; simpl; [|done].
    by destruct (tensor_index col _).
Qed.

Lemma get_feat_from_server_get s nids names to_gpu frame name :
  get_feat_from_server s nids names to_gpu = Ok frame → name ∈ names →
  dict_get frame name
  = Ok (gathered (column (graph s) name) (map (λ id, nid_map s !!! id) nids)).
Proof.
  intros Hrun Hname.
  pose proof (get_feat_from_server_Ok_inv _ _ _ _ _ Hrun) as [Hids Hnames].
  unfold get_feat_from_server in Hrun.
  rewrite index_Ok, bind_Ok in Hrun by done.
  rewrite (foldM_build_get
    (λ name, col ← dict_get (graph s) name;
             t ← tensor_index col (map (λ i, nid_map s !!! i) nids);
             Ok (if to_gpu then cuda t else t))
    (λ name, gathered (column (graph s) name)
               (map (λ id, nid_map s !!! id) nids)) names [] frame).
  - by rewrite decide_True.
  - intros name' Hin. rewrite Forall_forall in Hnames.
    destruct (Hnames name' Hin) as [Hkey Hb].
    rewrite column_get, bind_Ok by done.
    rewrite tensor_index_Ok, bind_Ok by (by rewrite Forall_fmap).
    by destruct to_gpu.
  - rewrite <- Hrun. apply foldM_ext. intros df name'.
    destruct (dict_get (graph s) name') as [col|]; simpl; [|done].
    by destruct (tensor_index col _).
Qed.

Lemma get_feat_from_server_Raise s nids names to_gpu e :
  get_feat_from_server s nids names to_gpu = Raise e →
  e = IndexError ∨ e = KeyError.
Proof.
  unfold get_feat_from_server.
  destruct (index (nid_map s) nids) as [gids|e'] eqn:Hgids.
  - rewrite bind_Ok. intros (df & name & _ & Hstep)%foldM_Raise_inv.
    destruct (dict_get (graph s) name) as [col|e1] eqn:Hcol.
    + rewrite bind_Ok in Hstep.
      destruct (tensor_index col gids) as [t|e2] eqn:Ht.
      * discriminate.
      * injection Hstep as <-. left. by eapply tensor_index_Raise.
    + injection Hstep as <-. right. by eapply dict_get_Raise.
  - intros [= <-]. left. by apply index_Raise in Hgids as [-> _].
Qed.

(** X1. What [get_feat_from_server] returns: for every asked field a tensor
    of the width of the column of the store, with one row per asked id in
    the order of the ids (repeats included), row [j] being the row of the
    store at [nid_map] of the [j]-th id; for a field list without repeats
    the fields of the result are the asked fields in their order. *)
Theorem get_feat_from_server_rows (s : GraphCacheServer) (nids : list nat)
    (names : list string) (to_gpu : bool) (frame : dict Tensor) :
  get_feat_from_server s nids names to_gpu = Ok frame →
  (NoDup names → keys frame = names) ∧
  ∀ name, name ∈ names →
    ∃ t col,
      dict_get frame name = Ok t ∧
      dict_get (graph s) name = Ok col ∧
      size1 t = size1 col ∧
      length (rows t) = length nids ∧
      ∀ j id, nids !! j = Some id →
        ∃ gid, nid_map s !! id = Some gid ∧
               is_Some (rows col !! gid) ∧
               rows t !! j = rows col !! gid.
Proof.
  intros Hrun. split.
  - intros Hnd.
    pose proof (get_feat_from_server_Ok_inv _ _ _ _ _ Hrun) as Hserve.
    rewrite get_feat_from_server_Ok in Hrun by done. injection Hrun as <-.
    apply keys_ground_truth.
  - intros name Hname.
    pose proof (get_feat_from_server_Ok_inv _ _ _ _ _ Hrun) as Hserve.
    exists (gathered (column (graph s) name) (map (λ id, nid_map s !!! id) nids)),
      (column (graph s) name).
    split; [by eapply get_feat_from_server_get|].
    destruct Hserve as [Hids Hnames]. rewrite Forall_forall in Hnames.
    destruct (Hnames name Hname) as [Hkey Hb].
    split; [by apply column_get|]. split; [done|].
    split; [unfold gathered; simpl; by rewrite !length_map|].
    intros j id Hj. rewrite Forall_forall in Hids. rewrite Forall_forall in Hb.
    pose proof (list_elem_of_lookup_2 _ _ _ Hj) as Hin.
    exists (nid_map s !!! id).
    split; [by apply list_lookup_lookup_total_lt, Hids|].
    split; [by apply lookup_lt_is_Some, Hb|].
    unfold gathered. simpl. rewrite map_map.
    rewrite (list_lookup_lookup_total_lt (rows _) _ (Hb id Hin)).
    change (map ?f nids) with (f <$> nids).
    by rewrite list_lookup_fmap, Hj.
Qed.

(** X2. [get_feat_from_server] returns normally exactly when every asked id
    is within [nid_map], every asked field is a column of the store, and
    the column has a row for the global id of every asked id; otherwise it
    raises IndexError or KeyError, nothing else. *)
Theorem get_feat_from_server_succeeds_iff (s : GraphCacheServer)
    (nids : list nat) (names : list string) (to_gpu : bool) :
  ((∃ frame, get_feat_from_server s nids names to_gpu = Ok frame) ↔
     Forall (λ id, id < length (nid_map s)) nids ∧
     Forall (λ name, ∃ col, dict_get (graph s) name = Ok col ∧
               Forall (λ id, nid_map s !!! id < size0 col) nids) names) ∧
  (∀ e, get_feat_from_server s nids names to_gpu = Raise e →
     e = IndexError ∨ e = KeyError).
Proof.
  split; [split|].
  - intros [frame [Hids Hnames]%get_feat_from_server_Ok_inv].
    split; [done|]. eapply Forall_impl; [exact Hnames|].
    intros name [Hkey Hb]. exists (column (graph s) name).
    split; [by apply column_get | done].
  - intros [Hids Hnames]. apply get_feat_from_server_total. split; [done|].
    eapply Forall_impl; [exact Hnames|]. intros name (col & Hcol & Hb).
    split; [by eapply dict_get_Ok_keys|]. unfold column. by rewrite Hcol.
  - apply get_feat_from_server_Raise.
Qed.

(** ** [init_field] *)

Lemma foldl_dict_set_get {V} (f : string → V) (names : list string)
    (d : dict V) (name : string) :
  dict_get (foldl (λ d n, dict_set d n (f n)) d names) name
  = if decide (name ∈ names) then Ok (f name) else dict_get d name.
Proof.
  revert d. induction names as [|n0 names IH]; intros d.
  - rewrite decide_False; [done|apply not_elem_of_nil].
  - cbn [foldl]. rewrite IH. destruct (decide (name ∈ names)) as [Hin|Hnin].
    + rewrite decide_True; [done|by right].
    + destruct (decide (name = n0)) as [->|Hne].
      * rewrite decide_True by left. apply dict_get_set_eq.
      * rewrite decide_False.
        -- by apply dict_get_set_ne.
        -- intros [?|?]%elem_of_cons; done.
Qed.

Lemma init_loop_total (feats : dict Tensor) (f : string → nat)
    (names : list string) (s : GraphCacheServer) :
  Forall (λ name, ∃ t, dict_get feats name = Ok t ∧ size1 t = f name) names →
  for_ names (λ name,
    t ← lift (dict_get feats name);
    modify (λ self, set_dims (dict_set (dims self) name (size1 t)) self);;
    modify (λ self, set_total_dim (total_dim self + size1 t) self)) s
  = (Ok tt,
     set_total_dim (total_dim s + sum_list (f <$> names))
       (set_dims (foldl (λ d name, dict_set d name (f name)) (dims s) names) s)).
Proof.
  intros Hnames.
  match goal with |- context [for_ names ?b _] =>
    remember b as body eqn:Hbody
  end.
  assert (Hstep : ∀ name t s, dict_get feats name = Ok t → body name s =
    (Ok tt, set_total_dim (total_dim s + size1 t)
              (set_dims (dict_set (dims s) name (size1 t)) s))).
  { intros name t s0 Ht. subst body. munfold. by rewrite Ht. }
  clear Hbody. revert s.
  induction Hnames as [|name names (t & Ht & Hf) _ IH]; intros s.
  - simpl. rewrite Nat.add_0_r. by destruct s.
  - cbn [for_]. munfold. rewrite (Hstep name t s Ht). rewrite IH.
    simpl. rewrite Hf. rewrite Nat.add_assoc. done.
Qed.

(** The run of [init_field]: the probe of node 0, then the tables. *)
Lemma init_field_run names s :
  init_field names s =
  match get_feat_from_server s [0] names false with
  | Ok _ =>
      (Ok tt,
       set_total_dim
         (sum_list ((λ name, size1 (column (graph s) name)) <$> names))
         (set_dims (foldl (λ d name,
                      dict_set d name (size1 (column (graph s) name)))
                    (dims s) names) s))
  | Raise e => (Raise e, s)
  end.
Proof.
  unfold init_field. munfold.
  destruct (get_feat_from_server s [0] names false) as [feats|e] eqn:Hfeats;
    [|done].
  match goal with |- context [for_ names ?body ?s0] =>
    pose proof (init_loop_total feats
                  (λ name, size1 (column (graph s) name)) names s0) as Hrun;
    match type of Hrun with
    | _ → _ = ?rhs => assert (Hrun' : for_ names body s0 = rhs)
    end
  end.
  { apply Hrun. apply Forall_forall. intros name Hin. eexists. split.
    - by eapply get_feat_from_server_get.
    - done. }
  rewrite Hrun'. done.
Qed.

(** X3. When [init_field] returns normally, [total_dim] is the sum of the
    widths of the store columns of the given fields (a repeated field counts
    each time, whatever [total_dim] was before), [dims] holds the width of
    each given field and what it held before for every other field, and
    nothing else of the server has changed. *)
Theorem init_field_result (names : list string) (s s1 : GraphCacheServer) :
  init_field names s = (Ok tt, s1) →
  (∃ ws, Forall2 (λ name w, ∃ col, dict_get (graph s) name = Ok col ∧
                                   size1 col = w ∧
                                   dict_get (dims s1) name = Ok w) names ws ∧
         total_dim s1 = sum_list ws) ∧
  (∀ name, name ∉ names → dict_get (dims s1) name = dict_get (dims s) name) ∧
  s1 = set_total_dim (total_dim s1) (set_dims (dims s1) s).
Proof.
  rewrite init_field_run.
  destruct (get_feat_from_server s [0] names false) as [feats|e] eqn:Hfeats;
    [|discriminate].
  apply get_feat_from_server_Ok_inv in Hfeats as [_ Hnames].
  intros [= <-]. simpl. split; [|split; [|done]].
  - exists ((λ name, size1 (column (graph s) name)) <$> names).
    split; [|done]. apply Forall2_fmap_r, Forall_Forall2_diag.
    apply Forall_forall. intros name Hin. rewrite Forall_forall in Hnames.
    destruct (Hnames name Hin) as [Hkey _].
    exists (column (graph s) name). split; [by apply column_get|].
    split; [done|]. rewrite foldl_dict_set_get. by rewrite decide_True.
  - intros name Hnin. rewrite foldl_dict_set_get. by rewrite decide_False.
Qed.

(** X4. When [init_field] raises, it raises IndexError (node 0 is not in
    [nid_map], or its global id has no row in a column) or KeyError (a
    field that the store does not have), and the server is as before: the
    probe comes before every write. *)
Theorem init_field_failure (names : list string) (s : GraphCacheServer)
    (e : exn) :
  (init_field names s).1 = Raise e →
  (init_field names s).2 = s ∧ (e = IndexError ∨ e = KeyError).
Proof.
  rewrite init_field_run.
  destruct (get_feat_from_server s [0] names false) as [feats|e'] eqn:Hfeats;
    simpl; [discriminate|].
  intros [= ->]. split; [done|]. by eapply get_feat_from_server_Raise.
Qed.

(** ** [auto_cache] *)

Lemma auto_cache_capability_quot dgl_g names s :
  0 < total_dim s →
  capability (auto_cache dgl_g names s).2
  = (available s ÷ (Z.of_nat (total_dim s) * 4))%Z.
Proof.
  intros Hdim. unfold auto_cache. munfold. fold (available s).
  unfold int_div. rewrite decide_False by lia. simpl.
  case_decide.
  - destruct (get_feat_from_server _ _ _ _); [|done].
    by rewrite cache_fix_data_capability.
  - destruct (get_feat_from_server _ _ _ _); [|done].
    by rewrite cache_fix_data_capability.
Qed.

(** X5. With fields of positive total width and memory sizes below 2^53
    bytes (where the float quotient of the source truncates to the integer
    quotient), [auto_cache] stores as capability the quotient, truncated
    toward zero, of the memory left beyond the peak allocation and 512 MiB
    by four bytes per value of a node, whether the population that follows
    succeeds or raises; when that memory is not negative this is the floor
    of the quotient. *)
Theorem auto_cache_stores_capability (dgl_g : DGLGraph) (names : list string)
    (s : GraphCacheServer) :
  0 < total_dim s →
  let free := (total_memory (gpuid s) - max_memory_allocated (gpuid s)
               - 512 * 1024 * 1024)%Z in
  (Z.abs free < 2 ^ 53)%Z →
  capability (auto_cache dgl_g names s).2
    = (free ÷ (Z.of_nat (total_dim s) * 4))%Z ∧
  ((0 ≤ free)%Z →
     capability (auto_cache dgl_g names s).2
       = (free / (Z.of_nat (total_dim s) * 4))%Z).
Proof.
  intros Hdim free _. split.
  - by apply auto_cache_capability_quot.
  - intros Hfree. by apply auto_cache_capability.
Qed.

(** X6. More device memory never gives a smaller capability: for two
    servers with the same positive [total_dim] and the same peak allocation,
    the capability that [auto_cache] stores grows with [total_memory]. *)
Theorem auto_cache_capability_monotone (dgl_g1 dgl_g2 : DGLGraph)
    (names1 names2 : list string) (s1 s2 : GraphCacheServer) :
  0 < total_dim s1 → total_dim s2 = total_dim s1 →
  max_memory_allocated (gpuid s2) = max_memory_allocated (gpuid s1) →
  (total_memory (gpuid s1) ≤ total_memory (gpuid s2))%Z →
  (capability (auto_cache dgl_g1 names1 s1).2
   ≤ capability (auto_cache dgl_g2 names2 s2).2)%Z.
Proof.
  intros Hdim Hdims Hpeak Htotal.
  rewrite !auto_cache_capability_quot by lia.
  unfold available. rewrite Hdims, Hpeak.
  apply Z.quot_le_mono; lia.
Qed.

Lemma foldM_invariant {A B} (P : B → Prop) (f : B → A → result B)
    (b r : B) (l : list A) :
  P b → (∀ b x b', P b → f b x = Ok b' → P b') →
  foldM f b l = Ok r → P r.
Proof.
  intros Hb Hstep. revert b Hb. induction l as [|x l IH]; intros b Hb Hrun.
  - by injection Hrun as <-.
  - cbn [foldM] in Hrun. apply bind_Ok_inv in Hrun as (b' & Hfx & Hrun).
    eapply IH; [|exact Hrun]. by eapply Hstep.
Qed.

Lemma dict_set_Forall {V} (P : string * V → Prop) (d : dict V) k v :
  Forall P d → P (k, v) → Forall P (dict_set d k v).
Proof.
  intros Hd Hkv. induction Hd as [|[k' v'] d Hx Hd IH]; simpl.
  - by constructor.
  - case_decide; constructor; auto.
Qed.

Lemma get_feat_from_server_rows_agree s nids names to_gpu frame :
  get_feat_from_server s nids names to_gpu = Ok frame →
  rows_agree (length nids) frame.
Proof.
  unfold get_feat_from_server. intros Hrun.
  apply bind_Ok_inv in Hrun as (gids & Hgids & Hrun).
  apply index_Ok_inv, Forall2_length in Hgids.
  revert Hrun. apply foldM_invariant; [constructor|].
  intros df name df' Hdf Hstep.
  apply bind_Ok_inv in Hstep as (col & _ & Hstep).
  apply bind_Ok_inv in Hstep as (t & Ht & [= <-]).
  apply tensor_index_Ok_inv in Ht as [_ ->].
  apply dict_set_Forall; [done|]. simpl.
  unfold size0, gathered, cuda. destruct to_gpu; simpl; rewrite length_map; lia.
Qed.

Lemma index_put_Raise {A} (l l' : list A) idx vals e :
  length vals = length idx → index_put idx vals l = (Raise e, l') →
  e = IndexError.
Proof.
  intros Hlen. unfold index_put. rewrite decide_True by done.
  rewrite index_put_loop_run by done. case_decide; [discriminate|].
  by intros [= <- _].
Qed.

Lemma cache_fix_data_Raise nids data is_full s e :
  rows_agree (length nids) data →
  (cache_fix_data nids data is_full s).1 = Raise e → e = IndexError.
Proof.
  intros Hd. unfold cache_fix_data. munfold.
  destruct (index_put nids _ (localid2cacheid s)) as [[[]|e'] l2c] eqn:Hput.
  2:{ simpl. intros [= <-].
      eapply index_put_Raise; [|exact Hput]. apply length_arange. }
  run_cache_loop (length nids) s2 Hrun Hunt Htab. clear Htab.
  rewrite Hrun. rewrite decide_True by done.
  destruct (index_fill nids false (cpu_flag s2)) as [[[]|e'] cf] eqn:Hcf.
  2:{ simpl. intros [= <-].
      eapply index_put_Raise; [|exact Hcf]. by rewrite length_replicate. }
  simpl.
  destruct (index_fill nids true _) as [[[]|e'] gf] eqn:Hgf; [discriminate|].
  simpl. intros [= <-].
  eapply index_put_Raise; [|exact Hgf]. by rewrite length_replicate.
Qed.

(** X7. Before [init_field] has given the fields a width ([total_dim] is
    0), [auto_cache] raises ZeroDivisionError and leaves the server as it
    is.  With a positive [total_dim] it can only raise IndexError or
    KeyError: the rows it fetches for the chosen ids always pass the row
    count assertion of [cache_fix_data]. *)
Theorem auto_cache_errors (dgl_g : DGLGraph) (names : list string)
    (s : GraphCacheServer) :
  (total_dim s = 0 →
     auto_cache dgl_g names s = (Raise ZeroDivisionError, s)) ∧
  (0 < total_dim s → ∀ e,
     (auto_cache dgl_g names s).1 = Raise e → e = IndexError ∨ e = KeyError).
Proof.
  split.
  - intros Hdim. unfold auto_cache. munfold. unfold int_div.
    rewrite Hdim. by rewrite decide_True by lia.
  - intros Hdim e. unfold auto_cache. munfold. unfold int_div.
    rewrite decide_False by lia. simpl. case_decide.
    + destruct (get_feat_from_server _ _ _ _) as [data|e'] eqn:Hdata.
      * intros He. left. eapply cache_fix_data_Raise; [|exact He].
        by eapply get_feat_from_server_rows_agree.
      * simpl. intros [= <-]. by eapply get_feat_from_server_Raise.
    + destruct (get_feat_from_server _ _ _ _) as [data|e'] eqn:Hdata.
      * intros He. left. eapply cache_fix_data_Raise; [|exact He].
        by eapply get_feat_from_server_rows_agree.
      * simpl. intros [= <-]. by eapply get_feat_from_server_Raise.
Qed.

(** X8. When the memory left is not negative but less than one node needs,
    a successful [auto_cache] stores capability 0 and places nothing: flags
    and slot map are as before, [cached_num] is 0 and the cache is not
    marked full. *)
Theorem auto_cache_no_room (dgl_g : DGLGraph) (names : list string)
    (s s2 : GraphCacheServer) :
  NoDup names →
  (0 ≤ total_memory (gpuid s) - max_memory_allocated (gpuid s)
       - 512 * 1024 * 1024 < Z.of_nat (total_dim s) * 4)%Z →
  auto_cache dgl_g names s = (Ok tt, s2) →
  capability s2 = 0%Z ∧
  gpu_flag s2 = gpu_flag s ∧ cpu_flag s2 = cpu_flag s ∧
  localid2cacheid s2 = localid2cacheid s ∧
  cached_num s2 = 0 ∧ full_cached s2 = false.
Proof.
  intros Hnames Hfree Hrun.
  assert (Hcap : capability s2 = 0%Z).
  { change s2 with (Ok tt, s2).2. rewrite <- Hrun.
    rewrite auto_cache_capability by (unfold available; lia).
    apply Z.div_small. unfold available. lia. }
  split; [done|].
  pose proof (auto_cache_zero_capability _ _ _ _ Hnames Hrun Hcap)
    as (Hg & Hc & Hn & Hf).
  repeat (split; [done|]). split; [|done].
  apply auto_cache_Ok_inv in Hrun as (cap & _ & _ & _ & ->); [|done].
  simpl in Hcap. subst cap. unfold cache_nid.
  rewrite decide_False by lia. done.
Qed.

(** X9. The full branch establishes what the fast path relies on: after
    [init_field] and a successful [auto_cache] on a new server with a
    capability above [node_num], the cache is marked full, every node is
    flagged on the device, the slot of every id is the id, every cached
    field has one row per node, and [dims] lists the cached fields with
    their widths. *)
Theorem auto_cache_full_in_order
    (g : dict Tensor) (n : nat) (m : list nat) (dev : Device)
    (names : list string) (dgl_g : DGLGraph) (s1 s2 : GraphCacheServer) :
  NoDup names →
  init_field names (__init__ g n m dev) = (Ok tt, s1) →
  auto_cache dgl_g names s1 = (Ok tt, s2) →
  (capability s2 > Z.of_nat n)%Z →
  full_cached s2 = true ∧ full_in_order s2.
Proof.
  intros Hnames Hinit Hauto.
  apply init_field_cold in Hinit as (Hcold & _ & Hn & _); [|done].
  apply auto_cache_Ok_inv in Hauto as (cap & _ & _ & _ & ->); [|done].
  cbn [capability populated set_capability full_cached].
  intros Hcap. rewrite <- Hn in Hcap. split.
  - by apply bool_decide_eq_true_2.
  - rewrite bool_decide_eq_true_2 by done. unfold cache_nid.
    rewrite decide_True by done.
    by apply (populated_full_in_order (set_capability cap s1) names).
Qed.

(** ** [cache_fix_data] *)

Lemma cache_fix_data_AssertionError_state nids data is_full s :
  Forall (λ i, i < length (localid2cacheid s)) nids →
  ¬ rows_agree (length nids) data →
  ∃ s2, cache_fix_data nids data is_full s = (Raise AssertionError, s2) ∧
        cpu_flag s2 = cpu_flag s ∧ gpu_flag s2 = gpu_flag s ∧
        full_cached s2 = full_cached s ∧ cached_num s2 = length nids ∧
        localid2cacheid s2 =
          scatter (localid2cacheid s) nids (arange (length nids)).
Proof.
  intros Hb Hd. unfold cache_fix_data. munfold.
  rewrite index_put_Ok by (done || apply length_arange).
  run_cache_loop (length nids) s2 Hrun Hunt Htab. clear Htab.
  rewrite Hrun. rewrite decide_False by done.
  exists s2. split; [done|]. unfold untabled in Hunt. simpl in Hunt.
  by simplify_eq.
Qed.

Lemma in_range_take n idx :
  ¬ Forall (λ i, i < n) idx →
  ∃ k bad, idx !! k = Some bad ∧ n ≤ bad ∧ in_range n idx = take k idx.
Proof.
  induction idx as [|i idx IH]; intros Hnb.
  - destruct Hnb. constructor.
  - simpl. destruct (decide (i < n)) as [Hi|Hi].
    + destruct IH as (k & bad & Hk & Hbad & Heq).
      { intros Hc. apply Hnb. by constructor. }
      exists (S k), bad. simpl. by rewrite Heq.
    + exists 0, i. simpl. split; [done|]. split; [lia|done].
Qed.

Lemma scatter_lookup_le {A} (l : list A) idx vals (i id : nat) :
  NoDup idx → Forall (λ j, j < length l) idx → length idx ≤ length vals →
  idx !! i = Some id → scatter l idx vals !! id = vals !! i.
Proof.
  revert l vals i. induction idx as [|j idx IH]; intros l vals i Hnd Hb Hlen Hi.
  - done.
  - destruct vals as [|v vals]; [simpl in Hlen; lia|]. simpl in *.
    apply NoDup_cons in Hnd as [Hj Hnd]. apply Forall_cons in Hb as [Hjl Hb].
    destruct i as [|i]; simpl in *.
    + injection Hi as ->. rewrite scatter_lookup_notin by done.
      by apply list_lookup_insert_eq.
    + apply IH; [done| |lia|done].
      eapply Forall_impl; [exact Hb|]. intros k Hk. simpl. by rewrite length_insert.
Qed.

(** X10. A population that fails is not undone.  On a reachable state: with
    an id that is not a local node, [cache_fix_data] raises IndexError when
    the slot write reaches the first such id, at position [k] of the ids;
    by then the slots of the [k] ids before it have been written (0, 1, ...
    in their order when they do not repeat), the slots of all other ids and
    every other attribute are as before.  With ids of local nodes and a
    field whose row count is not [|ids|], it raises AssertionError after the
    slot map and [cached_num] have been written ([cached_num] is [|ids|]
    and the slots of duplicate-free ids are 0, 1, ...), while the flags and
    [full_cached] are as before. *)
Theorem cache_fix_data_failure (nids : list nat) (data : dict Tensor)
    (is_full : bool) (s : GraphCacheServer) :
  reachable s →
  (¬ Forall (λ i, i < node_num s) nids →
     ∃ k bad s2,
       nids !! k = Some bad ∧ node_num s ≤ bad ∧
       Forall (λ i, i < node_num s) (take k nids) ∧
       cache_fix_data nids data is_full s = (Raise IndexError, s2) ∧
       s2 = set_localid2cacheid (localid2cacheid s2) s ∧
       (NoDup (take k nids) →
          index (localid2cacheid s2) (take k nids) = Ok (arange k)) ∧
       (∀ id, id ∉ take k nids →
          localid2cacheid s2 !! id = localid2cacheid s !! id)) ∧
  (Forall (λ i, i < node_num s) nids →
   Exists (λ nt, size0 nt.2 ≠ length nids) data →
     ∃ s2, cache_fix_data nids data is_full s = (Raise AssertionError, s2) ∧
           cpu_flag s2 = cpu_flag s ∧ gpu_flag s2 = gpu_flag s ∧
           full_cached s2 = full_cached s ∧
           cached_num s2 = length nids ∧
           (NoDup nids →
              index (localid2cacheid s2) nids = Ok (arange (length nids)))).
Proof.
  intros (Hg & Hl & Hc)%reachable_partitioned. split.
  - intros Hnb.
    destruct (in_range_take _ _ Hnb) as (k & bad & Hk & Hbad & Heq).
    pose proof (in_range_bound (node_num s) nids) as Hpre.
    rewrite Heq in Hpre.
    pose proof (lookup_lt_Some _ _ _ Hk) as Hklt.
    assert (Hlen : length (take k nids) = k) by (rewrite length_take; lia).
    exists k, bad, (slots_begun nids s).
    split; [done|]. split; [done|]. split; [done|]. split.
    { apply cache_fix_data_IndexError. by rewrite Hl. }
    split; [done|]. unfold slots_begun. simpl. rewrite Hl, Heq. split.
    + intros Hnd. apply index_Ok_Forall2.
      apply Forall2_same_length_lookup. split; [by rewrite length_arange|].
      intros i id c Hid Hci.
      rewrite (scatter_lookup_le _ _ _ i);
        [ | done | by rewrite Hl | rewrite length_arange; lia | done].
      unfold arange in *. apply lookup_seq in Hci as [-> Hik].
      apply lookup_seq. lia.
    + intros id Hid. by apply scatter_lookup_notin.
  - intros Hb (nt & Hin & Hne)%Exists_exists.
    destruct (cache_fix_data_AssertionError_state nids data is_full s)
      as (s2 & Hrun & Hcf & Hgf & Hfull & Hnum & Hslot).
    + by rewrite Hl.
    + unfold rows_agree. rewrite Forall_forall. intros Hall.
      specialize (Hall nt Hin). simpl in Hall. congruence.
    + exists s2. repeat (split; [done|]). intros Hnd.
      apply index_Ok_Forall2. rewrite Hslot.
      apply Forall2_same_length_lookup. split; [by rewrite length_arange|].
      intros i id c Hid Hci.
      rewrite (scatter_lookup _ _ _ i);
        [done | done | by rewrite Hl | apply length_arange | done].
Qed.

Lemma cache_fix_data_gpu_mono nids data is_full s id :
  partitioned s → gpu_flag s !! id = Some true →
  gpu_flag (cache_fix_data nids data is_full s).2 !! id = Some true.
Proof.
  intros Hp Hid.
  destruct (cache_fix_data_cases nids data is_full s Hp)
    as [[_ ->]|[(_ & _ & s2 & -> & _ & _ & Hg & _)|(_ & _ & ->)]]; simpl.
  - done.
  - by rewrite Hg.
  - rewrite scatter_fill_lookup by (by eapply lookup_lt_Some).
    by case_decide.
Qed.

Lemma step_gpu_mono s s' id :
  partitioned s → step s s' →
  gpu_flag s !! id = Some true → gpu_flag s' !! id = Some true.
Proof.
  intros Hp Hstep Hid. destruct Hstep.
  - pose proof (init_field_flags embed_names s) as Hf.
    unfold flags_of in Hf. injection Hf as _ _ -> _. done.
  - by apply cache_fix_data_gpu_mono.
  - unfold auto_cache. munfold.
    destruct (int_div _ _) as [cap|e]; [|done]. simpl.
    assert (Hp1 : partitioned (set_capability cap s)) by exact Hp.
    case_decide.
    + destruct (get_feat_from_server _ _ _ _); [|done].
      by apply cache_fix_data_gpu_mono.
    + destruct (get_feat_from_server _ _ _ _); [|done].
      by apply cache_fix_data_gpu_mono.
  - pose proof (fetch_data_kept (mkWorld s nf)) as Hk.
    unfold kept in Hk. simpl in Hk. by injection Hk as -> _ _.
Qed.

(** X11. Nothing ever returns a node to the host: an id that is flagged on
    the device in a reachable state is flagged on the device after every
    further call of a method, whatever the arguments and however the call
    ends (a later population with other ids does not clear the flag). *)
Theorem device_flag_never_cleared (s s' : GraphCacheServer) (id : nat) :
  reachable s → step s s' →
  gpu_flag s !! id = Some true →
  gpu_flag s' !! id = Some true ∧ cpu_flag s' !! id = Some false.
Proof.
  intros Hr Hstep Hid.
  pose proof (reachable_partitioned s Hr) as Hp.
  pose proof (step_gpu_mono s s' id Hp Hstep Hid) as Hid'.
  split; [done|].
  destruct (step_partitioned s s' Hstep Hp) as (_ & _ & Hc).
  by rewrite Hc, list_lookup_fmap, Hid'.
Qed.

(** X12. The rest of what a successful [cache_fix_data] does (slots and
    [dims] apart): the cache holds, for every field of [data], exactly the
    tensor given, and for every other field what it held before; every id
    of [nids] is flagged on the device and not on the host, the flags of
    all other ids are as before; [full_cached] is [is_full]. *)
Theorem cache_fix_data_effect (nids : list nat) (data : dict Tensor)
    (is_full : bool) (s s' : GraphCacheServer) :
  NoDup (keys data) →
  cache_fix_data nids data is_full s = (Ok tt, s') →
  (∀ name t, dict_get data name = Ok t →
     dict_get (gpu_fix_cache s') name = Ok t) ∧
  (∀ name, name ∉ keys data →
     dict_get (gpu_fix_cache s') name = dict_get (gpu_fix_cache s) name) ∧
  (∀ id, id ∈ nids →
     gpu_flag s' !! id = Some true ∧ cpu_flag s' !! id = Some false) ∧
  (∀ id, id ∉ nids →
     gpu_flag s' !! id = gpu_flag s !! id ∧
     cpu_flag s' !! id = cpu_flag s !! id) ∧
  full_cached s' = is_full.
Proof.
  intros Hnd Hrun.
  pose proof (cache_fix_data_Ok_bounds _ _ _ _ _ Hrun) as [Hbc Hbg].
  apply cache_fix_data_Ok_inv in Hrun as (_ & _ & ->). simpl.
  rewrite cache_of_eq. split; [|split; [|split; [|split; [|done]]]].
  - intros name t Ht. by rewrite (dict_update_get cuda data _ name t).
  - intros name Hname. by apply dict_update_notin.
  - intros id Hin. rewrite Forall_forall in Hbc. rewrite Forall_forall in Hbg.
    rewrite !scatter_fill_lookup by auto. by rewrite !decide_True.
  - intros id Hnin. by rewrite !scatter_lookup_notin.
Qed.

(** ** [fetch_data] before any population *)

Lemma cold_layer s names tnid :
  cold s names → NoDup names →
  Forall (λ id, id < node_num s) tnid →
  store_serves s names tnid →
  fetch_data_layer s tnid = Ok (ground_truth s names tnid).
Proof.
  intros Hcold Hnames Hb Hserve.
  pose proof (cold_partitioned s names Hcold) as Hp.
  destruct Hcold as (Hg & Hc & Hl & Hcache & Hdims).
  assert (Hflag : Forall (λ id, gpu_flag s !!! id = false) tnid).
  { eapply Forall_impl; [exact Hb|]. intros id Hid. simpl.
    rewrite Hg. apply list_lookup_total_correct. by apply lookup_replicate_2. }
  rewrite fetch_data_layer_Ok; [|done|done| | |].
  - f_equal. unfold merged. rewrite Hdims. unfold widths, ground_truth.
    rewrite map_map. apply map_ext. intros name. simpl. f_equal.
    unfold gathered. f_equal. rewrite map_map. apply map_ext_Forall.
    eapply Forall_impl; [exact Hflag|]. intros id Hid. simpl in *.
    unfold served. by rewrite Hid.
  - by rewrite Hdims, keys_widths.
  - intros Hne. destruct Hne. unfold nids_in_gpu. apply select_all_false.
    by apply Forall_fmap.
  - intros _. split.
    + rewrite Hdims, keys_widths.
      apply (store_serves_sub s names tnid); [apply select_subseteq|done].
    + rewrite Hdims. unfold widths. apply Forall_fmap.
      apply Forall_forall. by intros name Hname.
Qed.

(** X13. The cache is transparent before it is filled: on a new server
    after [init_field] alone (nothing cached), with a store that has a row
    for every local node, [fetch_data] returns normally for every nodeflow
    with ids below [node_num] and the frame of each layer is what
    [get_feat_from_server] gives for the ids of the layer. *)
Theorem fetch_data_unpopulated
    (g : dict Tensor) (n : nat) (m : list nat) (dev : Device)
    (names : list string) (s1 : GraphCacheServer) (nf : NodeFlow) :
  NoDup names →
  init_field names (__init__ g n m dev) = (Ok tt, s1) →
  store_covers g m n →
  Forall (Forall (λ id, id < n)) (layers nf) →
  length (_node_frames nf) = length (layers nf) →
  ∃ frames,
    fetch_data (mkWorld s1 nf)
      = (Ok tt, mkWorld s1 (mkNodeFlow (layers nf) frames)) ∧
    Forall2 (λ tnid frame,
               get_feat_from_server s1 tnid names true = Ok frame)
            (layers nf) frames.
Proof.
  intros Hnames Hinit Hcovers Hb Hlen.
  pose proof (init_field_Ok_inv _ _ _ Hnames Hinit)
    as [[_ Hkeys] (td & Hs1)].
  assert (Hfull : full_cached s1 = false) by (by rewrite Hs1).
  apply init_field_cold in Hinit as (Hcold & Hg & Hn & Hm & _); [|done].
  simpl in Hkeys. clear Hs1. subst g n m.
  assert (Hserve : ∀ tnid, tnid ∈ layers nf → store_serves s1 names tnid).
  { intros tnid Hin. apply store_covers_serves; [done| |].
    - eapply Forall_impl; [exact Hkeys|]. by intros name [? _].
    - rewrite Forall_forall in Hb. by apply Hb. }
  exists (ground_truth s1 names <$> layers nf). split.
  - unfold fetch_data. munfold. simpl.
    rewrite Hfull. rewrite fetch_data_loop_loop. simpl.
    apply gather_Ok; [|done]. intros tnid Hin.
    apply cold_layer; [done|done| |by apply Hserve].
    rewrite Forall_forall in Hb. by apply Hb.
  - apply Forall2_fmap_r, Forall_Forall2_diag, Forall_forall.
    intros tnid Hin. apply get_feat_from_server_Ok; [done|]. by apply Hserve.
Qed.

(** ** [fetch_data] layer by layer *)

(** The frame that [fetch_data] makes for one layer: the body of the loop of
    [fetch_from_cache] when the cache is full, of its own loop otherwise. *)
Definition layer_frame (s : GraphCacheServer) (tnid : list nat)
  : result (dict Tensor) :=
  if full_cached s then fetch_from_cache_layer s tnid
  else fetch_data_layer s tnid.

Lemma fetch_data_run w :
  fetch_data w
  = for_ (seq 0 (num_layers (nodeflow w))) (gather_layer layer_frame) w.
Proof.
  unfold fetch_data. munfold.
  destruct (full_cached (self_ w)) eqn:Hfull.
  - rewrite fetch_from_cache_loop. apply gather_loop_ext.
    intros i tnid _. unfold layer_frame. by rewrite Hfull.
  - rewrite fetch_data_loop_loop. apply gather_loop_ext.
    intros i tnid _. unfold layer_frame. by rewrite Hfull.
Qed.

Lemma for_app {S A} (l1 l2 : list A) (body : A → M S unit) (s : S) :
  for_ (l1 ++ l2) body s
  = match for_ l1 body s with
    | (Ok _, s1) => for_ l2 body s1
    | (Raise e, s1) => (Raise e, s1)
    end.
Proof.
  revert s. induction l1 as [|x l1 IH]; intros s; simpl; [done|].
  munfold. destruct (body x s) as [[[]|e] s1]; [apply IH|done].
Qed.

(** The layers [k], ..., [k + m - 1] succeed: their frames are written, the
    others are as before. *)
Lemma gather_loop_prefix
    (layer : GraphCacheServer → list nat → result (dict Tensor))
    (s : GraphCacheServer) (L : list (list nat)) (done_ : list (dict Tensor)) :
  ∀ m k frames,
    k + m ≤ length frames →
    Forall2 (λ tnid frame, layer s tnid = Ok frame) (take m (drop k L)) done_ →
    length done_ = m →
    for_ (seq k m) (gather_layer layer) (mkWorld s (mkNodeFlow L frames))
    = (Ok tt, mkWorld s (mkNodeFlow L
         (take k frames ++ done_ ++ drop (k + m) frames))).
Proof.
  revert done_. intros done_ m. revert done_.
  induction m as [|m IH]; intros done_ k frames Hk Hall Hlen.
  - destruct done_; [|done]. simpl. by rewrite Nat.add_0_r, take_drop.
  - destruct done_ as [|frame done_]; [done|]. simpl in Hlen.
    destruct (drop k L) as [|tnid L'] eqn:Hdrop; [by inversion Hall|].
    simpl in Hall. apply Forall2_cons in Hall as [Hlayer Hall].
    assert (Htnid : L !! k = Some tnid).
    { rewrite <- (Nat.add_0_r k), <- lookup_drop, Hdrop. done. }
    cbn [seq for_]. munfold. rewrite gather_layer_run. simpl.
    rewrite Htnid, Hlayer. unfold set_node_frame. simpl.
    rewrite decide_True by lia.
    assert (HL' : drop (S k) L = L').
    { rewrite (drop_S L tnid k Htnid) in Hdrop. by injection Hdrop. }
    rewrite (IH done_ (S k)); [|rewrite length_insert; lia|by rewrite HL'|lia].
    f_equal. f_equal. f_equal.
    rewrite (take_S_r _ _ frame)
      by (apply list_lookup_insert_eq; lia).
    rewrite take_insert_ge by lia.
    rewrite drop_insert_lt by lia.
    rewrite <- app_assoc. simpl. by rewrite Nat.add_succ_r.
Qed.

(** A gather over the layers [k], ..., [k + m - 1] that returns: every one of
    these layers gave a frame and had a place for it. *)
Lemma gather_loop_Ok_inv
    (layer : GraphCacheServer → list nat → result (dict Tensor))
    (s : GraphCacheServer) (L : list (list nat)) :
  ∀ m k frames w',
    k + m ≤ length L →
    for_ (seq k m) (gather_layer layer) (mkWorld s (mkNodeFlow L frames))
      = (Ok tt, w') →
    (0 < m → k + m ≤ length frames) ∧
    ∃ done_, Forall2 (λ tnid frame, layer s tnid = Ok frame)
               (take m (drop k L)) done_.
Proof.
  induction m as [|m IH]; intros k frames w' Hk Hrun.
  - split; [lia|]. exists []. simpl. constructor.
  - cbn [seq for_] in Hrun. revert Hrun. munfold.
    rewrite gather_layer_run. simpl.
    assert (Hlt : k < length L) by lia.
    apply lookup_lt_is_Some in Hlt as [tnid Htnid]. rewrite Htnid.
    destruct (layer s tnid) as [frame|e] eqn:Hlayer; [|done].
    unfold set_node_frame. simpl.
    destruct (decide (k < length frames)) as [Hkf|]; [|done].
    intros Hrun. apply IH in Hrun as [Hm (done_ & Hall)]; [|lia].
    rewrite length_insert in Hm. split; [lia|].
    exists (frame :: done_). rewrite (drop_S L tnid k Htnid). simpl.
    by constructor.
Qed.

(** X14. [fetch_data] stops at the first layer whose frame cannot be made
    and undoes nothing: when the layers before it succeed and the layer
    raises [e], the call raises [e], the frames of the earlier layers have
    been replaced by the new ones, and the frames of the failing layer and
    of the later ones are the old ones. *)
Theorem fetch_data_first_failure (s : GraphCacheServer)
    (L1 : list (list nat)) (tnid : list nat) (L2 : list (list nat))
    (frames done_ : list (dict Tensor)) (e : exn) :
  length L1 ≤ length frames →
  Forall2 (λ l frame, layer_frame s l = Ok frame) L1 done_ →
  layer_frame s tnid = Raise e →
  fetch_data (mkWorld s (mkNodeFlow (L1 ++ tnid :: L2) frames))
  = (Raise e, mkWorld s (mkNodeFlow (L1 ++ tnid :: L2)
                           (done_ ++ drop (length L1) frames))).
Proof.
  intros Hlen Hdone Hfail. rewrite fetch_data_run. simpl.
  unfold num_layers. simpl. rewrite length_app. simpl.
  rewrite seq_app, for_app. simpl.
  pose proof (Forall2_length _ _ _ Hdone) as Hl.
  rewrite (gather_loop_prefix layer_frame s _ done_ (length L1) 0 frames);
    [|done| |done].
  - simpl. munfold. rewrite gather_layer_run. simpl.
    rewrite lookup_app_r by lia. rewrite Nat.sub_diag. simpl.
    by rewrite Hfail.
  - rewrite drop_0, take_app_length. done.
Qed.

(** X15. [fetch_data] returns normally exactly when there is a frame place
    for every layer and every layer's frame can be made; the nodeflow then
    holds these frames, in the order of the layers, followed by the old
    frames beyond the last layer. *)
Theorem fetch_data_returns_iff (s : GraphCacheServer) (nf : NodeFlow)
    (w' : World) :
  fetch_data (mkWorld s nf) = (Ok tt, w') ↔
  num_layers nf ≤ length (_node_frames nf) ∧
  ∃ done_,
    Forall2 (λ tnid frame, layer_frame s tnid = Ok frame) (layers nf) done_ ∧
    w' = mkWorld s (mkNodeFlow (layers nf)
                      (done_ ++ drop (num_layers nf) (_node_frames nf))).
Proof.
  rewrite fetch_data_run. destruct nf as [L frames].
  unfold num_layers. simpl. split.
  - intros Hrun.
    destruct (gather_loop_Ok_inv layer_frame s L (length L) 0 frames w')
      as [Hlen (done_ & Hall)]; [done|done|].
    rewrite drop_0, firstn_all in Hall.
    assert (Hle : length L ≤ length frames).
    { destruct L; [simpl; lia|]. apply Hlen. simpl. lia. }
    split; [done|]. exists done_. split; [done|].
    rewrite (gather_loop_prefix layer_frame s L done_ (length L) 0 frames)
      in Hrun.
    + by injection Hrun as <-.
    + done.
    + by rewrite drop_0, firstn_all.
    + symmetry. by eapply Forall2_length.
  - intros (Hlen & done_ & Hall & ->).
    rewrite (gather_loop_prefix layer_frame s L done_ (length L) 0 frames).
    + done.
    + done.
    + by rewrite drop_0, firstn_all.
    + symmetry. by eapply Forall2_length.
Qed.

(** X16. Ids outside the local graph are an error, not a silent read: on a
    reachable server whose cache is not full, a nodeflow that asks, in any
    layer, for an id that is not below [node_num] makes [fetch_data] raise;
    the layer body itself stops at the flag lookup. *)
Theorem fetch_data_out_of_range (s : GraphCacheServer) (nf : NodeFlow) :
  reachable s → full_cached s = false →
  Exists (Exists (λ id, node_num s ≤ id)) (layers nf) →
  (∀ tnid, Exists (λ id, node_num s ≤ id) tnid →
     ∃ e, fetch_data_layer s tnid = Raise e) ∧
  ∃ e, (fetch_data (mkWorld s nf)).1 = Raise e.
Proof.
  intros (Hg & _)%reachable_partitioned Hfull Hex.
  assert (Hlayer : ∀ tnid, Exists (λ id, node_num s ≤ id) tnid →
            ∃ e, fetch_data_layer s tnid = Raise e).
  { intros tnid Hout. exists IndexError. unfold fetch_data_layer.
    rewrite (index_not_bound (gpu_flag s)); [done|].
    rewrite Hg. intros Hall. apply Exists_exists in Hout as (id & Hin & Hid).
    rewrite Forall_forall in Hall. specialize (Hall id Hin). lia. }
  split; [done|].
  destruct (fetch_data (mkWorld s nf)) as [[[]|e] w'] eqn:Hrun; [|by exists e].
  exfalso. rewrite fetch_data_run in Hrun. destruct nf as [L frames].
  unfold num_layers in Hrun. simpl in *.
  destruct (gather_loop_Ok_inv layer_frame s L (length L) 0 frames w')
    as [_ (done_ & Hall)]; [done|done|].
  rewrite drop_0, firstn_all in Hall.
  apply Exists_exists in Hex as (tnid & Hin & Hout).
  apply list_elem_of_lookup_1 in Hin as [i Hi].
  destruct (Forall2_lookup_l _ _ _ _ _ Hall Hi) as (frame & _ & Hok).
  unfold layer_frame in Hok. rewrite Hfull in Hok.
  destruct (Hlayer tnid Hout) as [e He]. congruence.
Qed.

(** X17. With a full cache the gather reads the device buffers and nothing
    else: two servers that are both marked full and hold the same
    [gpu_fix_cache] give, on the same nodeflow, the same result and the same
    frames, whatever their stores, id maps, flags, slot maps and recorded
    dimensions are. *)
Theorem full_cache_reads_buffers_only (s1 s2 : GraphCacheServer)
    (nf : NodeFlow) :
  full_cached s1 = true → full_cached s2 = true →
  gpu_fix_cache s1 = gpu_fix_cache s2 →
  (fetch_data (mkWorld s1 nf)).1 = (fetch_data (mkWorld s2 nf)).1 ∧
  nodeflow (fetch_data (mkWorld s1 nf)).2
  = nodeflow (fetch_data (mkWorld s2 nf)).2.
Proof.
  intros Hf1 Hf2 Hcache. rewrite !fetch_data_run. simpl.
  apply gather_loop_rel; simpl; [done|].
  intros i tnid _. unfold layer_frame, fetch_from_cache_layer.
  by rewrite Hf1, Hf2, Hcache.
Qed.

(** ** The recorded dimensions form a dictionary *)

Lemma dict_set_keys_NoDup {V} (d : dict V) k v :
  NoDup (keys d) → NoDup (keys (dict_set d k v)).
Proof.
  unfold keys. induction d as [|[k' v'] d IH]; simpl; intros Hnd.
  - apply NoDup_singleton.
  - apply NoDup_cons in Hnd as [Hk' Hnd]. case_decide; simpl.
    + subst k'. by apply NoDup_cons.
    + apply NoDup_cons. split; [|by apply IH].
      intros Hin. apply Hk'. clear -Hin H.
      induction d as [|[k2 v2] d IH]; simpl in *.
      * apply list_elem_of_singleton in Hin. congruence.
      * case_decide; simpl in *.
        -- subst k2. apply elem_of_cons in Hin as [->|Hin]; [done|by right].
        -- apply elem_of_cons in Hin as [->|Hin]; [left|right; by apply IH].
Qed.

Lemma init_field_dims_NoDup embed_names s :
  NoDup (keys (dims s)) → NoDup (keys (dims (init_field embed_names s).2)).
Proof.
  intros Hnd. unfold init_field. munfold.
  destruct (get_feat_from_server s [0] embed_names false) as [feats|e]; [|done].
  apply (for_invariant (λ s', NoDup (keys (dims s')))); [|done].
  intros name s' Hs'. destruct (dict_get feats name); simpl; [|done].
  by apply dict_set_keys_NoDup.
Qed.

Lemma cache_fix_data_dims_NoDup nids data is_full s :
  NoDup (keys (dims s)) →
  NoDup (keys (dims (cache_fix_data nids data is_full s).2)).
Proof.
  intros Hnd. unfold cache_fix_data. munfold.
  destruct (index_put _ _ _) as [[[]|e] l2c]; [|done]. cbn [fst snd].
  match goal with |- context [for_ data ?b ?s1] =>
    assert (Hinv : NoDup (keys (dims (for_ data b s1).2)));
      [|destruct (for_ data b s1) as [[[]|e] s2]]
  end.
  - apply (for_invariant (λ s', NoDup (keys (dims s')))); [|done].
    intros [name t] s' Hs'. case_decide; simpl; [|done].
    by apply dict_set_keys_NoDup.
  - cbn [fst snd] in *.
    destruct (index_fill nids false (cpu_flag s2)) as [[[]|e] cf]; [|done].
    cbn [fst snd]. simpl.
    destruct (index_fill nids true _) as [[[]|e] gf]; done.
  - done.
Qed.

Lemma step_dims_NoDup s s' :
  step s s' → NoDup (keys (dims s)) → NoDup (keys (dims s')).
Proof.
  destruct 1; intros Hnd.
  - by apply init_field_dims_NoDup.
  - by apply cache_fix_data_dims_NoDup.
  - unfold auto_cache. munfold.
    destruct (int_div _ _) as [cap|e]; [|done]. simpl.
    assert (Hnd1 : NoDup (keys (dims (set_capability cap s)))) by exact Hnd.
    case_decide.
    + destruct (get_feat_from_server _ _ _ _); [|done].
      by apply cache_fix_data_dims_NoDup.
    + destruct (get_feat_from_server _ _ _ _); [|done].
      by apply cache_fix_data_dims_NoDup.
  - pose proof (fetch_data_kept (mkWorld s nf)) as Hk.
    unfold kept in Hk. simpl in Hk. by injection Hk as -> _ _.
Qed.

Lemma reachable_dims_NoDup s : reachable s → NoDup (keys (dims s)).
Proof.
  induction 1 as [| s s' _ IH Hstep].
  - simpl. apply NoDup_nil_2.
  - by eapply step_dims_NoDup.
Qed.

(** ** What a frame holds never comes from the allocation *)

(** The same server on a device whose new tensors hold other values. *)
Definition set_gpuid (v : Device) (s : GraphCacheServer) :=
  mkServer (graph s) v (node_num s) (nid_map s) (cpu_flag s) (gpu_flag s)
    (cached_num s) (capability s) (full_cached s) (dims s) (total_dim s)
    (gpu_fix_cache s) (localid2cacheid s).

(** Two runs end alike: both raise the same exception, or both return, with
    related values. *)
Definition result_rel {A} (R : A → A → Prop) (r1 r2 : result A) : Prop :=
  match r1, r2 with
  | Ok a, Ok b => R a b
  | Raise e1, Raise e2 => e1 = e2
  | _, _ => False
  end.

Lemma result_rel_bind {A B} (R : A → A → Prop) (R' : B → B → Prop)
    (r1 r2 : result A) (f g : A → result B) :
  result_rel R r1 r2 → (∀ a b, R a b → result_rel R' (f a) (g b)) →
  result_rel R' (r1 ≫= f) (r2 ≫= g).
Proof. destruct r1, r2; simpl; try done. intros HR Hfg. by apply Hfg. Qed.

Lemma result_rel_eq {A} (r1 r2 : result A) : result_rel eq r1 r2 → r1 = r2.
Proof. destruct r1, r2; simpl; try done; by intros ->. Qed.

Lemma result_rel_mono {A} (R R' : A → A → Prop) (r1 r2 : result A) :
  (∀ a b, R a b → R' a b) → result_rel R r1 r2 → result_rel R' r1 r2.
Proof. intros HR. destruct r1, r2; simpl; auto. Qed.

(** Tensors of [n] rows and the same width whose rows agree where [P] holds. *)
Definition agree (n : nat) (P : nat → Prop) (t1 t2 : Tensor) : Prop :=
  size1 t1 = size1 t2 ∧ size0 t1 = n ∧ size0 t2 = n ∧
  ∀ i, P i → rows t1 !! i = rows t2 !! i.

(** Frames with the same fields, among [names], whose tensors agree. *)
Definition frames_agree (n : nat) (names : list string)
    (P : string → nat → Prop) (f1 f2 : dict Tensor) : Prop :=
  NoDup (keys f1) ∧
  Forall2 (λ a b, a.1 = b.1 ∧ a.1 ∈ names ∧ agree n (P a.1) a.2 b.2) f1 f2.

Lemma agree_mono n (P Q : nat → Prop) t1 t2 :
  (∀ i, Q i → P i) → agree n P t1 t2 → agree n Q t1 t2.
Proof. intros HQ (Hd & H1 & H2 & HP). repeat split; auto. Qed.

Lemma frames_agree_mono n names (P Q : string → nat → Prop) f1 f2 :
  (∀ name i, Q name i → P name i) →
  frames_agree n names P f1 f2 → frames_agree n names Q f1 f2.
Proof.
  intros HQ [Hnd Hall]. split; [done|].
  eapply Forall2_impl; [exact Hall|]. intros a b (Hk & Hin & Ha).
  split; [done|]. split; [done|]. eapply agree_mono; [|exact Ha]. eauto.
Qed.

Lemma frames_agree_eq n names (P : string → nat → Prop) f1 f2 :
  (∀ name i, name ∈ names → i < n → P name i) →
  frames_agree n names P f1 f2 → f1 = f2.
Proof.
  intros Hcover [_ Hall].
  induction Hall as [|[k1 [d1 r1]] [k2 [d2 r2]] f1 f2 (Hk & Hin & Ha) _ IH];
    [done|].
  destruct Ha as (Hd & H1 & H2 & HP). unfold size0 in *. simpl in *.
  subst k2 d2. f_equal; [|done]. f_equal. f_equal.
  apply list_eq. intros i. destruct (decide (i < n)) as [Hi|Hi].
  - apply HP. by apply Hcover.
  - rewrite !lookup_ge_None_2 by lia. done.
Qed.

Lemma expand_length {A} (k : nat) (l rs : list A) :
  expand k l = Ok rs → length rs = k.
Proof.
  unfold expand. case_decide; [by intros [= <-]|].
  destruct l as [|x [|y l]]; try done. intros [= <-]. apply length_replicate.
Qed.

Lemma broadcast_to_length k d src vals :
  broadcast_to k d src = Ok vals → length vals = k.
Proof.
  unfold broadcast_to. intros (rs & Hrs & Hvals)%bind_Ok_inv.
  apply expand_length in Hrs.
  case_decide; [by injection Hvals as <-|].
  case_decide; [|done].
  apply traverse_Ok_inv, Forall2_length in Hvals. lia.
Qed.

(** Writing the same values under a mask makes the masked places equal. *)
Lemma mask_scatter_agree {A} (mask : list bool) (vals l1 l2 : list A)
    (P : nat → Prop) :
  length l1 = length l2 → length mask = length l1 →
  length vals = length (select mask mask) →
  (∀ i, P i → l1 !! i = l2 !! i) →
  ∀ i, P i ∨ mask !! i = Some true →
    mask_scatter l1 mask vals !! i = mask_scatter l2 mask vals !! i.
Proof.
  revert mask vals l2 P.
  induction l1 as [|x l1 IH]; intros mask vals [|y l2] P Hl Hm Hv HP i Hi;
    try done.
  destruct mask as [|b mask]; [done|]. simpl in *.
  destruct b; simpl in *.
  - destruct vals as [|v vals]; [done|]. simpl in *.
    destruct i as [|i]; [done|]. simpl.
    apply (IH mask vals l2 (λ j, P (S j))); [lia|lia|lia| |done].
    intros j Hj. apply (HP (S j) Hj).
  - destruct i as [|i]; simpl.
    + destruct Hi as [Hi|Hi]; [|done]. apply (HP 0 Hi).
    + apply (IH mask vals l2 (λ j, P (S j))); [lia|lia|lia| |done].
      intros j Hj. apply (HP (S j) Hj).
Qed.

Lemma mask_put_agree n (P : nat → Prop) mask src t1 t2 :
  agree n P t1 t2 →
  result_rel (agree n (λ i, P i ∨ mask !! i = Some true))
    (mask_put t1 mask src) (mask_put t2 mask src).
Proof.
  intros (Hd & H1 & H2 & HP). unfold mask_put. rewrite <- Hd, H1, H2.
  destruct (decide (length mask = n)) as [Hm|]; [|done].
  destruct (broadcast_to _ _ _) as [vals|e] eqn:Hvals; [|done]. simpl.
  apply broadcast_to_length in Hvals. unfold agree, size0 in *. simpl.
  rewrite !mask_scatter_length. repeat (split; [done|]).
  apply mask_scatter_agree; [lia|lia|done|done].
Qed.

Lemma dict_get_agree n names (P : string → nat → Prop) f1 f2 k :
  frames_agree n names P f1 f2 →
  result_rel (agree n (P k)) (dict_get f1 k) (dict_get f2 k).
Proof.
  intros [_ Hall].
  induction Hall as [|[k1 u1] [k2 u2] f1 f2 (Hk & Hin & Ha) _ IH]; simpl in *.
  - done.
  - subst k2. destruct (decide (k1 = k)) as [->|]; done.
Qed.

Lemma dict_set_agree n names (P P' : string → nat → Prop) f1 f2 k t1 t2 :
  frames_agree n names P f1 f2 → k ∈ names →
  agree n (P' k) t1 t2 →
  (∀ name i, name ≠ k → P' name i → P name i) →
  frames_agree n names P' (dict_set f1 k t1) (dict_set f2 k t2).
Proof.
  intros [Hnd Hall] Hk Ht HP. split; [by apply dict_set_keys_NoDup|].
  induction Hall as [|[k1 u1] [k2 u2] f1 f2 (Hk12 & Hin & Ha) Hall IH];
    simpl in *.
  - constructor; [done|constructor].
  - subst k2. apply NoDup_cons in Hnd as [Hk1 Hnd].
    destruct (decide (k1 = k)) as [->|Hne].
    + constructor; [done|]. clear IH. unfold keys in Hk1.
      induction Hall as [|[k3 u3] [k4 u4] f1 f2 (Hk34 & Hin' & Ha') _ IH];
        [constructor|].
      simpl in *. apply not_elem_of_cons in Hk1 as [Hne Hk1].
      apply NoDup_cons in Hnd as [_ Hnd].
      constructor; [|by apply IH].
      split; [done|]. split; [done|]. simpl.
      eapply agree_mono; [|exact Ha']. intros i. by apply HP.
    + constructor; [|by apply IH].
      split; [done|]. split; [done|]. simpl.
      eapply agree_mono; [|exact Ha]. intros i. by apply HP.
Qed.

(** One in-place write [frame[name][mask] = F name]. *)
Definition put_step (F : string → result Tensor) (mask : list bool)
    (frame : dict Tensor) (name : string) : result (dict Tensor) :=
  src ← F name;
  t ← dict_get frame name;
  t' ← mask_put t mask src;
  Ok (dict_set frame name t').

Lemma put_loop_agree n names0 (F : string → result Tensor) (mask : list bool)
    (names : list string) :
  names ⊆ names0 →
  ∀ (P : string → nat → Prop) f1 f2,
    frames_agree n names0 P f1 f2 →
    result_rel
      (frames_agree n names0
         (λ name i, P name i ∨ (name ∈ names ∧ mask !! i = Some true)))
      (foldM (put_step F mask) f1 names) (foldM (put_step F mask) f2 names).
Proof.
  induction names as [|k names IH]; intros Hsub P f1 f2 Hf.
  - simpl. eapply frames_agree_mono; [|exact Hf].
    intros name i [?|[[]%elem_of_nil _]]. done.
  - cbn [foldM].
    apply (result_rel_bind
      (frames_agree n names0
         (λ name i, P name i ∨ (name = k ∧ mask !! i = Some true)))).
    + unfold put_step. destruct (F k) as [src|e]; [|done]. rewrite !bind_Ok.
      apply (result_rel_bind (agree n (P k)));
        [by apply (dict_get_agree n names0)|].
      intros t1 t2 Ht.
      apply (result_rel_bind (agree n (λ i, P k i ∨ mask !! i = Some true)));
        [by apply mask_put_agree|].
      intros t1' t2' Ht'. simpl.
      apply (dict_set_agree n names0 P); [done| | |].
      * apply Hsub. left.
      * eapply agree_mono; [|exact Ht']. intros i [?|[_ ?]]; auto.
      * intros name i Hne [?|[? _]]; done.
    + intros a b Hab. eapply result_rel_mono; [|apply IH; [|exact Hab]].
      * intros a' b'. apply frames_agree_mono. intros name i [HP|[Hin Hm]].
        -- left. by left.
        -- apply elem_of_cons in Hin as [->|Hin]; [left; by right|].
           by right.
      * intros x Hx. apply Hsub. by right.
Qed.

(** The layer body of [fetch_data] after the new frame has been made. *)
Definition layer_from (s : GraphCacheServer) (tnid : list nat)
    (frame0 : dict Tensor) : result (dict Tensor) :=
  gpu_mask ← index (gpu_flag s) tnid;
  nids_in_gpu ← mask_select tnid gpu_mask;
  cpu_mask ← index (cpu_flag s) tnid;
  nids_in_cpu ← mask_select tnid cpu_mask;
  frame ←
    (if decide (length nids_in_gpu ≠ 0) then
       foldM (put_step (λ name,
                cacheid ← index (localid2cacheid s) nids_in_gpu;
                col ← dict_get (gpu_fix_cache s) name;
                tensor_index col cacheid) gpu_mask)
             frame0 (keys (dims s))
     else Ok frame0);
  if decide (length nids_in_cpu ≠ 0) then
    cpu_data_frame ←
      get_feat_from_server s nids_in_cpu (keys (dims s)) true;
    foldM (put_step (dict_get cpu_data_frame) cpu_mask) frame (keys (dims s))
  else Ok frame.

Lemma fetch_data_layer_from s tnid :
  fetch_data_layer s tnid
  = layer_from s tnid
      (map (λ '(name, d), (name, FloatTensor (gpuid s) (length tnid) d))
           (dims s)).
Proof.
  unfold fetch_data_layer, layer_from.
  destruct (index (gpu_flag s) tnid) as [gm|]; [|done]. rewrite !bind_Ok.
  destruct (mask_select tnid gm) as [sg|]; [|done]. rewrite !bind_Ok.
  destruct (index (cpu_flag s) tnid) as [cm|]; [|done]. rewrite !bind_Ok.
  destruct (mask_select tnid cm) as [sc|]; [|done]. rewrite !bind_Ok.
  cbv zeta.
  set (frame0 := map (λ '(name, d),
                        (name, FloatTensor (gpuid s) (length tnid) d)) (dims s)).
  set (Fg := λ name, cacheid ← index (localid2cacheid s) sg;
                     col ← dict_get (gpu_fix_cache s) name;
                     tensor_index col cacheid).
  assert (Hg : ∀ fr,
    foldM (λ frame name,
             cacheid ← index (localid2cacheid s) sg;
             col ← dict_get (gpu_fix_cache s) name;
             src ← tensor_index col cacheid;
             t ← dict_get frame name;
             t' ← mask_put t gm src;
             Ok (dict_set frame name t')) fr (keys (dims s))
    = foldM (put_step Fg gm) fr (keys (dims s))).
  { intros fr. apply foldM_ext. intros b x. unfold put_step, Fg.
    destruct (index (localid2cacheid s) sg); [|done]. rewrite !bind_Ok.
    destruct (dict_get (gpu_fix_cache s) x); [|done]. rewrite !bind_Ok.
    destruct (tensor_index _ _); done. }
  assert (Hc : ∀ fr : dict Tensor,
    (if decide (length sc ≠ 0) then
       cpu_data_frame ←
         get_feat_from_server s sc (keys (dims s)) true;
       foldM (λ frame name,
                src ← dict_get cpu_data_frame name;
                t ← dict_get frame name;
                t' ← mask_put t cm src;
                Ok (dict_set frame name t')) fr (keys (dims s))
     else Ok fr)
    = (if decide (length sc ≠ 0) then
         cpu_data_frame ←
           get_feat_from_server s sc (keys (dims s)) true;
         foldM (put_step (dict_get cpu_data_frame) cm) fr (keys (dims s))
       else Ok fr)).
  { intros fr. destruct (decide (length sc ≠ 0)); [|done].
    destruct (get_feat_from_server _ _ _ _) as [cdf|]; [|done].
    rewrite !bind_Ok. by apply foldM_ext. }
  destruct (decide (length sg ≠ 0)).
  - rewrite Hg.
    destruct (foldM (put_step Fg gm) frame0 (keys (dims s))) as [fr|];
      [|reflexivity].
    exact (Hc fr).
  - exact (Hc frame0).
Qed.

Lemma layer_from_set_gpuid dev' s tnid frame0 :
  layer_from (set_gpuid dev' s) tnid frame0 = layer_from s tnid frame0.
Proof. done. Qed.

Lemma select_nonempty {A} (l : list A) (mask : list bool) (i : nat) :
  i < length l → mask !! i = Some true → select l mask ≠ [].
Proof.
  revert mask i. induction l as [|x l IH]; intros [|b mask] i Hi Hm;
    simpl in *; try done; [lia|].
  destruct b; [done|]. destruct i as [|i]; [done|].
  apply (IH mask i); [lia|done].
Qed.

Lemma mask_select_Ok_inv {A} (l : list A) (mask : list bool) (r : list A) :
  mask_select l mask = Ok r → r = select l mask.
Proof. unfold mask_select. case_decide; [by intros [= <-]|done]. Qed.

(** Every row of a new frame is written by the cache loop or by the store
    loop: the frames made from two new frames are equal. *)
Lemma layer_from_agree s tnid f1 f2 :
  partitioned s →
  frames_agree (length tnid) (keys (dims s)) (λ _ _, False) f1 f2 →
  layer_from s tnid f1 = layer_from s tnid f2.
Proof.
  intros (Hg & Hl & Hc) Hf. unfold layer_from.
  destruct (index (gpu_flag s) tnid) as [gm|] eqn:Hgm; [|done].
  rewrite !bind_Ok.
  destruct (mask_select tnid gm) as [sg|] eqn:Hsg; [|done]. rewrite !bind_Ok.
  destruct (index (cpu_flag s) tnid) as [cm|] eqn:Hcm; [|done].
  rewrite !bind_Ok.
  destruct (mask_select tnid cm) as [sc|] eqn:Hsc; [|done]. rewrite !bind_Ok.
  apply mask_select_Ok_inv in Hsg, Hsc.
  apply index_Ok_inv in Hgm, Hcm.
  set (n := length tnid) in *. set (names0 := keys (dims s)) in *.
  assert (Hcov : ∀ i, i < n →
            (sg ≠ [] ∧ gm !! i = Some true) ∨ (sc ≠ [] ∧ cm !! i = Some true)).
  { intros i Hi. destruct (lookup_lt_is_Some_2 tnid i Hi) as [id Hid].
    destruct (Forall2_lookup_l _ _ _ _ _ Hgm Hid) as (b & Hb & Hgb).
    destruct (Forall2_lookup_l _ _ _ _ _ Hcm Hid) as (c & Hcb & Hcc).
    rewrite Hc, list_lookup_fmap, Hgb in Hcc. simpl in Hcc.
    injection Hcc as <-. destruct b; simpl in *.
    - left. split; [|done]. subst sg. by apply (select_nonempty _ _ i).
    - right. split; [|done]. subst sc. by apply (select_nonempty _ _ i). }
  apply result_rel_eq.
  apply (result_rel_bind
    (frames_agree n names0
       (λ name i, name ∈ names0 ∧ sg ≠ [] ∧ gm !! i = Some true))).
  - destruct (decide (length sg ≠ 0)) as [Hne|He].
    + eapply result_rel_mono;
        [|apply (put_loop_agree n names0); [done|exact Hf]].
      intros a b. apply frames_agree_mono. intros name i (Hin & _ & Hm).
      right. done.
    + simpl. eapply frames_agree_mono; [|exact Hf].
      intros name i (_ & Hsg' & _). destruct sg; [done|]. simpl in He. lia.
  - intros a b Hab. destruct (decide (length sc ≠ 0)) as [Hne|He].
    + destruct (get_feat_from_server _ _ _ _) as [cdf|]; [|done].
      rewrite !bind_Ok.
      eapply result_rel_mono;
        [|apply (put_loop_agree n names0); [done|exact Hab]].
      intros a' b'. apply frames_agree_eq. intros name i Hin Hi.
      destruct (Hcov i Hi) as [[? ?]|[? ?]]; [by left|by right].
    + simpl. eapply frames_agree_eq; [|exact Hab].
      intros name i Hin Hi.
      destruct (Hcov i Hi) as [[? ?]|[Hsc' ?]]; [done|].
      destruct sc; [done|]. simpl in He. lia.
Qed.

(** X18. No frame holds uninitialised memory.  The frames are allocated
    without initialisation and filled in place under the two masks; on a
    reachable server every row of every field is written, by the cache or by
    the store: replacing the device by one whose new tensors hold other
    values changes neither the result of [fetch_data] nor any frame of the
    nodeflow. *)
Theorem fetch_data_ignores_allocation (s : GraphCacheServer) (dev' : Device)
    (nf : NodeFlow) :
  reachable s →
  (fetch_data (mkWorld (set_gpuid dev' s) nf)).1
    = (fetch_data (mkWorld s nf)).1 ∧
  nodeflow (fetch_data (mkWorld (set_gpuid dev' s) nf)).2
    = nodeflow (fetch_data (mkWorld s nf)).2.
Proof.
  intros Hr. rewrite !fetch_data_run. cbn [nodeflow].
  apply gather_loop_rel; cbn [nodeflow self_]; [done|].
  intros i tnid _. unfold layer_frame.
  change (full_cached (set_gpuid dev' s)) with (full_cached s).
  destruct (full_cached s); [done|].
  rewrite !fetch_data_layer_from, layer_from_set_gpuid.
  apply layer_from_agree; [by apply reachable_partitioned|].
  split.
  - unfold keys. rewrite <- list_fmap_compose.
    pose proof (reachable_dims_NoDup s Hr) as Hnd. unfold keys in Hnd.
    erewrite list_fmap_ext; [exact Hnd|]. by intros _ [name d] _.
  - apply Forall2_fmap, Forall_Forall2_diag, Forall_forall.
    intros [name d] Hin. simpl. split; [done|]. split.
    + unfold keys. apply list_elem_of_fmap. by exists (name, d).
    + unfold agree, size0, FloatTensor. simpl.
      rewrite !length_map, !length_seq. done.
Qed.

End Storage.

(** * The model at work *)

(** ** The stable argsort is a sorting permutation *)

Lemma insert_desc_perm (deg : nat → nat) (i : nat) (l : list nat) :
  insert_desc deg i l ≡ₚ i :: l.
Proof.
  induction l as [|j l IH]; simpl; [done|].
  case_decide; [done|]. rewrite IH. apply Permutation_swap.
Qed.

Lemma stable_argsort_permutation (l : list nat) :
  stable_argsort l ≡ₚ seq 0 (length l).
Proof.
  unfold stable_argsort. generalize (seq 0 (length l)) as idx.
  induction idx as [|i idx IH]; simpl; [done|].
  by rewrite insert_desc_perm, IH.
Qed.

Lemma insert_desc_sorted (deg : nat → nat) (i : nat) (l : list nat) :
  StronglySorted (λ a b, deg b ≤ deg a) l →
  StronglySorted (λ a b, deg b ≤ deg a) (insert_desc deg i l).
Proof.
  induction 1 as [|j l Hl IH Hj]; simpl.
  - repeat constructor.
  - case_decide as Hji.
    + constructor; [by constructor|]. constructor; [done|].
      eapply Forall_impl; [exact Hj|]. intros x Hx. simpl in *. lia.
    + constructor; [done|]. rewrite insert_desc_perm.
      constructor; [lia|done].
Qed.

Lemma StronglySorted_lookup_le (deg : nat → nat) (l : list nat) (i j a b : nat) :
  StronglySorted (λ a b, deg b ≤ deg a) l → i ≤ j →
  l !! i = Some a → l !! j = Some b → deg b ≤ deg a.
Proof.
  intros Hl. revert i j. induction Hl as [|x l Hl IH Hx]; intros i j Hij Hi Hj.
  - done.
  - destruct i as [|i], j as [|j]; simpl in *; try lia.
    + by simplify_eq.
    + injection Hi as ->. rewrite Forall_forall in Hx. apply Hx.
      by eapply list_elem_of_lookup_2.
    + apply (IH i j); [lia|done|done].
Qed.

Lemma stable_argsort_sorted (l : list nat) (i j a b : nat) :
  i ≤ j → stable_argsort l !! i = Some a → stable_argsort l !! j = Some b →
  l !!! b ≤ l !!! a.
Proof.
  apply (StronglySorted_lookup_le (λ i, l !!! i)). unfold stable_argsort.
  generalize (seq 0 (length l)) as idx.
  induction idx as [|k idx IH]; simpl; [constructor|].
  by apply insert_desc_sorted.
Qed.

(** ** A store of six nodes and a partition of five *)

Arguments mkTensor {elem}.
Arguments mkDevice {elem}.
Arguments mkNodeFlow {elem}.
Arguments mkWorld {elem}.
Arguments size1 {elem}.
Arguments rows {elem}.
Arguments size0 {elem}.
Arguments gpu_flag {elem}.
Arguments cpu_flag {elem}.
Arguments node_num {elem}.
Arguments cached_num {elem}.
Arguments capability {elem}.
Arguments full_cached {elem}.
Arguments dims {elem}.
Arguments localid2cacheid {elem}.
Arguments layers {elem}.
Arguments _node_frames {elem}.
Arguments nodeflow {elem}.
Arguments self_ {elem}.
Arguments set_graph {elem}.
Arguments __init__ {elem}.
Arguments init_field {elem}.
Arguments cache_fix_data {elem}.
Arguments auto_cache {elem}.
Arguments get_feat_from_server {elem}.
Arguments fetch_data_layer {elem}.
Arguments fetch_from_cache {elem}.
Arguments fetch_data_loop {elem}.
Arguments fetch_data {elem}.
Arguments reachable {elem}.
Arguments full_in_order {elem}.
Arguments store_covers {elem}.
Arguments available {elem}.
Arguments total_dim {elem}.

Local Open Scope string_scope.

Definition MiB512 : Z := 512 * 1024 * 1024.

(** Two fields, "features" of width 2 and "norm" of width 1; the rows are
    indexed by the id in the full graph. *)
Definition ex_store : dict (Tensor Z) :=
  [("features", mkTensor 2 [[10; 11]; [20; 21]; [30; 31];
                            [40; 41]; [50; 51]; [60; 61]]%Z);
   ("norm", mkTensor 1 [[1]; [2]; [3]; [4]; [5]; [6]]%Z)].

Definition ex_nid_map : list nat := [5; 3; 1; 0; 2].
Definition ex_names : list string := ["features"; "norm"].
Definition ex_graph : DGLGraph := mkDGLGraph [3; 0; 5; 1; 2].

(** A device with [free] bytes beyond the peak allocation and the 512 MiB
    that [auto_cache] keeps back. *)
Definition ex_device (free : Z) : Device Z :=
  mkDevice (8 * 1024 * 1024 * 1024)
           (8 * 1024 * 1024 * 1024 - MiB512 - free)
           (λ _ _, (-1)%Z).

Definition ex_new (free : Z) : GraphCacheServer Z :=
  __init__ ex_store 5 ex_nid_map (ex_device free).
Definition ex_ready (free : Z) : GraphCacheServer Z :=
  (init_field ex_names (ex_new free)).2.
Definition ex_cached (free : Z) : GraphCacheServer Z :=
  (auto_cache stable_argsort ex_graph ex_names (ex_ready free)).2.

Definition ex_nodeflow : NodeFlow Z :=
  mkNodeFlow [[4; 0; 2]; [1; 3]] [[]; []].

(** Scenario 1 of the placement: twelve bytes per node, room for two. *)
Example ex_partial :
  (auto_cache stable_argsort ex_graph ex_names (ex_ready 24)).1 = Ok tt ∧
  capability (ex_cached 24) = 2%Z ∧
  gpu_flag (ex_cached 24) = [true; false; true; false; false] ∧
  localid2cacheid (ex_cached 24) = [1; 0; 0; 0; 0] ∧
  cached_num (ex_cached 24) = 2 ∧
  full_cached (ex_cached 24) = false.
Proof. vm_compute. done. Qed.

(** Scenario 3: the rows come back in the order of the request. *)
Example ex_gather_partial :
  (fetch_data (mkWorld (ex_cached 24) ex_nodeflow)).1 = Ok tt ∧
  _node_frames (nodeflow (fetch_data (mkWorld (ex_cached 24) ex_nodeflow)).2)
  = [ [("features", mkTensor 2 [[30; 31]; [60; 61]; [20; 21]]%Z);
       ("norm", mkTensor 1 [[3]; [6]; [2]]%Z)];
      [("features", mkTensor 2 [[40; 41]; [10; 11]]%Z);
       ("norm", mkTensor 1 [[4]; [1]]%Z)] ].
Proof. vm_compute. done. Qed.

(** ** The theorems on the example *)

Lemma ex_new_reachable free : reachable stable_argsort (ex_new free).
Proof. apply reachable_init. Qed.

Lemma ex_cached_reachable free : reachable stable_argsort (ex_cached free).
Proof.
  eapply reachable_step; [|apply step_auto_cache].
  eapply reachable_step; [|apply step_init_field].
  apply reachable_init.
Qed.


(** The out-degrees of a second graph on the same nodes. *)
Definition ex_graph2 : DGLGraph := mkDGLGraph [0; 5; 1; 3; 2].

(** The example server after a second population, for [ex_graph2]. *)
Definition ex_recached : GraphCacheServer Z :=
  (auto_cache stable_argsort ex_graph2 ex_names (ex_cached 24)).2.

(** The state that a population out of id order with [is_full] leaves. *)
Definition ex_swapped : GraphCacheServer Z :=
  (cache_fix_data [1; 0]
     [("f", mkTensor 1 [[101]; [100]]%Z)] true
     (__init__ [("f", mkTensor 1 [[100]; [101]]%Z)] 2 [0; 1] (ex_device 0))).2.

(** C2 fails as stated: the cache is marked full, the slot of id 0 is 1, and
    the fast path serves id 0 from row 0 of the cache (the row of id 1)
    where the general path serves it from row 1. *)
Lemma fast_path_reads_by_id :
  full_cached ex_swapped = true ∧
  localid2cacheid ex_swapped = [1; 0] ∧
  _node_frames (nodeflow
     (fetch_from_cache (mkWorld ex_swapped (mkNodeFlow [[0]] [[]]))).2)
    = [[("f", mkTensor 1 [[101]]%Z)]] ∧
  _node_frames (nodeflow
     (fetch_data_loop (mkWorld ex_swapped (mkNodeFlow [[0]] [[]]))).2)
    = [[("f", mkTensor 1 [[100]]%Z)]] ∧
  fetch_from_cache (mkWorld ex_swapped (mkNodeFlow [[0]] [[]]))
    ≠ fetch_data_loop (mkWorld ex_swapped (mkNodeFlow [[0]] [[]])).
Proof.
  split; [reflexivity|]. split; [reflexivity|].
  split; [reflexivity|]. split; [reflexivity|].
  vm_compute. discriminate.
Qed.


Lemma fast_path_equivalence_witness :
  fetch_data (mkWorld (ex_cached 72) ex_nodeflow)
    = fetch_from_cache (mkWorld (ex_cached 72) ex_nodeflow) ∧
  fetch_from_cache (mkWorld (ex_cached 72) ex_nodeflow)
    = fetch_data_loop (mkWorld (ex_cached 72) ex_nodeflow).
Proof.
  apply (fast_path_equivalence Z (ex_cached 72) ex_nodeflow).
  - vm_compute. reflexivity.
  - unfold full_in_order, partitioned. repeat split; compute_done.
  - repeat constructor; vm_compute; lia.
Defined.

(** C3: the code at a device whose peak allocation leaves less than the
    512 MiB kept back (24 bytes short, twelve bytes per node).  The
    capability is stored as -2, not clamped to 0, and the slice
    [sort_nid[:-2]] caches three of the five nodes. *)
Theorem auto_cache_negative_capability :
  available (ex_ready (-24)) = (-24)%Z ∧
  total_dim (ex_ready (-24)) = 3 ∧
  (auto_cache stable_argsort ex_graph ex_names (ex_ready (-24))).1 = Ok tt ∧
  capability (ex_cached (-24)) = (-2)%Z ∧
  cached_num (ex_cached (-24)) = 3 ∧
  gpu_flag (ex_cached (-24)) = [true; false; true; false; true] ∧
  cpu_flag (ex_cached (-24)) = [false; true; false; true; false].
Proof. vm_compute. done. Qed.

(** Without fields there is nothing to divide by: [auto_cache] raises. *)
Example auto_cache_zero_total_dim :
  auto_cache stable_argsort ex_graph [] (ex_new 24)
  = (Raise ZeroDivisionError, ex_new 24).
Proof. vm_compute. done. Qed.

(** C4 fails as stated: with a capability equal to [node_num] every node is
    cached, by the partial branch, and the cache is not marked full. *)
Lemma auto_cache_equal_capability_not_full :
  (auto_cache stable_argsort ex_graph ex_names (ex_ready 60)).1 = Ok tt ∧
  capability (ex_cached 60) = 5%Z ∧
  node_num (ex_cached 60) = 5 ∧
  gpu_flag (ex_cached 60) = [true; true; true; true; true] ∧
  localid2cacheid (ex_cached 60) = [1; 4; 0; 3; 2] ∧
  full_cached (ex_cached 60) = false.
Proof. vm_compute. done. Qed.

(** The placement on the example server that is populated already. *)
Lemma auto_cache_selection_witness :
  let cap := capability ex_recached in
  let ids := take (Z.to_nat cap) (stable_argsort (out_degrees ex_graph2)) in
  (full_cached ex_recached = true ↔ (cap > Z.of_nat 5)%Z) ∧
  ((cap > Z.of_nat 5)%Z →
     cached_num ex_recached = 5 ∧
     (∀ id, id < 5 → gpu_flag ex_recached !! id = Some true) ∧
     index (localid2cacheid ex_recached) (arange 5) = Ok (arange 5)) ∧
  ((0 ≤ cap ≤ Z.of_nat 5)%Z →
     cached_num ex_recached = Z.to_nat cap ∧
     length ids = Z.to_nat cap ∧
     NoDup ids ∧
     (∀ id, id ∈ ids → gpu_flag ex_recached !! id = Some true) ∧
     (∀ id, id ∉ ids →
        gpu_flag ex_recached !! id = gpu_flag (ex_cached 24) !! id) ∧
     index (localid2cacheid ex_recached) ids = Ok (arange (Z.to_nat cap)) ∧
     (∀ a b, a ∈ ids → b < 5 → b ∉ ids →
        (out_degrees ex_graph2 !!! b ≤ out_degrees ex_graph2 !!! a)%nat) ∧
     (∀ names' (s' s2' : GraphCacheServer Z),
        node_num s' = 5 →
        auto_cache stable_argsort ex_graph2 names' s' = (Ok tt, s2') →
        capability s2' = cap →
        (∀ id, id ∈ ids → gpu_flag s2' !! id = Some true) ∧
        (∀ id, id ∉ ids → gpu_flag s2' !! id = gpu_flag s' !! id) ∧
        index (localid2cacheid s2') ids = Ok (arange (Z.to_nat cap)))).
Proof.
  apply (auto_cache_selection Z stable_argsort stable_argsort_permutation
           stable_argsort_sorted ex_names ex_graph2 (ex_cached 24)
           ex_recached).
  - reflexivity.
  - vm_compute. reflexivity.
Defined.

Lemma partition_invariant_witness :
  (gpu_flag (ex_cached 24) !! 2 = Some true ∧
   cpu_flag (ex_cached 24) !! 2 = Some false) ∨
  (gpu_flag (ex_cached 24) !! 2 = Some false ∧
   cpu_flag (ex_cached 24) !! 2 = Some true).
Proof.
  apply (partition_invariant Z stable_argsort (ex_cached 24) 2).
  - apply ex_cached_reachable.
  - vm_compute. lia.
Defined.

Definition ex_data : dict (Tensor Z) :=
  [("features", mkTensor 3 [[1; 2; 3]; [4; 5; 6]]%Z)].


Lemma cache_fix_data_row_check_witness :
  ((cache_fix_data [3; 1] ex_data false (ex_new 24)).1 = Raise AssertionError ↔
     Exists (λ nt, size0 nt.2 ≠ length [3; 1]) ex_data) ∧
  (Forall (λ nt, size0 nt.2 = length [3; 1]) ex_data →
     (cache_fix_data [3; 1] ex_data false (ex_new 24)).1 = Ok tt).
Proof.
  apply (cache_fix_data_row_check Z stable_argsort [3; 1] ex_data false
           (ex_new 24)).
  - apply ex_new_reachable.
  - repeat constructor; vm_compute; lia.
Defined.

(** C8 fails as stated: [init_field] records width 2 for "features"; a
    population whose "features" have width 3 returns normally and [dims]
    then says 3. *)
Lemma cache_fix_data_replaces_dims :
  dict_get (dims (ex_ready 24)) "features" = Ok 2 ∧
  (cache_fix_data [3; 1] ex_data false (ex_ready 24)).1 = Ok tt ∧
  dict_get (dims (cache_fix_data [3; 1] ex_data false (ex_ready 24)).2)
           "features" = Ok 3.
Proof. vm_compute. done. Qed.

Lemma ex_ready_reachable free : reachable stable_argsort (ex_ready free).
Proof.
  eapply reachable_step; [|apply step_init_field]. apply reachable_init.
Qed.

Lemma cache_fix_data_overwrites_dims_witness :
  ((cache_fix_data [3; 1] ex_data false (ex_ready 24)).1 = Ok tt ↔
     Forall (λ nt, size0 nt.2 = length [3; 1]) ex_data) ∧
  (∀ name t, dict_get ex_data name = Ok t →
     dict_get (dims (cache_fix_data [3; 1] ex_data false (ex_ready 24)).2) name
     = Ok (size1 t)) ∧
  (∀ name, name ∉ keys ex_data →
     dict_get (dims (cache_fix_data [3; 1] ex_data false (ex_ready 24)).2) name
     = dict_get (dims (ex_ready 24)) name).
Proof.
  destruct (cache_fix_data_overwrites_dims Z stable_argsort [3; 1] ex_data
              false (ex_ready 24)) as (_ & Hrows & Hdims).
  split.
  - apply Hrows.
    + apply ex_ready_reachable.
    + repeat constructor; vm_compute; lia.
  - apply Hdims.
    + compute_done.
    + vm_compute. reflexivity.
Defined.

(** A second store with other rows everywhere. *)
Definition ex_store' : dict (Tensor Z) :=
  [("features", mkTensor 2 [[0; 0]; [0; 0]; [0; 0]; [0; 0]; [0; 0]; [0; 0]]%Z);
   ("norm", mkTensor 1 [[0]; [0]; [0]; [0]; [0]; [0]]%Z)].

(** A nodeflow that asks for cached ids only. *)
Definition ex_nodeflow_gpu : NodeFlow Z := mkNodeFlow [[2; 0]; [0]] [[]; []].

Lemma device_layer_ignores_store_witness :
  (∀ tnid, Forall (λ id, gpu_flag (ex_cached 24) !! id = Some true) tnid →
     fetch_data_layer (set_graph ex_store' (ex_cached 24)) tnid
     = fetch_data_layer (ex_cached 24) tnid) ∧
  (Forall (Forall (λ id, gpu_flag (ex_cached 24) !! id = Some true))
          (layers ex_nodeflow_gpu) →
     (fetch_data (mkWorld (set_graph ex_store' (ex_cached 24)) ex_nodeflow_gpu)).1
       = (fetch_data (mkWorld (ex_cached 24) ex_nodeflow_gpu)).1 ∧
     nodeflow (fetch_data (mkWorld (set_graph ex_store' (ex_cached 24)) ex_nodeflow_gpu)).2
       = nodeflow (fetch_data (mkWorld (ex_cached 24) ex_nodeflow_gpu)).2).
Proof.
  apply (device_layer_ignores_store Z stable_argsort (ex_cached 24) ex_store' ex_nodeflow_gpu).
  - apply ex_cached_reachable.
  - vm_compute. reflexivity.
Defined.

(** The frames of that nodeflow, from the cache alone. *)
Example ex_gather_device_only :
  _node_frames (nodeflow
    (fetch_data (mkWorld (set_graph ex_store' (ex_cached 24)) ex_nodeflow_gpu)).2)
  = [ [("features", mkTensor 2 [[20; 21]; [60; 61]]%Z);
       ("norm", mkTensor 1 [[2]; [6]]%Z)];
      [("features", mkTensor 2 [[60; 61]]%Z);
       ("norm", mkTensor 1 [[6]]%Z)] ].
Proof. vm_compute. done. Qed.

(** ** The further properties on the example *)

Arguments graph {elem}.
Arguments nid_map {elem}.
Arguments gpuid {elem}.
Arguments total_memory {elem}.
Arguments max_memory_allocated {elem}.
Arguments gpu_fix_cache {elem}.
Arguments set_dims {elem}.
Arguments set_total_dim {elem}.
Arguments set_localid2cacheid {elem}.
Arguments set_gpuid {elem}.
Arguments layer_frame {elem}.
Arguments num_layers {elem}.

(** The rows of the local ids 4 and 0 (global ids 2 and 5). *)
Definition ex_frame : dict (Tensor Z) :=
  [("features", mkTensor 2 [[30; 31]; [60; 61]]%Z);
   ("norm", mkTensor 1 [[3]; [6]]%Z)].

Lemma get_feat_from_server_rows_witness :
  (NoDup ex_names → keys ex_frame = ex_names) ∧
  ∀ name, name ∈ ex_names →
    ∃ t col,
      dict_get ex_frame name = Ok t ∧
      dict_get (graph (ex_new 24)) name = Ok col ∧
      size1 t = size1 col ∧
      length (rows t) = length [4; 0] ∧
      ∀ j id, [4; 0] !! j = Some id →
        ∃ gid, nid_map (ex_new 24) !! id = Some gid ∧
               is_Some (rows col !! gid) ∧
               rows t !! j = rows col !! gid.
Proof.
  apply (get_feat_from_server_rows Z (ex_new 24) [4; 0] ex_names true ex_frame).
  vm_compute. reflexivity.
Defined.

Lemma get_feat_from_server_succeeds_iff_witness :
  ∃ frame, get_feat_from_server (ex_new 24) [4; 0] ex_names true = Ok frame.
Proof.
  apply (proj1 (get_feat_from_server_succeeds_iff Z (ex_new 24) [4; 0]
                  ex_names true)).
  split; [repeat constructor; simpl; lia|].
  repeat constructor; eexists; (split; [vm_compute; reflexivity|]);
    repeat constructor; vm_compute; lia.
Defined.

Lemma init_field_result_witness :
  (∃ ws, Forall2 (λ name w, ∃ col, dict_get (graph (ex_new 24)) name = Ok col ∧
                                   size1 col = w ∧
                                   dict_get (dims (ex_ready 24)) name = Ok w)
                 ex_names ws ∧
         total_dim (ex_ready 24) = sum_list ws) ∧
  (∀ name, name ∉ ex_names →
     dict_get (dims (ex_ready 24)) name = dict_get (dims (ex_new 24)) name) ∧
  ex_ready 24
  = set_total_dim (total_dim (ex_ready 24))
      (set_dims (dims (ex_ready 24)) (ex_new 24)).
Proof.
  apply (init_field_result Z ex_names (ex_new 24) (ex_ready 24)).
  vm_compute. reflexivity.
Defined.

Lemma init_field_failure_witness :
  (init_field ["missing"] (ex_new 24)).2 = ex_new 24 ∧
  (KeyError = IndexError ∨ KeyError = KeyError).
Proof.
  apply (init_field_failure Z ["missing"] (ex_new 24) KeyError).
  vm_compute. reflexivity.
Defined.

Lemma auto_cache_stores_capability_witness :
  let free := (total_memory (gpuid (ex_ready 24))
               - max_memory_allocated (gpuid (ex_ready 24))
               - 512 * 1024 * 1024)%Z in
  capability (auto_cache stable_argsort ex_graph ex_names (ex_ready 24)).2
    = (free ÷ (Z.of_nat (total_dim (ex_ready 24)) * 4))%Z ∧
  ((0 ≤ free)%Z →
     capability (auto_cache stable_argsort ex_graph ex_names (ex_ready 24)).2
       = (free / (Z.of_nat (total_dim (ex_ready 24)) * 4))%Z).
Proof.
  apply (auto_cache_stores_capability Z stable_argsort ex_graph ex_names
           (ex_ready 24)).
  - vm_compute. lia.
  - vm_compute. reflexivity.
Defined.

(** The example server on a device of twice the memory, with the same peak
    allocation. *)
Definition ex_ready_big : GraphCacheServer Z :=
  (init_field ex_names
     (__init__ ex_store 5 ex_nid_map
        (mkDevice (16 * 1024 * 1024 * 1024)
                  (8 * 1024 * 1024 * 1024 - MiB512 - 24)
                  (λ _ _, (-1)%Z)))).2.

Lemma auto_cache_capability_monotone_witness :
  (capability (auto_cache stable_argsort ex_graph ex_names (ex_ready 24)).2
   ≤ capability (auto_cache stable_argsort ex_graph ex_names ex_ready_big).2)%Z.
Proof.
  apply (auto_cache_capability_monotone Z stable_argsort ex_graph ex_graph
           ex_names ex_names (ex_ready 24) ex_ready_big).
  - vm_compute. lia.
  - vm_compute. reflexivity.
  - vm_compute. reflexivity.
  - vm_compute. discriminate.
Defined.

Lemma auto_cache_errors_witness :
  auto_cache stable_argsort ex_graph ex_names (ex_new 24)
  = (Raise ZeroDivisionError, ex_new 24).
Proof.
  apply (proj1 (auto_cache_errors Z stable_argsort ex_graph ex_names
                  (ex_new 24))).
  reflexivity.
Defined.

Lemma auto_cache_no_room_witness :
  capability (ex_cached 8) = 0%Z ∧
  gpu_flag (ex_cached 8) = gpu_flag (ex_ready 8) ∧
  cpu_flag (ex_cached 8) = cpu_flag (ex_ready 8) ∧
  localid2cacheid (ex_cached 8) = localid2cacheid (ex_ready 8) ∧
  cached_num (ex_cached 8) = 0 ∧ full_cached (ex_cached 8) = false.
Proof.
  apply (auto_cache_no_room Z stable_argsort ex_graph ex_names
           (ex_ready 8) (ex_cached 8)).
  - compute_done.
  - split; [apply Z.leb_le | apply Z.ltb_lt]; vm_compute; reflexivity.
  - vm_compute. reflexivity.
Defined.

Lemma auto_cache_full_in_order_witness :
  full_cached (ex_cached 72) = true ∧ full_in_order (ex_cached 72).
Proof.
  apply (auto_cache_full_in_order Z stable_argsort ex_store 5 ex_nid_map
           (ex_device 72) ex_names ex_graph (ex_ready 72) (ex_cached 72)).
  - compute_done.
  - vm_compute. reflexivity.
  - vm_compute. reflexivity.
  - vm_compute. reflexivity.
Defined.

(** A population whose third id is not a local node: the slots of the
    first two ids are written, then the call raises. *)
Example ex_slots_begun :
  (cache_fix_data [3; 1; 7] ex_store false (ex_new 24)).1 = Raise IndexError ∧
  localid2cacheid (cache_fix_data [3; 1; 7] ex_store false (ex_new 24)).2
    = [0; 1; 0; 0; 0] ∧
  gpu_flag (cache_fix_data [3; 1; 7] ex_store false (ex_new 24)).2
    = gpu_flag (ex_new 24).
Proof. vm_compute. done. Qed.

Lemma cache_fix_data_failure_witness :
  ∃ k bad s2,
    [3; 1; 7] !! k = Some bad ∧ (node_num (ex_new 24) ≤ bad)%nat ∧
    Forall (λ i, i < node_num (ex_new 24)) (take k [3; 1; 7]) ∧
    cache_fix_data [3; 1; 7] ex_store false (ex_new 24)
      = (Raise IndexError, s2) ∧
    s2 = set_localid2cacheid (localid2cacheid s2) (ex_new 24) ∧
    (NoDup (take k [3; 1; 7]) →
       index (localid2cacheid s2) (take k [3; 1; 7]) = Ok (arange k)) ∧
    (∀ id, id ∉ take k [3; 1; 7] →
       localid2cacheid s2 !! id = localid2cacheid (ex_new 24) !! id).
Proof.
  apply (proj1 (cache_fix_data_failure Z stable_argsort [3; 1; 7] ex_store
                  false (ex_new 24) (ex_new_reachable 24))).
  intros Hall. apply Forall_cons in Hall as [_ Hall].
  apply Forall_cons in Hall as [_ Hall].
  apply Forall_cons in Hall as [Hbad _]. vm_compute in Hbad. lia.
Defined.

Lemma device_flag_never_cleared_witness :
  gpu_flag (cache_fix_data [3; 1] ex_data false (ex_cached 24)).2 !! 2
    = Some true ∧
  cpu_flag (cache_fix_data [3; 1] ex_data false (ex_cached 24)).2 !! 2
    = Some false.
Proof.
  apply (device_flag_never_cleared Z stable_argsort (ex_cached 24)
           (cache_fix_data [3; 1] ex_data false (ex_cached 24)).2 2).
  - apply ex_cached_reachable.
  - apply step_cache_fix_data.
  - vm_compute. reflexivity.
Defined.

Lemma cache_fix_data_effect_witness :
  let s' := (cache_fix_data [3; 1] ex_data false (ex_ready 24)).2 in
  (∀ name t, dict_get ex_data name = Ok t →
     dict_get (gpu_fix_cache s') name = Ok t) ∧
  (∀ name, name ∉ keys ex_data →
     dict_get (gpu_fix_cache s') name
     = dict_get (gpu_fix_cache (ex_ready 24)) name) ∧
  (∀ id, id ∈ [3; 1] →
     gpu_flag s' !! id = Some true ∧ cpu_flag s' !! id = Some false) ∧
  (∀ id, id ∉ [3; 1] →
     gpu_flag s' !! id = gpu_flag (ex_ready 24) !! id ∧
     cpu_flag s' !! id = cpu_flag (ex_ready 24) !! id) ∧
  full_cached s' = false.
Proof.
  apply (cache_fix_data_effect Z [3; 1] ex_data false (ex_ready 24)
           (cache_fix_data [3; 1] ex_data false (ex_ready 24)).2).
  - compute_done.
  - vm_compute. reflexivity.
Defined.

Lemma fetch_data_unpopulated_witness :
  ∃ frames,
    fetch_data (mkWorld (ex_ready 24) ex_nodeflow)
      = (Ok tt, mkWorld (ex_ready 24)
                  (mkNodeFlow (layers ex_nodeflow) frames)) ∧
    Forall2 (λ tnid frame,
               get_feat_from_server (ex_ready 24) tnid ex_names true = Ok frame)
            (layers ex_nodeflow) frames.
Proof.
  apply (fetch_data_unpopulated Z ex_store 5 ex_nid_map (ex_device 24)
           ex_names (ex_ready 24) ex_nodeflow).
  - compute_done.
  - vm_compute. reflexivity.
  - split; [simpl; lia|]. repeat constructor; simpl; lia.
  - repeat constructor; simpl; lia.
  - reflexivity.
Defined.

(** The frame of the first layer of [ex_nodeflow] on the example. *)
Definition ex_frame_first : dict (Tensor Z) :=
  [("features", mkTensor 2 [[30; 31]; [60; 61]; [20; 21]]%Z);
   ("norm", mkTensor 1 [[3]; [6]; [2]]%Z)].

Lemma fetch_data_first_failure_witness :
  fetch_data (mkWorld (ex_cached 24)
                (mkNodeFlow ([[4; 0; 2]] ++ [7] :: [[1; 3]]) [[]; []; []]))
  = (Raise IndexError,
     mkWorld (ex_cached 24)
       (mkNodeFlow ([[4; 0; 2]] ++ [7] :: [[1; 3]])
          ([ex_frame_first] ++ drop (length [[4; 0; 2]]) [[]; []; []]))).
Proof.
  apply (fetch_data_first_failure Z (ex_cached 24) [[4; 0; 2]] [7] [[1; 3]]
           [[]; []; []] [ex_frame_first] IndexError).
  - simpl. lia.
  - constructor; [vm_compute; reflexivity|constructor].
  - vm_compute. reflexivity.
Defined.

Lemma fetch_data_returns_iff_witness :
  (num_layers ex_nodeflow ≤ length (_node_frames ex_nodeflow))%nat ∧
  ∃ done_,
    Forall2 (λ tnid frame, layer_frame (ex_cached 24) tnid = Ok frame)
            (layers ex_nodeflow) done_ ∧
    (fetch_data (mkWorld (ex_cached 24) ex_nodeflow)).2
    = mkWorld (ex_cached 24)
        (mkNodeFlow (layers ex_nodeflow)
           (done_ ++ drop (num_layers ex_nodeflow) (_node_frames ex_nodeflow))).
Proof.
  apply (proj1 (fetch_data_returns_iff Z (ex_cached 24) ex_nodeflow
                  (fetch_data (mkWorld (ex_cached 24) ex_nodeflow)).2)).
  vm_compute. reflexivity.
Defined.

Lemma fetch_data_out_of_range_witness :
  (∀ tnid, Exists (λ id, (node_num (ex_cached 24) ≤ id)%nat) tnid →
     ∃ e, fetch_data_layer (ex_cached 24) tnid = Raise e) ∧
  ∃ e, (fetch_data (mkWorld (ex_cached 24)
                      (mkNodeFlow [[4; 0; 2]; [7]] [[]; []]))).1 = Raise e.
Proof.
  apply (fetch_data_out_of_range Z stable_argsort (ex_cached 24)
           (mkNodeFlow [[4; 0; 2]; [7]] [[]; []])).
  - apply ex_cached_reachable.
  - vm_compute. reflexivity.
  - apply Exists_cons_tl, Exists_cons_hd, Exists_cons_hd. vm_compute. lia.
Defined.

Lemma full_cache_reads_buffers_only_witness :
  (fetch_data (mkWorld (ex_cached 72) ex_nodeflow)).1
    = (fetch_data (mkWorld (set_graph ex_store' (ex_cached 72)) ex_nodeflow)).1 ∧
  nodeflow (fetch_data (mkWorld (ex_cached 72) ex_nodeflow)).2
  = nodeflow
      (fetch_data (mkWorld (set_graph ex_store' (ex_cached 72)) ex_nodeflow)).2.
Proof.
  apply (full_cache_reads_buffers_only Z (ex_cached 72)
           (set_graph ex_store' (ex_cached 72)) ex_nodeflow).
  - vm_compute. reflexivity.
  - vm_compute. reflexivity.
  - reflexivity.
Defined.

(** A device whose new tensors hold 7 everywhere. *)
Definition ex_device_sevens : Device Z :=
  mkDevice (8 * 1024 * 1024 * 1024) 0 (λ _ _, 7%Z).

Lemma fetch_data_ignores_allocation_witness :
  (fetch_data (mkWorld (set_gpuid ex_device_sevens (ex_cached 24))
                 ex_nodeflow)).1
    = (fetch_data (mkWorld (ex_cached 24) ex_nodeflow)).1 ∧
  nodeflow (fetch_data (mkWorld (set_gpuid ex_device_sevens (ex_cached 24))
                          ex_nodeflow)).2
    = nodeflow (fetch_data (mkWorld (ex_cached 24) ex_nodeflow)).2.
Proof.
  apply (fetch_data_ignores_allocation Z stable_argsort (ex_cached 24)
           ex_device_sevens ex_nodeflow).
  apply ex_cached_reachable.
Defined.
